(** * Phase 2 (backpropagation / compaction) of the plotter: [src/phase2.hpp]

    A shallow embedding of [RunPhase2] and of the collaborators it calls,
    followed by the properties of the phase.

    Integers of the source are [Z]; the one unsigned addition that can wrap
    ([entry_pos + entry_offset], both [uint64_t]) has its wrap-around written
    out.  Cursors and counters are [int64_t] in the source, where overflow is
    undefined; they are unbounded here.  The size of a table is kept in an
    [int64_t] (line 78) and the width of its entries in an [int16_t]
    (line 79): the values are taken to fit, sizes below 2^63 and widths
    below 2^15.  A table file is a list of bytes, a
    Liveness Set ([std::vector<bool>]) a list of booleans whose accesses are
    checked: an access outside the vector is undefined in the source and a
    [Fault OutOfBounds] here. *)

From Stdlib Require Import ZArith Lia List.
From Stdlib.Strings Require Import Byte.
From stdpp Require Import base list numbers sorting.

Open Scope Z_scope.

(** ** Outcomes of a run *)

Inductive fault : Type :=
| OutOfBounds          (* access outside a std::vector *)
| PreconditionViolated (* bitfield_index::lookup on a bit that is not set *)
| AssertionFailed      (* the assert of line 218 *)
| IOFailure            (* short read, or the sort stage has no such entry *)
| BadEntrySize.        (* entry width that is not positive *)

Inductive outcome (A : Type) : Type :=
| Done (a : A)
| Fault (f : fault)
| OutOfFuel.

Arguments Done {A} a.
Arguments Fault {A} f.
Arguments OutOfFuel {A}.

Definition obind {A B : Type} (m : outcome A) (f : A → outcome B) : outcome B :=
  match m with
  | Done a => f a
  | Fault e => Fault e
  | OutOfFuel => OutOfFuel
  end.

Definition outcome_map {A B : Type} (f : A → B) (m : outcome A) : outcome B :=
  obind m (λ a, Done (f a)).

Notation "x <- m ;; k" := (obind m (λ x, k))
  (at level 20, m at level 99, k at level 200, format "x  <-  m  ;;  '/' k").
Notation "' p <- m ;; k" := (obind m (λ x, match x with p => k end))
  (at level 20, p pattern, m at level 99, k at level 200,
   format "' p  <-  m  ;;  '/' k").

(** ** Bytes and big-endian integers *)

Definition byte_to_Z (b : byte) : Z := Z.of_N (Byte.to_N b).

Definition byte_of_Z (z : Z) : byte :=
  match Byte.of_N (Z.to_N (z mod 256)) with
  | Some b => b
  | None => x00
  end.

(** The bytes read as one big-endian number. *)
Definition BytesToInt (bs : list byte) : Z :=
  fold_left (λ acc b, acc * 256 + byte_to_Z b) bs 0.

(** The [n] low-order bytes of [v], most significant first. *)
Fixpoint IntToBytes (n : nat) (v : Z) : list byte :=
  match n with
  | O => []
  | S n' => IntToBytes n' (v / 256) ++ [byte_of_Z v]
  end.

Definition wrap64 (z : Z) : Z := z mod 2 ^ 64.

Module Util.

(** Modelled from the spec: [Util::ByteAlign] (util.hpp is not part of the
    sources): the number of bits rounded up to a whole number of bytes. *)
Definition ByteAlign (num_bits : Z) : Z :=
  num_bits + (8 - num_bits mod 8) mod 8.

(** Modelled from the spec: [Util::SliceInt64FromBytes] (util.hpp is not
    part of the sources).  Fields are bit-packed, most significant bit
    first: the result is the [num_bits] bits that start at bit [start_bit]
    of [bytes], as a [uint64_t].  [bytes] is the entry the source's
    pointer designates; a field that would reach past the entry's last
    byte is outside the data model and reads as [0] here. *)
Definition SliceInt64FromBytes (bytes : list byte) (start_bit num_bits : Z) : Z :=
  wrap64 ((BytesToInt bytes
           / 2 ^ (8 * Z.of_nat (length bytes) - start_bit - num_bits))
          mod 2 ^ num_bits).

End Util.

(** ** Bit strings under construction *)
Module Bits.

(** Modelled from the spec: the [Bits] class (bits.hpp is not part of the
    sources).  A value of [size] bits; [+=] appends on the low-order side;
    [ToBytes] left-packs the bits into whole bytes, the unused low-order
    bits of the last byte being zero. *)
Record t : Type := mk { value : Z; size : Z }.

Definition empty : t := mk 0 0.

(** [Bits(value, size)]: an unsigned field of [size] bits. *)
Definition make (v sz : Z) : t := mk (v mod 2 ^ sz) sz.

(** [a += b] *)
Definition append (a b : t) : t :=
  mk (value a * 2 ^ size b + value b) (size a + size b).

Definition GetSize (a : t) : Z := size a.

Definition ToBytes (a : t) : list byte :=
  let aligned := Util.ByteAlign (size a) in
  IntToBytes (Z.to_nat (aligned / 8)) (value a * 2 ^ (aligned - size a)).

End Bits.

Infix "+=" := Bits.append (at level 50, left associativity).

(** ** Memory buffer *)

(** [bytes] stored at offset [i] of a buffer, as [ToBytes(i)] does through
    its pointer. *)
Definition buffer_store (buffer : list byte) (i : Z) (bytes : list byte) : list byte :=
  take (Z.to_nat i) buffer ++ bytes
    ++ drop (Z.to_nat i + length bytes) buffer.

(** The [entry_size] bytes at offset [i] of a buffer. *)
Definition buffer_entry (buffer : list byte) (i entry_size : Z) : list byte :=
  take (Z.to_nat entry_size) (drop (Z.to_nat i) buffer).

(** ** Table files

    [FileDisk], a read/write/truncate interface over one file, the file
    being its bytes. *)
Module FileDisk.

Abbreviation t := (list byte).

(** Modelled from the spec: [FileDisk::Read] (disk.hpp is not part of the
    sources).  A read that reaches past the end of the file is a short
    read, which is fatal. *)
Definition Read (d : t) (begin len : Z) : outcome (list byte) :=
  if (0 <=? begin) && (begin + len <=? Z.of_nat (length d))
  then Done (take (Z.to_nat len) (drop (Z.to_nat begin) d))
  else Fault IOFailure.

(** Modelled from the spec: [FileDisk::Write] (disk.hpp is not part of the
    sources).  A write past the end of the file extends it, the gap being
    zeros. *)
Definition Write (d : t) (begin : Z) (data : list byte) : t :=
  let n := Z.to_nat begin in
  take n (d ++ replicate (n - length d) x00) ++ data
    ++ drop (n + length data) d.

(** Modelled from the spec: [FileDisk::Truncate] (disk.hpp is not part of
    the sources): the file cut, or extended with zeros, to [new_size]
    bytes. *)
Definition Truncate (d : t) (new_size : Z) : t :=
  let n := Z.to_nat new_size in
  take n d ++ replicate (n - length d) x00.

End FileDisk.

(** ** Liveness Sets: [std::vector<bool>] *)

Abbreviation bitfield := (list bool).

(** [bf[i]] as an rvalue *)
Definition bitfield_get (bf : bitfield) (i : Z) : outcome bool :=
  if 0 <=? i then
    match bf !! Z.to_nat i with
    | Some b => Done b
    | None => Fault OutOfBounds
    end
  else Fault OutOfBounds.

(** [bf[i] = true] *)
Definition bitfield_set (bf : bitfield) (i : Z) : outcome bitfield :=
  if (0 <=? i) && (i <? Z.of_nat (length bf))
  then Done (<[Z.to_nat i := true]> bf)
  else Fault OutOfBounds.

(** [std::vector<T>::operator[]] on the vectors of sizes and of disks *)
Definition vector_get {A : Type} (v : list A) (i : Z) : outcome A :=
  if 0 <=? i then
    match v !! Z.to_nat i with
    | Some a => Done a
    | None => Fault OutOfBounds
    end
  else Fault OutOfBounds.

Fixpoint popcount (bf : bitfield) : Z :=
  match bf with
  | [] => 0
  | b :: bf' => (if b then 1 else 0) + popcount bf'
  end.

(** ** Compaction Rank Index *)
Module bitfield_index.

(** Modelled from the spec: the rank of [bitfield_index]
    (bitfield_index.hpp is not part of the sources): [rank p] is the count
    of [true] bits at indices below [p]. *)
Definition rank (bf : bitfield) (p : Z) : Z := popcount (take (Z.to_nat p) bf).

(** Modelled from the spec: [bitfield_index::lookup] (bitfield_index.hpp is
    not part of the sources): [rank pos] and
    [rank (pos + offset) - rank pos], defined only where both bits are
    set. *)
Definition lookup (bf : bitfield) (pos offset : Z) : outcome (Z * Z) :=
  b1 <- bitfield_get bf pos ;;
  b2 <- bitfield_get bf (wrap64 (pos + offset)) ;;
  if b1 && b2
  then Done (rank bf pos, rank bf (wrap64 (pos + offset)) - rank bf pos)
  else Fault PreconditionViolated.

End bitfield_index.

(** ** External Sort Stage *)

(** The bits of an entry that follow its first [begin_bits] bits. *)
Definition entry_key (begin_bits : Z) (e : list byte) : Z :=
  BytesToInt e mod 2 ^ (8 * Z.of_nat (length e) - begin_bits).

Definition key_le (begin_bits : Z) : relation (list byte) :=
  λ a b, entry_key begin_bits a ≤ entry_key begin_bits b.

(** Modelled from the spec: [SortManager] (sort_manager.hpp is not part of
    the sources), a black box with an add / flush / read-back contract.  What
    it replays after the flush is the submitted entries, rearranged in
    ascending order of the bits that follow the first [begin_bits] bits,
    whose leading field is the entry's new position.  How it orders entries
    of equal key, and whether that depends on its memory or its buckets, the
    contract does not say. *)
Class SortStage : Type := {
  (** memory_size, num_buckets, log_num_buckets, entry_size, begin_bits *)
  replay : Z → Z → Z → Z → Z → list (list byte) → list (list byte);
  replay_Permutation : ∀ m nb lnb es bb l, replay m nb lnb es bb l ≡ₚ l;
  replay_Sorted : ∀ m nb lnb es bb l, Sorted (key_le bb) (replay m nb lnb es bb l)
}.

Module SortManager.

(** Modelled from the spec: a [SortManager] (sort_manager.hpp is not part of
    the sources) as the phase sees it: the parameters it was made with and
    the entries added so far. *)
Record t : Type := mk {
  memory_size : Z;
  num_buckets : Z;
  log_num_buckets : Z;
  entry_size : Z;
  begin_bits : Z;
  cache : list (list byte)
}.

Definition make (memory_size num_buckets log_num_buckets entry_size begin_bits : Z) : t :=
  mk memory_size num_buckets log_num_buckets entry_size begin_bits [].

Definition AddToCache (sm : t) (entry : Bits.t) : t :=
  mk (memory_size sm) (num_buckets sm) (log_num_buckets sm) (entry_size sm)
     (begin_bits sm) (cache sm ++ [Bits.ToBytes entry]).

Definition FlushCache (sm : t) : t := sm.

Definition sorted `{!SortStage} (sm : t) : list (list byte) :=
  replay (memory_size sm) (num_buckets sm) (log_num_buckets sm)
         (entry_size sm) (begin_bits sm) (cache sm).

(** [ReadEntry(position)]: the entry at byte offset [position] of the
    sorted sequence. *)
Definition ReadEntry `{!SortStage} (sm : t) (position : Z) : outcome (list byte) :=
  match sorted sm !! Z.to_nat (position / entry_size sm) with
  | Some e => Done e
  | None => Fault IOFailure
  end.

End SortManager.

(** ** A sort stage for running the model

    A stable merge sort on the key: one stage that meets the contract, used
    to evaluate the phase on concrete tables. *)

#[local] Instance key_le_dec bb : RelDecision (key_le bb).
Proof. intros a b. unfold key_le. apply _. Defined.

#[local] Instance key_le_total bb : Total (key_le bb).
Proof. intros a b. unfold key_le. lia. Qed.

Definition merge_sort_stage : SortStage := {|
  replay := λ _ _ _ _ bb l, merge_sort (key_le bb) l;
  replay_Permutation := λ _ _ _ _ bb l, merge_sort_Permutation (key_le bb) l;
  replay_Sorted := λ _ _ _ _ bb l, Sorted_merge_sort (key_le bb) l
|}.

#[local] Instance key_le_trans bb : Transitive (key_le bb).
Proof. intros a b c. unfold key_le. lia. Qed.


(** ** Small tables for running the model

    Tables of a toy plot with [k = 5] and offsets of 10 bits, entries of
    three bytes (one byte in table 1), used to evaluate the phase. *)
Module Example.

Definition k : Z := 5.
Definition kOffsetSize : Z := 10.

Definition GetMaxEntrySize (k table_index : Z) (phase_1_size : bool) : Z :=
  if table_index =? 1 then 1 else 3.

(** An entry of table 7: f7, pos, offset and four bits of padding. *)
Definition entry7 (f7 pos offset : Z) : list byte :=
  Bits.ToBytes
    (Bits.empty += Bits.make f7 k += Bits.make pos k
                += Bits.make offset kOffsetSize).

(** An entry of a table 2..6 as the phase finds it: pos, offset and nine
    bits of metadata. *)
Definition entry (pos offset metadata : Z) : list byte :=
  Bits.ToBytes
    (Bits.empty += Bits.make pos k += Bits.make offset kOffsetSize
                += Bits.make metadata 9).

(** Three entries in table 7 that refer to five of the six entries of
    table 6, which refer to both entries of table 5; from there down only
    entry 0 of each table is referred to. *)
Definition table7 : FileDisk.t := entry7 1 0 1 ++ entry7 2 2 1 ++ entry7 3 3 1.

Definition table6 : FileDisk.t :=
  entry 0 0 7 ++ entry 0 1 7 ++ entry 1 0 7 ++ entry 0 0 7 ++ entry 1 0 7
  ++ entry 1 0 7.

Definition table5 : FileDisk.t := entry 0 0 7 ++ entry 0 0 7.

Definition table1 : FileDisk.t := [x01; x02; x03].

Definition disks : list FileDisk.t :=
  [[]; table1; table5; table5; table5; table5; table6; table7].

Definition table_sizes : list Z := [0; 3; 2; 2; 2; 2; 6; 3].

(** Tables none of whose entries is dropped: one entry in table 7 that
    refers to both entries of table 6, which both refer to the one entry of
    table 5; one entry in each table below. *)
Definition live_table6 : FileDisk.t := entry 0 0 7 ++ entry 0 0 5.

Definition live_disks : list FileDisk.t :=
  [[]; [x01]; entry 0 0 7; entry 0 0 7; entry 0 0 7; entry 0 0 7;
   live_table6; entry7 1 0 1].

Definition live_sizes : list Z := [0; 1; 1; 1; 1; 1; 2; 1].

End Example.

(** ** Tables whose entries are too narrow

    One table 6 of one live entry, in entries of two bytes: too narrow for
    the 21 bits of a sorted entry when [k = 5] and offsets have 10 bits. *)
Module NarrowExample.

Definition GetMaxEntrySize (k table_index : Z) (phase_1_size : bool) : Z := 2.

Definition table_sizes : list Z := [0; 0; 0; 0; 0; 1; 1; 0].

Definition disks : list FileDisk.t :=
  [[]; []; []; []; []; [x00; x00]; [x00; x00]; []].

(** The state in which the loop over the tables reaches table 6, its one
    entry live. *)
Definition reaches6 : list bool := [true].

End NarrowExample.

(** ** Tables with more entries than the sort key counts

    Tables of a toy plot with [k = 1] and offsets of 10 bits, entries of
    two bytes (one byte in table 1): the four entries of table 7 refer to
    all five entries of table 6, one more than the [2^(k+1)] values of a
    sort key of [k + 1] bits. *)
Module CrowdedExample.

Definition k : Z := 1.
Definition kOffsetSize : Z := 10.

Definition GetMaxEntrySize (k table_index : Z) (phase_1_size : bool) : Z :=
  if table_index =? 1 then 1 else 2.

(** An entry of table 7: f7, pos, offset and four bits of padding. *)
Definition entry7 (f7 pos offset : Z) : list byte :=
  Bits.ToBytes
    (Bits.empty += Bits.make f7 k += Bits.make pos k
                += Bits.make offset kOffsetSize).

(** An entry of a table 2..6 as the phase finds it: pos, offset and five
    bits of metadata. *)
Definition entry (pos offset metadata : Z) : list byte :=
  Bits.ToBytes
    (Bits.empty += Bits.make pos k += Bits.make offset kOffsetSize
                += Bits.make metadata 5).

Definition table7 : FileDisk.t :=
  entry7 1 0 1 ++ entry7 0 1 1 ++ entry7 1 1 2 ++ entry7 0 1 3.

Definition table6 : FileDisk.t :=
  entry 0 0 7 ++ entry 0 0 7 ++ entry 0 0 7 ++ entry 0 0 7 ++ entry 0 0 7.

Definition disks : list FileDisk.t :=
  [[]; [x01]; entry 0 0 7; entry 0 0 7; entry 0 0 7; entry 0 0 7;
   table6; table7].

Definition table_sizes : list Z := [0; 1; 1; 1; 1; 1; 5; 4].

End CrowdedExample.

(** ** The phase *)

Section Phase2.

Context {sort_stage : SortStage}.

(** Constants and entry widths come from headers that are not part of the
    sources ([kOffsetSize], [EntrySizes::GetMaxEntrySize]); the phase is
    parameterised by them. *)
Variable kOffsetSize : Z.
Variable GetMaxEntrySize : Z → Z → bool → Z.

(** *** First scan of a table (lines 85-124) *)

(** The body of the [for] loop, lines 103-122. *)
Definition pass1_entry (k table_index : Z) (current_bitfield : bitfield)
    (read_index : Z) (entry : list byte) (next_bitfield : bitfield)
    : outcome bitfield :=
  let pos_size := k in
  fields <-
    (if table_index =? 7 then
       Done (Some (Util.SliceInt64FromBytes entry k pos_size,
                   Util.SliceInt64FromBytes entry (k + pos_size) kOffsetSize))
     else
       live <- bitfield_get current_bitfield read_index ;;
       if negb live then Done None
       else
         Done (Some (Util.SliceInt64FromBytes entry 0 pos_size,
                     Util.SliceInt64FromBytes entry pos_size kOffsetSize))) ;;
  match fields with
  | None => Done next_bitfield
  | Some (entry_pos, entry_offset) =>
      next_bitfield <- bitfield_set next_bitfield entry_pos ;;
      bitfield_set next_bitfield (wrap64 (entry_pos + entry_offset))
  end.

(** The [for] loop of lines 99-123 over the cached entries; [n] is the
    number of iterations left, [i] the offset of the pointer in the
    buffer. *)
Fixpoint pass1_for (k table_index entry_size : Z) (current_bitfield : bitfield)
    (read_buffer : list byte) (n : nat) (i read_index : Z)
    (next_bitfield : bitfield) : outcome (Z * bitfield) :=
  match n with
  | O => Done (read_index, next_bitfield)
  | S n' =>
      next_bitfield <-
        pass1_entry k table_index current_bitfield read_index
          (buffer_entry read_buffer i entry_size) next_bitfield ;;
      pass1_for k table_index entry_size current_bitfield read_buffer n'
        (i + entry_size) (read_index + 1) next_bitfield
  end.

(** Iterations of [for (i = buf; i < buf + to_read; i += entry_size)]. *)
Definition for_count (to_read entry_size : Z) : nat :=
  Z.to_nat ((to_read + entry_size - 1) / entry_size).

(** The [while] loop of lines 88-124. *)
Fixpoint pass1_while (fuel : nat) (k table_index entry_size : Z)
    (current_bitfield : bitfield) (disk : FileDisk.t)
    (table_size read_buffer_size : Z)
    (read_index read_cursor : Z) (next_bitfield : bitfield)
    : outcome bitfield :=
  if read_index <? table_size then
    match fuel with
    | O => OutOfFuel
    | S fuel' =>
        let to_read :=
          Z.min read_buffer_size (table_size * entry_size - read_cursor) in
        read_buffer <- FileDisk.Read disk read_cursor to_read ;;
        let read_cursor := read_cursor + to_read in
        '(read_index, next_bitfield) <-
          pass1_for k table_index entry_size current_bitfield read_buffer
            (for_count to_read entry_size) 0 read_index next_bitfield ;;
        pass1_while fuel' k table_index entry_size current_bitfield disk
          table_size read_buffer_size read_index read_cursor next_bitfield
    end
  else Done next_bitfield.

(** *** Second scan of a table (lines 156-230) *)

Record pass2_state : Type := mkPass2 {
  p2_buffer : list byte;             (* the read buffer *)
  p2_disk : FileDisk.t;              (* tmp_1_disks[table_index] *)
  p2_sort_manager : SortManager.t;
  p2_write_counter : Z
}.

(** The body of the [for] loop, lines 174-228; [i] is the offset of the
    entry in the read buffer. *)
Definition pass2_entry (k table_index entry_size : Z)
    (current_bitfield next_bitfield : bitfield)
    (i read_index : Z) (st : pass2_state) : outcome pass2_state :=
  let pos_size := k in
  let entry := buffer_entry (p2_buffer st) i entry_size in
  fields <-
    (if table_index =? 7 then
       Done (Some (Util.SliceInt64FromBytes entry 0 k,
                   Util.SliceInt64FromBytes entry k pos_size,
                   Util.SliceInt64FromBytes entry (k + pos_size) kOffsetSize))
     else
       live <- bitfield_get current_bitfield read_index ;;
       if negb live then Done None
       else
         Done (Some (0,
                     Util.SliceInt64FromBytes entry 0 pos_size,
                     Util.SliceInt64FromBytes entry pos_size kOffsetSize))) ;;
  match fields with
  | None => Done st
  | Some (entry_f7, entry_pos, entry_offset) =>
      '(entry_pos, entry_offset) <-
        bitfield_index.lookup next_bitfield entry_pos entry_offset ;;
      let write_counter := p2_write_counter st in
      if table_index =? 7 then
        let new_entry :=
          Bits.empty += Bits.make entry_f7 k += Bits.make entry_pos pos_size
                     += Bits.make entry_offset kOffsetSize in
        let buffer := buffer_store (p2_buffer st) i (Bits.ToBytes new_entry) in
        let disk :=
          FileDisk.Write (p2_disk st) (read_index * entry_size)
            (buffer_entry buffer i entry_size) in
        Done (mkPass2 buffer disk (p2_sort_manager st) (write_counter + 1))
      else
        let new_entry :=
          Bits.empty += Bits.make write_counter (k + 1)
                     += Bits.make entry_pos pos_size
                     += Bits.make entry_offset kOffsetSize in
        if negb (Bits.GetSize new_entry <=? entry_size * 8)
        then Fault AssertionFailed
        else
          let new_entry :=
            if Util.ByteAlign (Bits.GetSize new_entry) <? entry_size * 8
            then new_entry
                   += Bits.make 0 (entry_size * 8 - Bits.GetSize new_entry)
            else new_entry in
          Done (mkPass2 (p2_buffer st) (p2_disk st)
                  (SortManager.AddToCache (p2_sort_manager st) new_entry)
                  (write_counter + 1))
  end.

Fixpoint pass2_for (k table_index entry_size : Z)
    (current_bitfield next_bitfield : bitfield)
    (n : nat) (i read_index : Z) (st : pass2_state)
    : outcome (Z * pass2_state) :=
  match n with
  | O => Done (read_index, st)
  | S n' =>
      st <- pass2_entry k table_index entry_size current_bitfield
              next_bitfield i read_index st ;;
      pass2_for k table_index entry_size current_bitfield next_bitfield n'
        (i + entry_size) (read_index + 1) st
  end.

(** The [while] loop of lines 159-230. *)
Fixpoint pass2_while (fuel : nat) (k table_index entry_size : Z)
    (current_bitfield next_bitfield : bitfield)
    (table_size read_buffer_size : Z)
    (read_index read_cursor : Z) (st : pass2_state)
    : outcome pass2_state :=
  if read_index <? table_size then
    match fuel with
    | O => OutOfFuel
    | S fuel' =>
        let to_read :=
          Z.min read_buffer_size (table_size * entry_size - read_cursor) in
        read_buffer <- FileDisk.Read (p2_disk st) read_cursor to_read ;;
        let read_cursor := read_cursor + to_read in
        let st := mkPass2 read_buffer (p2_disk st) (p2_sort_manager st)
                    (p2_write_counter st) in
        '(read_index, st) <-
          pass2_for k table_index entry_size current_bitfield next_bitfield
            (for_count to_read entry_size) 0 read_index st ;;
        pass2_while fuel' k table_index entry_size current_bitfield
          next_bitfield table_size read_buffer_size read_index read_cursor st
    end
  else Done st.

(** Lines 239-243: the sorted entries written back from offset 0. *)
Fixpoint write_sorted (n : nat) (entry_size : Z) (sm : SortManager.t)
    (i : Z) (disk : FileDisk.t) : outcome FileDisk.t :=
  match n with
  | O => Done disk
  | S n' =>
      entry <- SortManager.ReadEntry sm (i * entry_size) ;;
      write_sorted n' entry_size sm (i + 1)
        (FileDisk.Write disk (i * entry_size) entry)
  end.

(** *** One iteration of the loop over the tables (lines 69-253) *)

Record phase2_state : Type := mkPhase2 {
  tmp_1_disks : list FileDisk.t;
  new_table_sizes : list Z;
  current_bitfield : bitfield
}.

Definition read_buffer_size (memory_size entry_size : Z) : Z :=
  memory_size / 2 - (memory_size / 2) mod entry_size.

Definition backpropagate_table (fuel : nat) (table_sizes : list Z) (k : Z)
    (memory_size num_buckets log_num_buckets : Z)
    (table_index : Z) (st : phase2_state) : outcome phase2_state :=
  prev_size <- vector_get table_sizes (table_index - 1) ;;
  let next_bitfield := replicate (Z.to_nat prev_size) false in
  table_size <- vector_get table_sizes table_index ;;
  let entry_size := GetMaxEntrySize k table_index false in
  if entry_size <=? 0 then Fault BadEntrySize else
  let read_buffer_size := read_buffer_size memory_size entry_size in
  disk <- vector_get (tmp_1_disks st) table_index ;;
  next_bitfield <-
    pass1_while fuel k table_index entry_size (current_bitfield st) disk
      table_size read_buffer_size 0 0 next_bitfield ;;
  let sort_cache_size := memory_size - read_buffer_size in
  let sort_manager :=
    SortManager.make sort_cache_size num_buckets log_num_buckets entry_size
      (k + 1) in
  p2 <-
    pass2_while fuel k table_index entry_size (current_bitfield st)
      next_bitfield table_size read_buffer_size 0 0
      (mkPass2 [] disk sort_manager 0) ;;
  let write_counter := p2_write_counter p2 in
  if negb (table_index =? 7) then
    let sort_manager := SortManager.FlushCache (p2_sort_manager p2) in
    disk <-
      write_sorted (Z.to_nat write_counter) entry_size sort_manager 0
        (p2_disk p2) ;;
    let disk := FileDisk.Truncate disk (write_counter * entry_size) in
    Done (mkPhase2 (<[Z.to_nat table_index := disk]> (tmp_1_disks st))
            (<[Z.to_nat table_index := write_counter]> (new_table_sizes st))
            next_bitfield)
  else
    Done (mkPhase2 (<[Z.to_nat table_index := p2_disk p2]> (tmp_1_disks st))
            (new_table_sizes st) next_bitfield).

(** [for (int table_index = 7; table_index > 1; --table_index)] *)
Fixpoint tables_loop (n : nat) (fuel : nat) (table_sizes : list Z) (k : Z)
    (memory_size num_buckets log_num_buckets : Z)
    (table_index : Z) (st : phase2_state) : outcome phase2_state :=
  match n with
  | O => Done st
  | S n' =>
      st <- backpropagate_table fuel table_sizes k memory_size num_buckets
              log_num_buckets table_index st ;;
      tables_loop n' fuel table_sizes k memory_size num_buckets
        log_num_buckets (table_index - 1) st
  end.

(** *** Compaction of table 1 (lines 257-284) *)

Record compact_state : Type := mkCompact {
  c_disk : FileDisk.t;
  c_write_counter : Z;
  c_write_cursor : Z
}.

Fixpoint compact_for (n : nat) (entry_size : Z) (current_bitfield : bitfield)
    (read_counter read_cursor : Z) (st : compact_state)
    : outcome compact_state :=
  match n with
  | O => Done st
  | S n' =>
      live <- bitfield_get current_bitfield read_counter ;;
      st <-
        (if negb live then Done st
         else
           entry <- FileDisk.Read (c_disk st) read_cursor entry_size ;;
           let disk :=
             if negb (c_write_cursor st =? read_cursor)
             then FileDisk.Write (c_disk st) (c_write_cursor st) entry
             else c_disk st in
           Done (mkCompact disk (c_write_counter st + 1)
                   (c_write_cursor st + entry_size))) ;;
      compact_for n' entry_size current_bitfield (read_counter + 1)
        (read_cursor + entry_size) st
  end.

Definition compact_table1 (entry_size table_size : Z)
    (current_bitfield : bitfield) (disk : FileDisk.t)
    : outcome (FileDisk.t * Z) :=
  st <- compact_for (Z.to_nat table_size) entry_size current_bitfield 0 0
          (mkCompact disk 0 0) ;;
  Done (FileDisk.Truncate (c_disk st) (c_write_cursor st), c_write_counter st).

(** *** The whole phase *)

Definition RunPhase2 (fuel : nat) (disks : list FileDisk.t)
    (table_sizes : list Z) (k : Z)
    (memory_size num_buckets log_num_buckets : Z)
    : outcome (list Z * list FileDisk.t) :=
  size7 <- vector_get table_sizes 7 ;;
  let initial_sizes := <[7%nat := size7]> (replicate 8 0) in
  st <- tables_loop 6 fuel table_sizes k memory_size num_buckets
          log_num_buckets 7 (mkPhase2 disks initial_sizes []) ;;
  let table_index := 1 in
  table_size <- vector_get table_sizes table_index ;;
  let entry_size := GetMaxEntrySize k table_index false in
  disk <- vector_get (tmp_1_disks st) table_index ;;
  '(disk, write_counter) <-
    compact_table1 entry_size table_size (current_bitfield st) disk ;;
  Done (<[Z.to_nat table_index := write_counter]> (new_table_sizes st),
        <[Z.to_nat table_index := disk]> (tmp_1_disks st)).

(** *** Reference semantics: one entry at a time, straight from the file

    The scans below do what the two [while] loops do when every chunk holds
    exactly one entry; they do not mention the memory budget. *)

(** Entry [j] of a table file. *)
Definition disk_entry (disk : FileDisk.t) (entry_size j : Z) : list byte :=
  buffer_entry disk (j * entry_size) entry_size.

Fixpoint scan1 (k table_index entry_size : Z) (current_bitfield : bitfield)
    (disk : FileDisk.t) (n : nat) (read_index : Z) (next_bitfield : bitfield)
    : outcome bitfield :=
  match n with
  | O => Done next_bitfield
  | S n' =>
      next_bitfield <-
        pass1_entry k table_index current_bitfield read_index
          (disk_entry disk entry_size read_index) next_bitfield ;;
      scan1 k table_index entry_size current_bitfield disk n'
        (read_index + 1) next_bitfield
  end.

(** What the second scan carries besides its read buffer. *)
Definition p2_forget (st : pass2_state) : pass2_state :=
  mkPass2 [] (p2_disk st) (p2_sort_manager st) (p2_write_counter st).

Fixpoint scan2 (k table_index entry_size : Z)
    (current_bitfield next_bitfield : bitfield)
    (n : nat) (read_index : Z) (st : pass2_state) : outcome pass2_state :=
  match n with
  | O => Done (p2_forget st)
  | S n' =>
      let entry := disk_entry (p2_disk st) entry_size read_index in
      st <- pass2_entry k table_index entry_size current_bitfield
              next_bitfield 0 read_index
              (mkPass2 entry (p2_disk st) (p2_sort_manager st)
                 (p2_write_counter st)) ;;
      scan2 k table_index entry_size current_bitfield next_bitfield n'
        (read_index + 1) st
  end.

(** *** Fields and retained entries

    The position and offset the scans read from an entry of table
    [table_index] (lines 108-109 and 116-117), and the entries the first scan
    does not drop (lines 105-115): all of table 7, and those whose bit is
    set in the current Liveness Set for the other tables. *)

Definition entry_pos (k table_index : Z) (entry : list byte) : Z :=
  if table_index =? 7 then Util.SliceInt64FromBytes entry k k
  else Util.SliceInt64FromBytes entry 0 k.

Definition entry_offset (k table_index : Z) (entry : list byte) : Z :=
  if table_index =? 7 then Util.SliceInt64FromBytes entry (k + k) kOffsetSize
  else Util.SliceInt64FromBytes entry k kOffsetSize.

Definition retained (table_index : Z) (current_bitfield : bitfield) (j : Z) : Prop :=
  table_index = 7 ∨ current_bitfield !! Z.to_nat j = Some true.

(** Entry [j] of the file refers to entry [e] of the table below. *)
Definition references (k table_index entry_size : Z) (disk : FileDisk.t)
    (j e : Z) : Prop :=
  let entry := disk_entry disk entry_size j in
  entry_pos k table_index entry = e
  ∨ wrap64 (entry_pos k table_index entry + entry_offset k table_index entry) = e.

(** Both references of entry [j] lie inside a table of [size] entries. *)
Definition in_bounds (k table_index entry_size : Z) (disk : FileDisk.t)
    (size j : Z) : Prop :=
  let entry := disk_entry disk entry_size j in
  entry_pos k table_index entry + entry_offset k table_index entry < size.

(** *** The pieces of the second scan's loop body

    The fields read from an entry (lines 174-189), the entry table 7 gets
    back (lines 201-206) and the entry handed to the sort stage (lines
    210-224), named so that statements can mention them. *)

Definition pass2_fields (k table_index : Z) (current_bitfield : bitfield)
    (read_index : Z) (entry : list byte) : outcome (option (Z * Z * Z)) :=
  if table_index =? 7 then
    Done (Some (Util.SliceInt64FromBytes entry 0 k,
                Util.SliceInt64FromBytes entry k k,
                Util.SliceInt64FromBytes entry (k + k) kOffsetSize))
  else
    live <- bitfield_get current_bitfield read_index ;;
    if negb live then Done None
    else
      Done (Some (0,
                  Util.SliceInt64FromBytes entry 0 k,
                  Util.SliceInt64FromBytes entry k kOffsetSize)).

Definition new_entry7 (k entry_f7 entry_pos entry_offset : Z) : Bits.t :=
  Bits.empty += Bits.make entry_f7 k += Bits.make entry_pos k
             += Bits.make entry_offset kOffsetSize.

(** The [k + 1 + k + kOffsetSize] bits of a sorted entry, before padding. *)
Definition new_entry_fields (k write_counter entry_pos entry_offset : Z) : Bits.t :=
  Bits.empty += Bits.make write_counter (k + 1) += Bits.make entry_pos k
             += Bits.make entry_offset kOffsetSize.

Definition new_entry (k entry_size write_counter entry_pos entry_offset : Z) : Bits.t :=
  let e := new_entry_fields k write_counter entry_pos entry_offset in
  if Util.ByteAlign (Bits.GetSize e) <? entry_size * 8
  then e += Bits.make 0 (entry_size * 8 - Bits.GetSize e)
  else e.

(** The fields of table 7 fit in its entries. *)
Definition fits7 (k entry_size : Z) : Prop :=
  Util.ByteAlign (k + k + kOffsetSize) ≤ 8 * entry_size.

(** The condition of the assertion of line 218. *)
Definition assertion_holds (k entry_size : Z) : Prop :=
  (k + 1) + k + kOffsetSize ≤ entry_size * 8.

(** *** The entries a scan keeps

    [kept] lists, in file order, the indices of the entries of a table that
    are not dropped; [ofold] runs a step over such a list. *)

#[local] Instance retained_dec table_index cur j :
  Decision (retained table_index cur j).
Proof. unfold retained. apply _. Defined.

Definition kept_from (table_index : Z) (current_bitfield : bitfield)
    (read_index n : Z) : list Z :=
  filter (retained table_index current_bitfield) (seqZ read_index n).

Definition kept (table_index : Z) (current_bitfield : bitfield)
    (table_size : Z) : list Z :=
  kept_from table_index current_bitfield 0 table_size.

Fixpoint ofold {A S : Type} (f : S → A → outcome S) (l : list A) (s : S)
    : outcome S :=
  match l with
  | [] => Done s
  | x :: l' => s' <- f s x ;; ofold f l' s'
  end.

(** Lines 120-122: entry [j] marks its two references. *)
Definition mark_references (k table_index entry_size : Z) (disk : FileDisk.t)
    (next_bitfield : bitfield) (j : Z) : outcome bitfield :=
  let entry := disk_entry disk entry_size j in
  let entry_pos := entry_pos k table_index entry in
  let entry_offset := entry_offset k table_index entry in
  next_bitfield <- bitfield_set next_bitfield entry_pos ;;
  bitfield_set next_bitfield (wrap64 (entry_pos + entry_offset)).

(** Line 195: the references of entry [j] in the compacted table below. *)
Definition remapped (k table_index entry_size : Z) (disk : FileDisk.t)
    (next_bitfield : bitfield) (j : Z) : Z * Z :=
  let entry := disk_entry disk entry_size j in
  let pos := entry_pos k table_index entry in
  let sum := wrap64 (pos + entry_offset k table_index entry) in
  (bitfield_index.rank next_bitfield pos,
   bitfield_index.rank next_bitfield sum - bitfield_index.rank next_bitfield pos).

(** The entry the second scan hands to the sort stage for entry [j] of the
    file when [write_counter] entries went before it. *)
Definition sorted_entry (k table_index entry_size : Z) (disk : FileDisk.t)
    (next_bitfield : bitfield) (write_counter j : Z) : list byte :=
  let '(pos, offset) := remapped k table_index entry_size disk next_bitfield j in
  Bits.ToBytes (new_entry k entry_size write_counter pos offset).

(** The entry table 7 gets back in place of [entry]. *)
Definition rewritten7 (k : Z) (next_bitfield : bitfield) (entry : list byte)
    : list byte :=
  let pos := entry_pos k 7 entry in
  let sum := wrap64 (pos + entry_offset k 7 entry) in
  let bytes :=
    Bits.ToBytes
      (new_entry7 k (Util.SliceInt64FromBytes entry 0 k)
         (bitfield_index.rank next_bitfield pos)
         (bitfield_index.rank next_bitfield sum
          - bitfield_index.rank next_bitfield pos)) in
  bytes ++ drop (length bytes) entry.

(** Both references of entry [j] are set in the Liveness Set. *)
Definition marked (k table_index entry_size : Z) (disk : FileDisk.t)
    (next_bitfield : bitfield) (j : Z) : Prop :=
  let entry := disk_entry disk entry_size j in
  let pos := entry_pos k table_index entry in
  let sum := wrap64 (pos + entry_offset k table_index entry) in
  next_bitfield !! Z.to_nat pos = Some true
  ∧ next_bitfield !! Z.to_nat sum = Some true.

(** The entries handed to the sort stage for the kept entries [l], the
    first with sort key [write_counter]. *)
Fixpoint emitted (k table_index entry_size : Z) (disk : FileDisk.t)
    (next_bitfield : bitfield) (write_counter : Z) (l : list Z)
    : list (list byte) :=
  match l with
  | [] => []
  | j :: l' =>
      sorted_entry k table_index entry_size disk next_bitfield write_counter j
      :: emitted k table_index entry_size disk next_bitfield
           (write_counter + 1) l'
  end.

(** The sort manager after [entries] were added to its cache. *)
Definition with_cache (sm : SortManager.t) (entries : list (list byte))
    : SortManager.t :=
  SortManager.mk (SortManager.memory_size sm) (SortManager.num_buckets sm)
    (SortManager.log_num_buckets sm) (SortManager.entry_size sm)
    (SortManager.begin_bits sm) (SortManager.cache sm ++ entries).

(** The entries [read_index .. read_index + n) of a table file. *)
Definition disk_entries (disk : FileDisk.t) (entry_size read_index n : Z)
    : list (list byte) :=
  disk_entry disk entry_size <$> seqZ read_index n.

(** *** One iteration without chunks

    What [backpropagate_table] does once both scans are done (lines
    232-252), and the iteration with the two [while] loops replaced by the
    entry-by-entry scans: no memory budget and no fuel, only the parameters
    handed to the sort stage. *)

Definition finish_table (table_index entry_size : Z) (st : phase2_state)
    (next_bitfield : bitfield) (p2 : pass2_state) : outcome phase2_state :=
  let write_counter := p2_write_counter p2 in
  if negb (table_index =? 7) then
    disk <-
      write_sorted (Z.to_nat write_counter) entry_size
        (SortManager.FlushCache (p2_sort_manager p2)) 0 (p2_disk p2) ;;
    let disk := FileDisk.Truncate disk (write_counter * entry_size) in
    Done (mkPhase2 (<[Z.to_nat table_index := disk]> (tmp_1_disks st))
            (<[Z.to_nat table_index := write_counter]> (new_table_sizes st))
            next_bitfield)
  else
    Done (mkPhase2 (<[Z.to_nat table_index := p2_disk p2]> (tmp_1_disks st))
            (new_table_sizes st) next_bitfield).

Definition backpropagate_scan (table_sizes : list Z) (k : Z)
    (sort_cache_size num_buckets log_num_buckets : Z)
    (table_index : Z) (st : phase2_state) : outcome phase2_state :=
  prev_size <- vector_get table_sizes (table_index - 1) ;;
  table_size <- vector_get table_sizes table_index ;;
  let entry_size := GetMaxEntrySize k table_index false in
  if entry_size <=? 0 then Fault BadEntrySize else
  disk <- vector_get (tmp_1_disks st) table_index ;;
  next_bitfield <-
    scan1 k table_index entry_size (current_bitfield st) disk
      (Z.to_nat table_size) 0 (replicate (Z.to_nat prev_size) false) ;;
  p2 <-
    scan2 k table_index entry_size (current_bitfield st) next_bitfield
      (Z.to_nat table_size) 0
      (mkPass2 [] disk
         (SortManager.make sort_cache_size num_buckets log_num_buckets
            entry_size (k + 1)) 0) ;;
  finish_table table_index entry_size st next_bitfield p2.



(** *** The phase without chunks *)

Definition sort_cache_size (memory_size entry_size : Z) : Z :=
  memory_size - read_buffer_size memory_size entry_size.

Fixpoint tables_scan (n : nat) (table_sizes : list Z) (k : Z)
    (memory_size num_buckets log_num_buckets : Z)
    (table_index : Z) (st : phase2_state) : outcome phase2_state :=
  match n with
  | O => Done st
  | S n' =>
      st <- backpropagate_scan table_sizes k
              (sort_cache_size memory_size
                 (GetMaxEntrySize k table_index false))
              num_buckets log_num_buckets table_index st ;;
      tables_scan n' table_sizes k memory_size num_buckets log_num_buckets
        (table_index - 1) st
  end.

(** Lines 257-288, after the loop over the tables. *)
Definition finish_phase (table_sizes : list Z) (k : Z) (st : phase2_state)
    : outcome (list Z * list FileDisk.t) :=
  let table_index := 1 in
  table_size <- vector_get table_sizes table_index ;;
  let entry_size := GetMaxEntrySize k table_index false in
  disk <- vector_get (tmp_1_disks st) table_index ;;
  '(disk, write_counter) <-
    compact_table1 entry_size table_size (current_bitfield st) disk ;;
  Done (<[Z.to_nat table_index := write_counter]> (new_table_sizes st),
        <[Z.to_nat table_index := disk]> (tmp_1_disks st)).

Definition RunPhase2_scan (disks : list FileDisk.t) (table_sizes : list Z)
    (k : Z) (memory_size num_buckets log_num_buckets : Z)
    : outcome (list Z * list FileDisk.t) :=
  size7 <- vector_get table_sizes 7 ;;
  let initial_sizes := <[7%nat := size7]> (replicate 8 0) in
  st <- tables_scan 6 table_sizes k memory_size num_buckets log_num_buckets 7
          (mkPhase2 disks initial_sizes []) ;;
  finish_phase table_sizes k st.

(** Table [table_index] is provisioned for: half the memory budget holds
    one of its entries, its file holds as many entries as its size says,
    and there is fuel for one chunk per entry. *)
Definition provisioned (fuel : nat) (disks : list FileDisk.t)
    (table_sizes : list Z) (k memory_size table_index : Z) : Prop :=
  let entry_size := GetMaxEntrySize k table_index false in
  entry_size ≤ memory_size / 2
  ∧ ∀ table_size disk,
      table_sizes !! Z.to_nat table_index = Some table_size →
      disks !! Z.to_nat table_index = Some disk →
      table_size * entry_size ≤ Z.of_nat (length disk)
      ∧ table_size ≤ Z.of_nat fuel.

(** A bit string whose value fits its size. *)
Definition Bits_wf (b : Bits.t) : Prop :=
  0 ≤ Bits.size b ∧ 0 ≤ Bits.value b < 2 ^ Bits.size b.

(** An outcome other than the failure of the assertion. *)
Definition no_assert {A : Type} (m : outcome A) : Prop :=
  m ≠ Fault AssertionFailed.

(** *** The phase in closed form

    The Liveness Sets and the table files the phase computes on valid
    tables, written without loops over chunks: [current_set n] is the
    current Liveness Set after [n] iterations of the loop over the tables
    (the set of table [7 - n]), [state_after n] the state of the phase
    then. *)

Definition size_of (table_sizes : list Z) (table_index : Z) : Z :=
  default 0 (table_sizes !! Z.to_nat table_index).

Definition disk_of (disks : list FileDisk.t) (table_index : Z) : FileDisk.t :=
  default [] (disks !! Z.to_nat table_index).

(** The next Liveness Set: the references of the kept entries, marked. *)
Definition next_set (k table_index entry_size : Z) (cur : bitfield)
    (disk : FileDisk.t) (table_size prev_size : Z) : bitfield :=
  fold_left
    (λ bf j,
       let entry := disk_entry disk entry_size j in
       let pos := entry_pos k table_index entry in
       let sum := wrap64 (pos + entry_offset k table_index entry) in
       <[Z.to_nat sum := true]> (<[Z.to_nat pos := true]> bf))
    (kept table_index cur table_size)
    (replicate (Z.to_nat prev_size) false).

Fixpoint current_set (disks : list FileDisk.t) (table_sizes : list Z) (k : Z)
    (n : nat) : bitfield :=
  match n with
  | O => []
  | S n' =>
      let table_index := 7 - Z.of_nat n' in
      next_set k table_index (GetMaxEntrySize k table_index false)
        (current_set disks table_sizes k n')
        (disk_of disks table_index) (size_of table_sizes table_index)
        (size_of table_sizes (table_index - 1))
  end.

(** Table [7 - n] is valid: its file holds its entries, their fields fit,
    and the references of its kept entries lie inside the table below. *)
Definition valid_table (disks : list FileDisk.t) (table_sizes : list Z)
    (k : Z) (n : nat) : Prop :=
  let table_index := 7 - Z.of_nat n in
  let entry_size := GetMaxEntrySize k table_index false in
  let disk := disk_of disks table_index in
  let table_size := size_of table_sizes table_index in
  let prev_size := size_of table_sizes (table_index - 1) in
  0 < entry_size ∧ 0 ≤ table_size ∧ 0 ≤ prev_size
  ∧ table_size * entry_size ≤ Z.of_nat (length disk)
  ∧ (table_index = 7 → fits7 k entry_size)
  ∧ (table_index ≠ 7 → assertion_holds k entry_size)
  ∧ Forall (in_bounds k table_index entry_size disk prev_size)
      (kept table_index (current_set disks table_sizes k n) table_size).

(** The input of the phase is valid: eight sizes and eight files (index 0
    is not used), tables 7 to 2 valid, and the file of table 1 holds its
    entries. *)
Definition valid_tables (disks : list FileDisk.t) (table_sizes : list Z)
    (k : Z) : Prop :=
  length table_sizes = 8%nat ∧ length disks = 8%nat
  ∧ (∀ n : nat, (n < 6)%nat → valid_table disks table_sizes k n)
  ∧ 0 < GetMaxEntrySize k 1 false
  ∧ size_of table_sizes 1 * GetMaxEntrySize k 1 false
    ≤ Z.of_nat (length (disk_of disks 1)).

(** The file of table [7 - n] after the phase. *)
Definition new_disk (disks : list FileDisk.t) (table_sizes : list Z)
    (k memory_size num_buckets log_num_buckets : Z) (n : nat) : FileDisk.t :=
  let table_index := 7 - Z.of_nat n in
  let entry_size := GetMaxEntrySize k table_index false in
  let disk := disk_of disks table_index in
  let table_size := size_of table_sizes table_index in
  let cur := current_set disks table_sizes k n in
  let next := current_set disks table_sizes k (S n) in
  match n with
  | O =>
      concat (rewritten7 k next <$> disk_entries disk entry_size 0 table_size)
      ++ drop (Z.to_nat (table_size * entry_size)) disk
  | S _ =>
      concat
        (replay (sort_cache_size memory_size entry_size) num_buckets
           log_num_buckets entry_size (k + 1)
           (emitted k table_index entry_size disk next 0
              (kept table_index cur table_size)))
  end.

(** The number of entries of table [7 - n] after the phase. *)
Definition new_size (disks : list FileDisk.t) (table_sizes : list Z) (k : Z)
    (n : nat) : Z :=
  let table_index := 7 - Z.of_nat n in
  Z.of_nat (length (kept table_index (current_set disks table_sizes k n)
                      (size_of table_sizes table_index))).

Fixpoint state_after (disks : list FileDisk.t) (table_sizes : list Z)
    (k memory_size num_buckets log_num_buckets : Z) (n : nat)
    : phase2_state :=
  match n with
  | O =>
      mkPhase2 disks (<[7%nat := size_of table_sizes 7]> (replicate 8 0)) []
  | S n' =>
      let st :=
        state_after disks table_sizes k memory_size num_buckets
          log_num_buckets n' in
      let table_index := Z.to_nat (7 - Z.of_nat n') in
      mkPhase2
        (<[table_index :=
             new_disk disks table_sizes k memory_size num_buckets
               log_num_buckets n']> (tmp_1_disks st))
        (match n' with
         | O => new_table_sizes st
         | S _ =>
             <[table_index := new_size disks table_sizes k n']>
               (new_table_sizes st)
         end)
        (current_set disks table_sizes k n)
  end.

(** The result of the phase on valid tables: sizes and files. *)
Definition phase_result (disks : list FileDisk.t) (table_sizes : list Z)
    (k memory_size num_buckets log_num_buckets : Z)
    : list Z * list FileDisk.t :=
  let st :=
    state_after disks table_sizes k memory_size num_buckets log_num_buckets 6 in
  let entry_size := GetMaxEntrySize k 1 false in
  let cur := current_set disks table_sizes k 6 in
  (<[1%nat := popcount cur]> (new_table_sizes st),
   <[1%nat :=
       concat (disk_entry (disk_of disks 1) entry_size
                 <$> kept 1 cur (size_of table_sizes 1))]>
     (tmp_1_disks st)).

(** The state the phase starts the loop over the tables in (lines 43-44 and
    63-64). *)
Definition initial_state (disks : list FileDisk.t) (table_sizes : list Z)
    : phase2_state :=
  mkPhase2 disks (<[7%nat := size_of table_sizes 7]> (replicate 8 0)) [].

(** Half the memory budget holds one entry of each of the tables 2 to 7,
    and there is fuel for one chunk per entry. *)
Definition budget_suffices (fuel : nat) (table_sizes : list Z)
    (k memory_size : Z) : Prop :=
  ∀ table_index, 2 ≤ table_index ≤ 7 →
    GetMaxEntrySize k table_index false ≤ memory_size / 2
    ∧ size_of table_sizes table_index ≤ Z.of_nat fuel.


(** Entry [e] of table [7 - n] is reachable from table 7: it is an entry of
    table 7, or an entry of the table above that is reachable refers to
    it. *)
Fixpoint reachable (disks : list FileDisk.t) (table_sizes : list Z) (k : Z)
    (n : nat) (e : Z) : Prop :=
  match n with
  | O => 0 ≤ e < size_of table_sizes 7
  | S n' =>
      let table_index := 7 - Z.of_nat n' in
      ∃ j, reachable disks table_sizes k n' j
           ∧ 0 ≤ j < size_of table_sizes table_index
           ∧ references k table_index (GetMaxEntrySize k table_index false)
               (disk_of disks table_index) j e
  end.

(** *** Two runs side by side

    What two runs of the phase on the same tables have in common when their
    memory budgets and the parameters of their sort stages differ. *)






(** ** Lemmas *)

(** *** Outcomes *)

Lemma obind_Done_inv {A B : Type} (m : outcome A) (f : A → outcome B) (b : B) :
  obind m f = Done b → ∃ a, m = Done a ∧ f a = Done b.
Proof. destruct m; simpl; intros; try discriminate. eauto. Qed.

Lemma obind_assoc {A B C : Type} (m : outcome A) (f : A → outcome B)
    (g : B → outcome C) :
  obind (obind m f) g = obind m (λ a, obind (f a) g).
Proof. by destruct m. Qed.

Lemma obind_ext {A B : Type} (m : outcome A) (f g : A → outcome B) :
  (∀ a, m = Done a → f a = g a) → obind m f = obind m g.
Proof. destruct m; simpl; auto. Qed.

(** *** Entries inside buffers and files *)

Lemma length_buffer_entry buffer i entry_size :
  0 ≤ i → 0 ≤ entry_size → i + entry_size ≤ Z.of_nat (length buffer) →
  Z.of_nat (length (buffer_entry buffer i entry_size)) = entry_size.
Proof.
  intros. unfold buffer_entry. rewrite length_take, length_drop. lia.
Qed.

(** An entry of a chunk read from a file is the entry of the file. *)
Lemma chunk_entry (disk : FileDisk.t) (cursor len i entry_size : Z) :
  0 ≤ cursor → 0 ≤ i → 0 ≤ entry_size → i + entry_size ≤ len →
  buffer_entry (take (Z.to_nat len) (drop (Z.to_nat cursor) disk)) i entry_size
  = buffer_entry disk (cursor + i) entry_size.
Proof.
  intros. unfold buffer_entry.
  rewrite skipn_firstn_comm, take_take, drop_drop.
  f_equal; [lia | f_equal; lia].
Qed.

Lemma Read_Done (disk : FileDisk.t) (begin len : Z) :
  0 ≤ begin → begin + len ≤ Z.of_nat (length disk) →
  FileDisk.Read disk begin len
  = Done (take (Z.to_nat len) (drop (Z.to_nat begin) disk)).
Proof.
  intros. unfold FileDisk.Read.
  destruct (0 <=? begin) eqn:E1; [|lia].
  destruct (begin + len <=? Z.of_nat (length disk)) eqn:E2; [done|lia].
Qed.

Lemma for_count_mul (m entry_size : Z) :
  0 < entry_size → 0 ≤ m → for_count (m * entry_size) entry_size = Z.to_nat m.
Proof.
  intros. unfold for_count. f_equal.
  replace (m * entry_size + entry_size - 1)
    with (entry_size - 1 + m * entry_size) by lia.
  rewrite Z.div_add by lia. rewrite Z.div_small by lia. lia.
Qed.

(** The chunk read at an entry boundary: a whole, positive number of
    entries as soon as the buffer holds one. *)
Lemma to_read_entries (table_size entry_size rbs read_index : Z) :
  0 < entry_size → entry_size ≤ rbs → rbs mod entry_size = 0 →
  0 ≤ read_index < table_size →
  ∃ m, 0 < m ∧ read_index + m ≤ table_size ∧
       Z.min rbs (table_size * entry_size - read_index * entry_size)
       = m * entry_size.
Proof.
  intros Hes Hrbs Hmod Hri.
  apply Z.mod_divide in Hmod; [|lia]. destruct Hmod as [q Hq]. subst rbs.
  assert (0 < q) by nia.
  destruct (Z.le_gt_cases q (table_size - read_index)).
  - exists q. split; [done|]. split; [lia|]. nia.
  - exists (table_size - read_index). split; [lia|]. split; [lia|]. nia.
Qed.

Lemma read_buffer_size_mod (memory_size entry_size : Z) :
  0 < entry_size → read_buffer_size memory_size entry_size mod entry_size = 0.
Proof.
  intros. unfold read_buffer_size.
  rewrite Zminus_mod, Z.mod_mod, Z.sub_diag by lia. by rewrite Z.mod_0_l by lia.
Qed.

Lemma read_buffer_size_ge (memory_size entry_size : Z) :
  0 < entry_size → entry_size ≤ memory_size / 2 →
  entry_size ≤ read_buffer_size memory_size entry_size.
Proof.
  intros Hes Hm. unfold read_buffer_size.
  pose proof (Z.div_mod (memory_size / 2) entry_size ltac:(lia)) as E.
  assert (1 ≤ memory_size / 2 / entry_size).
  { apply Z.div_le_lower_bound; lia. }
  nia.
Qed.

(** *** The first scan does not depend on the chunking *)

Lemma scan1_app k table_index entry_size cur disk (n m : nat) read_index bf :
  scan1 k table_index entry_size cur disk (n + m) read_index bf
  = (bf' <- scan1 k table_index entry_size cur disk n read_index bf ;;
     scan1 k table_index entry_size cur disk m (read_index + Z.of_nat n) bf').
Proof.
  revert read_index bf. induction n as [|n IH]; intros read_index bf; simpl.
  - by rewrite Z.add_0_r.
  - rewrite obind_assoc. apply obind_ext. intros bf' _.
    rewrite IH. do 2 f_equal. lia.
Qed.

Lemma pass1_for_scan k table_index entry_size cur disk cursor len
    (n : nat) (i read_index : Z) bf :
  0 < entry_size → 0 ≤ cursor → 0 ≤ i →
  i + Z.of_nat n * entry_size ≤ len →
  cursor + i = read_index * entry_size →
  pass1_for k table_index entry_size cur
    (take (Z.to_nat len) (drop (Z.to_nat cursor) disk)) n i read_index bf
  = (bf' <- scan1 k table_index entry_size cur disk n read_index bf ;;
     Done (read_index + Z.of_nat n, bf')).
Proof.
  intros Hes Hc. revert i read_index bf.
  induction n as [|n IH]; intros i read_index bf Hi Hlen Hcur; simpl.
  - by rewrite Z.add_0_r.
  - rewrite chunk_entry by lia. unfold disk_entry. rewrite Hcur.
    rewrite obind_assoc. apply obind_ext. intros bf' _.
    rewrite IH by lia.
    by replace (read_index + Z.of_nat (S n)) with (read_index + 1 + Z.of_nat n)
      by lia.
Qed.

Lemma pass1_while_scan k table_index entry_size cur disk table_size rbs
    (fuel : nat) (read_index : Z) bf :
  0 < entry_size → entry_size ≤ rbs → rbs mod entry_size = 0 →
  table_size * entry_size ≤ Z.of_nat (length disk) →
  0 ≤ read_index → table_size - read_index ≤ Z.of_nat fuel →
  pass1_while fuel k table_index entry_size cur disk table_size rbs
    read_index (read_index * entry_size) bf
  = scan1 k table_index entry_size cur disk
      (Z.to_nat (table_size - read_index)) read_index bf.
Proof.
  intros Hes Hrbs Hmod Hlen. revert read_index bf.
  induction fuel as [|fuel IH]; intros read_index bf Hri Hfuel.
  - simpl. destruct (read_index <? table_size) eqn:E; [lia|].
    replace (Z.to_nat (table_size - read_index)) with O by lia. done.
  - simpl. destruct (read_index <? table_size) eqn:E.
    + destruct (to_read_entries table_size entry_size rbs read_index)
        as (m & Hm & Hle & ->); [lia..|].
      rewrite Read_Done by nia.
      rewrite for_count_mul by lia. simpl.
      rewrite pass1_for_scan by lia.
      replace (Z.to_nat (table_size - read_index))
        with (Z.to_nat m + Z.to_nat (table_size - (read_index + m)))%nat by lia.
      rewrite scan1_app, obind_assoc. apply obind_ext. intros bf' _. simpl.
      rewrite Z2Nat.id by lia.
      replace (read_index * entry_size + m * entry_size)
        with ((read_index + m) * entry_size) by lia.
      apply IH; lia.
    + replace (Z.to_nat (table_size - read_index)) with O by lia. done.
Qed.

(** *** Liveness Sets *)

Lemma wrap64_range z : 0 ≤ wrap64 z < 2 ^ 64.
Proof. unfold wrap64. apply Z.mod_pos_bound. lia. Qed.

Lemma wrap64_le z : 0 ≤ z → wrap64 z ≤ z.
Proof. intros. unfold wrap64. apply Z.mod_le; lia. Qed.

Lemma wrap64_small z : 0 ≤ z < 2 ^ 64 → wrap64 z = z.
Proof. intros. unfold wrap64. by apply Z.mod_small. Qed.

Lemma SliceInt64FromBytes_range bytes start_bit num_bits :
  0 ≤ Util.SliceInt64FromBytes bytes start_bit num_bits < 2 ^ 64.
Proof. apply wrap64_range. Qed.

Lemma entry_pos_range k table_index entry :
  0 ≤ entry_pos k table_index entry < 2 ^ 64.
Proof. unfold entry_pos. destruct (_ =? _); apply SliceInt64FromBytes_range. Qed.

Lemma entry_offset_range k table_index entry :
  0 ≤ entry_offset k table_index entry < 2 ^ 64.
Proof. unfold entry_offset. destruct (_ =? _); apply SliceInt64FromBytes_range. Qed.

Lemma bitfield_get_Done (bf : bitfield) (i : Z) (b : bool) :
  0 ≤ i → bf !! Z.to_nat i = Some b → bitfield_get bf i = Done b.
Proof.
  intros Hi Hb. unfold bitfield_get. rewrite Hb.
  by destruct (0 <=? i) eqn:E; [|lia].
Qed.

Lemma bitfield_get_inv (bf : bitfield) (i : Z) (b : bool) :
  bitfield_get bf i = Done b → 0 ≤ i < Z.of_nat (length bf) ∧ bf !! Z.to_nat i = Some b.
Proof.
  unfold bitfield_get. destruct (0 <=? i) eqn:E; [|done].
  destruct (bf !! Z.to_nat i) as [b'|] eqn:Hb; [|done].
  intros [= ->]. apply lookup_lt_Some in Hb as Hlt. split; [lia|done].
Qed.

Lemma bitfield_set_Done (bf : bitfield) (i : Z) :
  0 ≤ i < Z.of_nat (length bf) →
  bitfield_set bf i = Done (<[Z.to_nat i := true]> bf).
Proof.
  intros. unfold bitfield_set.
  destruct (0 <=? i) eqn:E1; [|lia].
  by destruct (i <? Z.of_nat (length bf)) eqn:E2; [|lia].
Qed.

Lemma bitfield_set_inv (bf bf' : bitfield) (i : Z) :
  bitfield_set bf i = Done bf' →
  0 ≤ i < Z.of_nat (length bf) ∧ bf' = <[Z.to_nat i := true]> bf.
Proof.
  unfold bitfield_set.
  destruct (0 <=? i) eqn:E1; [|done].
  destruct (i <? Z.of_nat (length bf)) eqn:E2; [|done].
  intros [= <-]. split; [lia|done].
Qed.

Lemma lookup_set_true (bf : bitfield) (i e : nat) :
  (i < length bf)%nat →
  <[i := true]> bf !! e = Some true ↔ e = i ∨ bf !! e = Some true.
Proof.
  intros Hi. destruct (decide (e = i)) as [->|Hne].
  - rewrite list_lookup_insert_eq by done. split; auto.
  - rewrite list_lookup_insert_ne by done. split; [auto|by intros [?|?]].
Qed.

(** The first scan on one entry: a retained entry marks its two references,
    a dropped one leaves the set as it is. *)
Lemma pass1_entry_inv k table_index cur read_index entry bf bf' :
  pass1_entry k table_index cur read_index entry bf = Done bf' →
  let pos := entry_pos k table_index entry in
  let sum := wrap64 (pos + entry_offset k table_index entry) in
  (retained table_index cur read_index
   ∧ 0 ≤ pos < Z.of_nat (length bf) ∧ 0 ≤ sum < Z.of_nat (length bf)
   ∧ bf' = <[Z.to_nat sum := true]> (<[Z.to_nat pos := true]> bf))
  ∨ (¬ retained table_index cur read_index ∧ bf' = bf).
Proof.
  unfold pass1_entry, entry_pos, entry_offset, retained.
  destruct (table_index =? 7) eqn:E7; simpl.
  - intros (bf1 & H1 & H2)%obind_Done_inv.
    apply bitfield_set_inv in H1 as [? ->].
    apply bitfield_set_inv in H2 as [? ->].
    rewrite length_insert in *. left. split; [left; lia|]. repeat split; lia.
  - intros (fields & H1 & H2)%obind_Done_inv.
    apply obind_Done_inv in H1 as (live & Hlive & H1).
    apply bitfield_get_inv in Hlive as [? Hlive].
    destruct live; simpl in H1; injection H1 as <-.
    + apply obind_Done_inv in H2 as (bf1 & H1 & H2).
      apply bitfield_set_inv in H1 as [? ->].
      apply bitfield_set_inv in H2 as [? ->].
      rewrite length_insert in *. left. split; [by right|]. repeat split; lia.
    + injection H2 as <-. right. split; [|done].
      intros [?|?]; [lia|congruence].
Qed.

Lemma pass1_entry_retained k table_index cur read_index entry bf :
  0 ≤ read_index →
  retained table_index cur read_index →
  entry_pos k table_index entry + entry_offset k table_index entry
    < Z.of_nat (length bf) →
  let pos := entry_pos k table_index entry in
  let sum := wrap64 (pos + entry_offset k table_index entry) in
  pass1_entry k table_index cur read_index entry bf
  = Done (<[Z.to_nat sum := true]> (<[Z.to_nat pos := true]> bf)).
Proof.
  intros Hri Hret Hin pos sum.
  pose proof (entry_pos_range k table_index entry) as Hp.
  pose proof (entry_offset_range k table_index entry) as Ho.
  assert (0 ≤ sum ≤ pos + entry_offset k table_index entry) as Hs.
  { split; [apply wrap64_range | apply wrap64_le; lia]. }
  assert (pass1_entry k table_index cur read_index entry bf
          = (bf1 <- bitfield_set bf pos ;; bitfield_set bf1 sum)) as ->.
  { unfold pass1_entry, sum, pos, entry_pos, entry_offset.
    destruct (table_index =? 7) eqn:E7; simpl; [done|].
    destruct Hret as [?|Hret]; [lia|].
    by rewrite (bitfield_get_Done _ _ true). }
  rewrite bitfield_set_Done by lia. simpl.
  rewrite bitfield_set_Done; [done|]. rewrite length_insert. lia.
Qed.

Lemma pass1_entry_dropped k table_index cur read_index entry bf :
  0 ≤ read_index →
  cur !! Z.to_nat read_index = Some false → table_index ≠ 7 →
  pass1_entry k table_index cur read_index entry bf = Done bf.
Proof.
  intros Hri Hcur H7. unfold pass1_entry.
  destruct (table_index =? 7) eqn:E7; [lia|]. simpl.
  by rewrite (bitfield_get_Done _ _ false).
Qed.

(** What the entries [read_index .. read_index + n) add to the set. *)
Lemma scan1_inv k table_index entry_size cur disk (n : nat) read_index bf bf' :
  0 ≤ read_index →
  scan1 k table_index entry_size cur disk n read_index bf = Done bf' →
  length bf' = length bf
  ∧ (∀ j, read_index ≤ j < read_index + Z.of_nat n →
       retained table_index cur j →
       in_bounds k table_index entry_size disk (Z.of_nat (length bf)) j
       ∨ 2 ^ 64 ≤ entry_pos k table_index (disk_entry disk entry_size j)
                   + entry_offset k table_index (disk_entry disk entry_size j))
  ∧ (∀ e, 0 ≤ e →
       bf' !! Z.to_nat e = Some true ↔
       bf !! Z.to_nat e = Some true
       ∨ ∃ j, read_index ≤ j < read_index + Z.of_nat n
              ∧ retained table_index cur j
              ∧ references k table_index entry_size disk j e).
Proof.
  revert read_index bf. induction n as [|n IH]; intros read_index bf Hri; simpl.
  - intros [= <-]. split; [done|]. split; [intros; lia|].
    intros e He. split; [by left|]. intros [?|(j & ? & _)]; [done|lia].
  - intros (bf1 & H1 & H2)%obind_Done_inv.
    apply IH in H2 as (Hlen & Hin & Hiff); [|lia].
    apply pass1_entry_inv in H1 as [(Hret & Hpos & Hsum & ->)|[Hnot ->]].
    + rewrite !length_insert in *. split; [done|]. split.
      * intros j Hj Hretj. destruct (decide (j = read_index)) as [->|Hne].
        -- unfold in_bounds.
           pose proof (entry_pos_range k table_index
                         (disk_entry disk entry_size read_index)).
           pose proof (entry_offset_range k table_index
                         (disk_entry disk entry_size read_index)).
           destruct (Z.lt_ge_cases
                       (entry_pos k table_index (disk_entry disk entry_size read_index)
                        + entry_offset k table_index (disk_entry disk entry_size read_index))
                       (2 ^ 64)); [left|by right].
           rewrite wrap64_small in Hsum by lia. lia.
        -- apply Hin; [lia|done].
      * intros e He. rewrite Hiff by done.
        rewrite !lookup_set_true by (rewrite ?length_insert; lia).
        split.
        -- intros [[Heq|[Heq|?]]|(j & ? & ? & ?)].
           ++ right. exists read_index. split; [lia|]. split; [done|].
              right. lia.
           ++ right. exists read_index. split; [lia|]. split; [done|].
              left. lia.
           ++ by left.
           ++ right. exists j. split; [lia|done].
        -- intros [?|(j & Hj & Hretj & Href)]; [auto|].
           destruct (decide (j = read_index)) as [->|Hne].
           ++ left. destruct Href as [<-|<-]; auto.
           ++ right. exists j. split; [lia|done].
    + split; [done|]. split.
      * intros j Hj Hretj. destruct (decide (j = read_index)) as [->|Hne];
          [done|]. apply Hin; [lia|done].
      * intros e He. rewrite Hiff by done. split.
        -- intros [?|(j & ? & ? & ?)]; [by left|].
           right. exists j. split; [lia|done].
        -- intros [?|(j & Hj & Hretj & Href)]; [by left|].
           destruct (decide (j = read_index)) as [->|Hne]; [done|].
           right. exists j. split; [lia|done].
Qed.

(** *** Totality and faults of the first scan *)

Lemma scan1_total k table_index entry_size cur disk (n : nat) read_index bf :
  0 ≤ read_index →
  (table_index ≠ 7 → read_index + Z.of_nat n ≤ Z.of_nat (length cur)) →
  (∀ j, read_index ≤ j < read_index + Z.of_nat n →
     retained table_index cur j →
     in_bounds k table_index entry_size disk (Z.of_nat (length bf)) j) →
  ∃ bf', scan1 k table_index entry_size cur disk n read_index bf = Done bf'.
Proof.
  revert read_index bf. induction n as [|n IH]; intros read_index bf Hri Hcur Hin;
    simpl; [eauto|].
  assert (∃ bf1, pass1_entry k table_index cur read_index
                   (disk_entry disk entry_size read_index) bf = Done bf1
                 ∧ length bf1 = length bf) as (bf1 & -> & Hlen).
  { destruct (decide (table_index = 7)) as [H7|H7].
    - eexists. split.
      + apply pass1_entry_retained; [done|by left|]. apply Hin; [lia|by left].
      + by rewrite !length_insert.
    - destruct (lookup_lt_is_Some_2 cur (Z.to_nat read_index)) as [b Hb];
        [specialize (Hcur H7); lia|].
      destruct b.
      + eexists. split.
        * apply pass1_entry_retained; [done|by right|]. apply Hin; [lia|by right].
        * by rewrite !length_insert.
      + exists bf. split; [|done]. by apply pass1_entry_dropped. }
  simpl. apply IH; [lia|intros; specialize (Hcur ltac:(done)); lia|].
  rewrite Hlen. intros j Hj. apply Hin. lia.
Qed.

Lemma pass1_entry_fault k table_index cur read_index entry bf f :
  pass1_entry k table_index cur read_index entry bf = Fault f → f = OutOfBounds.
Proof.
  assert (∀ (b : bitfield) i g, bitfield_set b i = Fault g → g = OutOfBounds) as Hset.
  { intros b i g. unfold bitfield_set. destruct (_ && _); congruence. }
  assert (∀ (b : bitfield) i g, bitfield_get b i = Fault g → g = OutOfBounds) as Hget.
  { intros b i g. unfold bitfield_get.
    destruct (0 <=? i); [destruct (b !! _)|]; congruence. }
  unfold pass1_entry. destruct (table_index =? 7); simpl.
  - destruct (bitfield_set bf _) eqn:E1; simpl; [|by intros [= <-]; eauto|done].
    apply Hset.
  - destruct (bitfield_get cur read_index) as [[]| |] eqn:E; simpl;
      [| |by intros [= <-]; eauto|done]; [|done].
    destruct (bitfield_set bf _) eqn:E1; simpl; [|by intros [= <-]; eauto|done].
    apply Hset.
Qed.

Lemma pass1_entry_fuel k table_index cur read_index entry bf :
  pass1_entry k table_index cur read_index entry bf ≠ OutOfFuel.
Proof.
  assert (∀ (b : bitfield) i, bitfield_set b i ≠ OutOfFuel) as Hset.
  { intros b i. unfold bitfield_set. by destruct (_ && _). }
  unfold pass1_entry. destruct (table_index =? 7); simpl.
  - destruct (bitfield_set bf _) eqn:E1; simpl; [apply Hset|done|]. by apply Hset in E1.
  - unfold bitfield_get. destruct (0 <=? read_index); [|done].
    destruct (cur !! _) as [[]|]; simpl; [|done..].
    destruct (bitfield_set bf _) eqn:E1; simpl; [apply Hset|done|]. by apply Hset in E1.
Qed.

Lemma scan1_fault k table_index entry_size cur disk (n : nat) read_index bf f :
  scan1 k table_index entry_size cur disk n read_index bf = Fault f →
  f = OutOfBounds.
Proof.
  revert read_index bf. induction n as [|n IH]; intros read_index bf; simpl; [done|].
  destruct (pass1_entry _ _ _ _ _ _) eqn:E; simpl.
  - apply IH.
  - intros [= <-]. by apply pass1_entry_fault in E.
  - done.
Qed.

Lemma scan1_fuel k table_index entry_size cur disk (n : nat) read_index bf :
  scan1 k table_index entry_size cur disk n read_index bf ≠ OutOfFuel.
Proof.
  revert read_index bf. induction n as [|n IH]; intros read_index bf; simpl; [done|].
  destruct (pass1_entry _ _ _ _ _ _) eqn:E; simpl; [apply IH|done|].
  by apply pass1_entry_fuel in E.
Qed.

(** *** Buffers and files under a store *)

Lemma ByteAlign_spec n :
  n ≤ Util.ByteAlign n < n + 8 ∧ Util.ByteAlign n mod 8 = 0.
Proof. unfold Util.ByteAlign. split; [|]; Z.div_mod_to_equations; lia. Qed.

Lemma length_buffer_store (buffer : list byte) i bytes :
  0 ≤ i → i + Z.of_nat (length bytes) ≤ Z.of_nat (length buffer) →
  length (buffer_store buffer i bytes) = length buffer.
Proof.
  intros. unfold buffer_store.
  rewrite !length_app, length_take, length_drop. lia.
Qed.

(** A store leaves what lies behind it untouched. *)
Lemma buffer_entry_store_after (buffer : list byte) i bytes i' entry_size :
  0 ≤ i → i + Z.of_nat (length bytes) ≤ Z.of_nat (length buffer) →
  i + Z.of_nat (length bytes) ≤ i' →
  buffer_entry (buffer_store buffer i bytes) i' entry_size
  = buffer_entry buffer i' entry_size.
Proof.
  intros. unfold buffer_entry, buffer_store. f_equal.
  rewrite drop_app_ge by (rewrite length_take; lia).
  rewrite drop_app_ge by (rewrite length_take; lia).
  rewrite drop_drop. f_equal. rewrite length_take. lia.
Qed.

(** The entry a store lands in: the stored bytes, then the rest of the old
    entry. *)
Lemma buffer_entry_store_same (buffer : list byte) i bytes entry_size :
  0 ≤ i → i + entry_size ≤ Z.of_nat (length buffer) →
  Z.of_nat (length bytes) ≤ entry_size →
  buffer_entry (buffer_store buffer i bytes) i entry_size
  = bytes ++ drop (length bytes) (buffer_entry buffer i entry_size).
Proof.
  intros. unfold buffer_entry, buffer_store.
  rewrite drop_app_ge by (rewrite length_take; lia).
  rewrite length_take.
  replace (Z.to_nat i - Z.to_nat i `min` length buffer)%nat with 0%nat by lia.
  rewrite drop_0, take_app_ge by lia. f_equal.
  by rewrite skipn_firstn_comm, drop_drop.
Qed.

Lemma Write_store (d : FileDisk.t) begin data :
  0 ≤ begin ≤ Z.of_nat (length d) →
  FileDisk.Write d begin data = buffer_store d begin data.
Proof.
  intros. unfold FileDisk.Write, buffer_store.
  replace (Z.to_nat begin - length d)%nat with 0%nat by lia.
  simpl. by rewrite app_nil_r.
Qed.

(** *** The second scan, entry by entry *)

Lemma pass2_entry_unfold k table_index entry_size cur next i read_index st :
  pass2_entry k table_index entry_size cur next i read_index st
  = (fields <- pass2_fields k table_index cur read_index
                 (buffer_entry (p2_buffer st) i entry_size) ;;
     match fields with
     | None => Done st
     | Some (entry_f7, entry_pos, entry_offset) =>
         '(entry_pos, entry_offset) <-
           bitfield_index.lookup next entry_pos entry_offset ;;
         if table_index =? 7 then
           let buffer :=
             buffer_store (p2_buffer st) i
               (Bits.ToBytes (new_entry7 k entry_f7 entry_pos entry_offset)) in
           Done (mkPass2 buffer
                   (FileDisk.Write (p2_disk st) (read_index * entry_size)
                      (buffer_entry buffer i entry_size))
                   (p2_sort_manager st) (p2_write_counter st + 1))
         else if negb ((k + 1) + k + kOffsetSize <=? entry_size * 8)
         then Fault AssertionFailed
         else
           Done (mkPass2 (p2_buffer st) (p2_disk st)
                   (SortManager.AddToCache (p2_sort_manager st)
                      (new_entry k entry_size (p2_write_counter st)
                         entry_pos entry_offset))
                   (p2_write_counter st + 1))
     end).
Proof.
  unfold pass2_entry, pass2_fields. destruct (table_index =? 7); reflexivity.
Qed.

Lemma buffer_entry_idemp (buffer : list byte) i entry_size :
  buffer_entry (buffer_entry buffer i entry_size) 0 entry_size
  = buffer_entry buffer i entry_size.
Proof. unfold buffer_entry. by rewrite drop_0, take_take, Nat.min_id. Qed.

Lemma length_IntToBytes (n : nat) v : length (IntToBytes n v) = n.
Proof.
  revert v. induction n as [|n IH]; intros v; simpl; [done|].
  rewrite length_app, IH. simpl. lia.
Qed.

Lemma length_ToBytes (b : Bits.t) :
  length (Bits.ToBytes b) = Z.to_nat (Util.ByteAlign (Bits.size b) / 8).
Proof. apply length_IntToBytes. Qed.

Lemma length_ToBytes_new_entry7 k entry_size f7 pos off :
  0 < entry_size → fits7 k entry_size →
  Z.of_nat (length (Bits.ToBytes (new_entry7 k f7 pos off))) ≤ entry_size.
Proof.
  unfold fits7. intros Hes Hfit. rewrite length_ToBytes. simpl.
  rewrite Z.add_0_l.
  pose proof (ByteAlign_spec (k + k + kOffsetSize)) as [H1 H2].
  destruct (Z.le_gt_cases 0 (Util.ByteAlign (k + k + kOffsetSize) / 8));
    [|lia].
  rewrite Z2Nat.id by done. Z.div_mod_to_equations. lia.
Qed.

(** One step of the second scan on an entry inside a chunk does to the
    file, the sort stage and the counter what it does on that entry alone,
    and leaves the later entries of the chunk and of the file alone. *)
Lemma pass2_entry_chunk k table_index entry_size cur next
    (buffer : list byte) d sm wc i read_index :
  0 < entry_size → 0 ≤ i → i + entry_size ≤ Z.of_nat (length buffer) →
  0 ≤ read_index → (read_index + 1) * entry_size ≤ Z.of_nat (length d) →
  (table_index = 7 → fits7 k entry_size) →
  match pass2_entry k table_index entry_size cur next 0 read_index
          (mkPass2 (buffer_entry buffer i entry_size) d sm wc) with
  | Done s1 =>
      ∃ buffer',
        pass2_entry k table_index entry_size cur next i read_index
          (mkPass2 buffer d sm wc)
        = Done (mkPass2 buffer' (p2_disk s1) (p2_sort_manager s1)
                  (p2_write_counter s1))
        ∧ length buffer' = length buffer
        ∧ (∀ i', i + entry_size ≤ i' →
             buffer_entry buffer' i' entry_size
             = buffer_entry buffer i' entry_size)
        ∧ length (p2_disk s1) = length d
        ∧ (∀ j, read_index < j →
             disk_entry (p2_disk s1) entry_size j = disk_entry d entry_size j)
  | Fault f =>
      pass2_entry k table_index entry_size cur next i read_index
        (mkPass2 buffer d sm wc) = Fault f
  | OutOfFuel =>
      pass2_entry k table_index entry_size cur next i read_index
        (mkPass2 buffer d sm wc) = OutOfFuel
  end.
Proof.
  intros Hes Hi Hlen Hri Hd Hfit. rewrite !pass2_entry_unfold. simpl.
  rewrite buffer_entry_idemp.
  destruct (pass2_fields _ _ _ _ _) as [[[[f7 pos] off]|]| |]; simpl; [| |done..].
  - destruct (bitfield_index.lookup next pos off) as [[pos' off']| |]; simpl;
      [|done..].
    destruct (table_index =? 7) eqn:E7.
    + assert (table_index = 7) as H7 by lia. specialize (Hfit H7).
      pose proof (length_ToBytes_new_entry7 k entry_size f7 pos' off' Hes Hfit) as Hb.
      pose proof (length_buffer_entry buffer i entry_size Hi ltac:(lia) Hlen) as He.
      rewrite (buffer_entry_store_same buffer) by lia.
      rewrite (buffer_entry_store_same (buffer_entry buffer i entry_size))
        by lia.
      rewrite buffer_entry_idemp.
      eexists. split; [reflexivity|]. simpl.
      split; [apply length_buffer_store; lia|].
      split; [intros; apply buffer_entry_store_after; lia|].
      assert (length (Bits.ToBytes (new_entry7 k f7 pos' off')
                      ++ drop (length (Bits.ToBytes (new_entry7 k f7 pos' off')))
                           (buffer_entry buffer i entry_size))
              = Z.to_nat entry_size) as Hl.
      { rewrite length_app, length_drop. lia. }
      rewrite Write_store by nia. split.
      * apply length_buffer_store; nia.
      * intros j Hj. apply buffer_entry_store_after; nia.
    + destruct (negb _); [done|]. eexists. split; [reflexivity|]. simpl. done.
  - eexists. split; [reflexivity|]. simpl. done.
Qed.

Lemma scan2_forget k table_index entry_size cur next (n : nat) read_index a b :
  p2_forget a = p2_forget b →
  scan2 k table_index entry_size cur next n read_index a
  = scan2 k table_index entry_size cur next n read_index b.
Proof.
  destruct a, b. unfold p2_forget. simpl. intros [= -> -> ->].
  destruct n; reflexivity.
Qed.

Lemma pass2_while_forget k table_index entry_size cur next table_size rbs
    (fuel : nat) read_index read_cursor st :
  outcome_map p2_forget
    (pass2_while fuel k table_index entry_size cur next table_size rbs
       read_index read_cursor st)
  = outcome_map p2_forget
      (pass2_while fuel k table_index entry_size cur next table_size rbs
         read_index read_cursor (p2_forget st)).
Proof. destruct fuel; simpl; by destruct (_ <? _). Qed.

Lemma scan2_app k table_index entry_size cur next (n m : nat) read_index st :
  scan2 k table_index entry_size cur next (n + m) read_index st
  = (st' <- scan2 k table_index entry_size cur next n read_index st ;;
     scan2 k table_index entry_size cur next m (read_index + Z.of_nat n) st').
Proof.
  revert read_index st. induction n as [|n IH]; intros read_index st; simpl.
  - rewrite Z.add_0_r. by apply scan2_forget.
  - rewrite obind_assoc. apply obind_ext. intros st' _.
    rewrite IH. do 2 f_equal. lia.
Qed.

(** The scan keeps the length of the file. *)
Lemma scan2_length k table_index entry_size cur next (n : nat) read_index st st' :
  0 < entry_size → 0 ≤ read_index →
  (read_index + Z.of_nat n) * entry_size ≤ Z.of_nat (length (p2_disk st)) →
  (table_index = 7 → fits7 k entry_size) →
  scan2 k table_index entry_size cur next n read_index st = Done st' →
  length (p2_disk st') = length (p2_disk st).
Proof.
  intros Hes. revert read_index st.
  induction n as [|n IH]; intros read_index st Hri Hlen Hfit; simpl.
  - by intros [= <-].
  - intros (s1 & H1 & H2)%obind_Done_inv.
    pose proof (pass2_entry_chunk k table_index entry_size cur next
                  (p2_disk st) (p2_disk st) (p2_sort_manager st)
                  (p2_write_counter st) (read_index * entry_size) read_index
                  Hes ltac:(nia) ltac:(nia) Hri ltac:(nia) Hfit) as Hc.
    unfold disk_entry in H1. rewrite H1 in Hc.
    destruct Hc as (_ & _ & _ & _ & Hl & _).
    apply IH in H2; [|lia| |done]; [congruence|]. rewrite Hl. nia.
Qed.

(** *** The second scan does not depend on the chunking *)

Lemma pass2_for_scan k table_index entry_size cur next
    (n : nat) (i read_index : Z) st :
  0 < entry_size → 0 ≤ i →
  i + Z.of_nat n * entry_size ≤ Z.of_nat (length (p2_buffer st)) →
  0 ≤ read_index →
  (read_index + Z.of_nat n) * entry_size ≤ Z.of_nat (length (p2_disk st)) →
  (table_index = 7 → fits7 k entry_size) →
  (∀ j, 0 ≤ j < Z.of_nat n →
     buffer_entry (p2_buffer st) (i + j * entry_size) entry_size
     = disk_entry (p2_disk st) entry_size (read_index + j)) →
  ('(read_index', st') <-
     pass2_for k table_index entry_size cur next n i read_index st ;;
   Done (read_index', p2_forget st'))
  = (st' <- scan2 k table_index entry_size cur next n read_index st ;;
     Done (read_index + Z.of_nat n, st')).
Proof.
  intros Hes. revert i read_index st.
  induction n as [|n IH]; intros i read_index [buffer d sm wc];
    simpl; intros Hi Hbuf Hri Hd Hfit Hagree.
  - by rewrite Z.add_0_r.
  - pose proof (pass2_entry_chunk k table_index entry_size cur next buffer d
                  sm wc i read_index Hes Hi ltac:(nia) Hri ltac:(nia) Hfit)
      as Hc.
    assert (disk_entry d entry_size read_index
            = buffer_entry buffer i entry_size) as ->.
    { rewrite <- (Z.add_0_r read_index), <- (Hagree 0) by lia.
      f_equal. lia. }
    destruct (pass2_entry k table_index entry_size cur next 0 read_index _)
      as [s1| |]; [|by rewrite Hc..].
    destruct Hc as (buffer' & -> & Hlb & Hfb & Hld & Hfd). simpl.
    rewrite IH; simpl; [| lia | lia | lia | rewrite Hld; lia | done |].
    + rewrite (scan2_forget _ _ _ _ _ _ _ _ s1) by (by destruct s1).
      apply obind_ext. intros st' _. do 2 f_equal. lia.
    + intros j Hj. rewrite Hfb by nia. rewrite Hfd by lia.
      replace (i + entry_size + j * entry_size)
        with (i + (j + 1) * entry_size) by lia.
      rewrite Hagree by lia. f_equal. lia.
Qed.

Lemma pass2_while_scan k table_index entry_size cur next table_size rbs
    (fuel : nat) (read_index : Z) st :
  0 < entry_size → entry_size ≤ rbs → rbs mod entry_size = 0 →
  table_size * entry_size ≤ Z.of_nat (length (p2_disk st)) →
  (table_index = 7 → fits7 k entry_size) →
  0 ≤ read_index → table_size - read_index ≤ Z.of_nat fuel →
  outcome_map p2_forget
    (pass2_while fuel k table_index entry_size cur next table_size rbs
       read_index (read_index * entry_size) st)
  = scan2 k table_index entry_size cur next
      (Z.to_nat (table_size - read_index)) read_index st.
Proof.
  intros Hes Hrbs Hmod Hlen Hfit. revert read_index st Hlen.
  induction fuel as [|fuel IH]; intros read_index st Hlen Hri Hfuel.
  - simpl. destruct (read_index <? table_size) eqn:E; [lia|].
    replace (Z.to_nat (table_size - read_index)) with O by lia. done.
  - simpl. destruct (read_index <? table_size) eqn:E.
    + destruct (to_read_entries table_size entry_size rbs read_index)
        as (m & Hm & Hle & ->); [lia..|].
      rewrite Read_Done by nia.
      rewrite for_count_mul by lia. simpl.
      replace (Z.to_nat (table_size - read_index))
        with (Z.to_nat m + Z.to_nat (table_size - (read_index + m)))%nat by lia.
      rewrite scan2_app.
      set (st2 := mkPass2 _ (p2_disk st) (p2_sort_manager st)
                    (p2_write_counter st)).
      rewrite (scan2_forget _ _ _ _ _ _ _ st st2) by done.
      assert (Z.of_nat (length (p2_buffer st2)) = m * entry_size) as Hl2.
      { simpl. rewrite length_take, length_drop. nia. }
      pose proof (pass2_for_scan k table_index entry_size cur next (Z.to_nat m)
                    0 read_index st2 Hes ltac:(lia) ltac:(lia) Hri
                    ltac:(simpl; nia) Hfit) as Hfor.
      rewrite Z2Nat.id in Hfor by lia.
      assert (∀ j, 0 ≤ j < m →
                buffer_entry (p2_buffer st2) (0 + j * entry_size) entry_size
                = disk_entry (p2_disk st2) entry_size (read_index + j)) as Hag.
      { intros j Hj. simpl. rewrite chunk_entry by nia.
        unfold disk_entry. f_equal. lia. }
      specialize (Hfor Hag).
      destruct (scan2 k table_index entry_size cur next (Z.to_nat m)
                  read_index st2) as [s'| |] eqn:Hscan; simpl in *.
      * destruct (pass2_for _ _ _ _ _ _ _ _ _) as [[ri' st']| |];
          simpl in Hfor; [|done..]. injection Hfor as -> <-. simpl.
        rewrite pass2_while_forget.
        replace (read_index * entry_size + m * entry_size)
          with ((read_index + m) * entry_size) by lia.
        rewrite Z2Nat.id by lia. rewrite IH; [| |lia..].
        -- apply scan2_forget. by destruct st'.
        -- simpl. apply scan2_length in Hscan; [|done|done|simpl; nia|done].
           simpl in Hscan. rewrite Hscan. simpl. done.
      * destruct (pass2_for _ _ _ _ _ _ _ _ _) as [[ri' st']| |];
          simpl in Hfor; [done| |done]. by injection Hfor as ->.
      * destruct (pass2_for _ _ _ _ _ _ _ _ _) as [[ri' st']| |];
          simpl in Hfor; done.
    + replace (Z.to_nat (table_size - read_index)) with O by lia. done.
Qed.

(** *** The first scan as a fold over the kept entries *)

Lemma kept_from_cons_retained table_index cur read_index n :
  0 < n → retained table_index cur read_index →
  kept_from table_index cur read_index n
  = read_index :: kept_from table_index cur (read_index + 1) (n - 1).
Proof.
  intros Hn Hret. unfold kept_from. rewrite seqZ_cons by done.
  rewrite filter_cons_True by done. do 2 f_equal.
Qed.

Lemma kept_from_cons_dropped table_index cur read_index n :
  0 < n → ¬ retained table_index cur read_index →
  kept_from table_index cur read_index n
  = kept_from table_index cur (read_index + 1) (n - 1).
Proof.
  intros Hn Hret. unfold kept_from. rewrite seqZ_cons by done.
  rewrite filter_cons_False by done. f_equal.
Qed.

Lemma kept_from_nil table_index cur read_index n :
  n ≤ 0 → kept_from table_index cur read_index n = [].
Proof. intros. unfold kept_from. by rewrite seqZ_nil. Qed.

Lemma elem_of_kept_from table_index cur read_index n j :
  j ∈ kept_from table_index cur read_index n
  ↔ read_index ≤ j < read_index + n ∧ retained table_index cur j.
Proof.
  unfold kept_from. rewrite list_elem_of_filter, elem_of_seqZ. tauto.
Qed.

Lemma length_kept_from table_index cur read_index n :
  0 ≤ n → Z.of_nat (length (kept_from table_index cur read_index n)) ≤ n.
Proof.
  intros. unfold kept_from.
  pose proof (length_filter (retained table_index cur) (seqZ read_index n)).
  rewrite length_seqZ in *. lia.
Qed.

Lemma pass1_entry_kept k table_index entry_size cur disk read_index bf :
  0 ≤ read_index →
  (table_index ≠ 7 → read_index < Z.of_nat (length cur)) →
  pass1_entry k table_index cur read_index
    (disk_entry disk entry_size read_index) bf
  = if decide (retained table_index cur read_index)
    then mark_references k table_index entry_size disk bf read_index
    else Done bf.
Proof.
  intros Hri Hcur. unfold pass1_entry, mark_references, entry_pos, entry_offset.
  destruct (decide _) as [Hret|Hret]; unfold retained in Hret.
  - destruct (table_index =? 7) eqn:E7; simpl; [done|].
    destruct Hret as [?|Hret]; [lia|].
    by rewrite (bitfield_get_Done _ _ true).
  - destruct (table_index =? 7) eqn:E7; simpl; [exfalso; apply Hret; left; lia|].
    destruct (lookup_lt_is_Some_2 cur (Z.to_nat read_index)) as [b Hb];
      [specialize (Hcur ltac:(lia)); lia|].
    rewrite (bitfield_get_Done _ _ b) by done.
    destruct b; [exfalso; apply Hret; by right|done].
Qed.

Lemma scan1_kept k table_index entry_size cur disk (n : nat) read_index bf :
  0 ≤ read_index →
  (table_index ≠ 7 → read_index + Z.of_nat n ≤ Z.of_nat (length cur)) →
  scan1 k table_index entry_size cur disk n read_index bf
  = ofold (mark_references k table_index entry_size disk)
      (kept_from table_index cur read_index (Z.of_nat n)) bf.
Proof.
  revert read_index bf. induction n as [|n IH]; intros read_index bf Hri Hcur.
  - by rewrite kept_from_nil.
  - cbn [scan1]. rewrite pass1_entry_kept by (try done; intros ?%Hcur; lia).
    destruct (decide _) as [Hret|Hret].
    + rewrite kept_from_cons_retained by (done || lia). cbn [ofold].
      apply obind_ext. intros bf' _.
      replace (Z.of_nat (S n) - 1) with (Z.of_nat n) by lia.
      apply IH; [lia|intros ?%Hcur; lia].
    + rewrite kept_from_cons_dropped by (done || lia). simpl.
      replace (Z.of_nat (S n) - 1) with (Z.of_nat n) by lia.
      apply IH; [lia|intros ?%Hcur; lia].
Qed.

(** *** What the second scan does to tables 2 to 6 *)

Lemma disk_entry_idemp (d : FileDisk.t) entry_size j :
  buffer_entry (disk_entry d entry_size j) 0 entry_size
  = disk_entry d entry_size j.
Proof. apply buffer_entry_idemp. Qed.

Lemma lookup_marked (next : bitfield) pos offset :
  0 ≤ pos →
  next !! Z.to_nat pos = Some true →
  next !! Z.to_nat (wrap64 (pos + offset)) = Some true →
  bitfield_index.lookup next pos offset
  = Done (bitfield_index.rank next pos,
          bitfield_index.rank next (wrap64 (pos + offset))
          - bitfield_index.rank next pos).
Proof.
  intros Hpos H1 H2. unfold bitfield_index.lookup.
  rewrite (bitfield_get_Done _ _ true) by done. simpl.
  rewrite (bitfield_get_Done _ _ true); [done| |done]. apply wrap64_range.
Qed.

Lemma with_cache_nil sm : with_cache sm [] = sm.
Proof. destruct sm. unfold with_cache. simpl. by rewrite app_nil_r. Qed.

Lemma with_cache_app sm l1 l2 :
  with_cache (with_cache sm l1) l2 = with_cache sm (l1 ++ l2).
Proof. unfold with_cache. simpl. by rewrite app_assoc. Qed.

Lemma scan2_other k table_index entry_size cur next (n : nat) read_index st :
  table_index ≠ 7 → 0 ≤ read_index →
  read_index + Z.of_nat n ≤ Z.of_nat (length cur) →
  assertion_holds k entry_size →
  (∀ j, read_index ≤ j < read_index + Z.of_nat n →
     retained table_index cur j →
     marked k table_index entry_size (p2_disk st) next j) →
  scan2 k table_index entry_size cur next n read_index st
  = Done (mkPass2 [] (p2_disk st)
            (with_cache (p2_sort_manager st)
               (emitted k table_index entry_size (p2_disk st) next
                  (p2_write_counter st)
                  (kept_from table_index cur read_index (Z.of_nat n))))
            (p2_write_counter st
             + Z.of_nat (length (kept_from table_index cur read_index
                                   (Z.of_nat n))))).
Proof.
  intros H7 Hri Hcur Hassert. revert read_index st Hri Hcur.
  induction n as [|n IH]; intros read_index [buffer d sm wc] Hri Hcur Hmarked;
    cbn [scan2 p2_disk p2_sort_manager p2_write_counter p2_buffer] in *.
  - rewrite kept_from_nil by done. cbn [emitted length].
    by rewrite with_cache_nil, Z.add_0_r.
  - rewrite pass2_entry_unfold.
    cbn [p2_disk p2_sort_manager p2_write_counter p2_buffer].
    rewrite disk_entry_idemp.
    unfold pass2_fields. destruct (table_index =? 7) eqn:E7; [lia|].
    destruct (lookup_lt_is_Some_2 cur (Z.to_nat read_index)) as [b Hb]; [lia|].
    rewrite (bitfield_get_Done _ _ b) by done. cbn [obind].
    destruct b; cbn [negb obind].
    + assert (retained table_index cur read_index) as Hret by (by right).
      destruct (Hmarked read_index ltac:(lia) Hret) as [Hm1 Hm2].
      unfold entry_pos, entry_offset in Hm1, Hm2. rewrite E7 in Hm1, Hm2.
      rewrite lookup_marked by (done || apply SliceInt64FromBytes_range).
      cbn [obind]. unfold assertion_holds in Hassert.
      destruct (_ <=? _) eqn:Ea; [|lia]. cbn [negb obind].
      rewrite IH;
        cbn [p2_disk p2_sort_manager p2_write_counter p2_buffer];
        [|lia|lia|intros; apply Hmarked; (lia || done)].
      rewrite (kept_from_cons_retained _ _ _ (Z.of_nat (S n)))
        by (done || lia).
      replace (Z.of_nat (S n) - 1) with (Z.of_nat n) by lia.
      cbn [emitted length]. f_equal. f_equal.
      * unfold SortManager.AddToCache, with_cache. simpl.
        rewrite <- app_assoc. simpl. do 3 f_equal.
        unfold sorted_entry, remapped, entry_pos, entry_offset.
        by rewrite E7.
      * lia.
    + assert (¬ retained table_index cur read_index) as Hret.
      { intros [?|?]; [done|congruence]. }
      rewrite IH;
        cbn [p2_disk p2_sort_manager p2_write_counter p2_buffer];
        [|lia|lia|intros; apply Hmarked; (lia || done)].
      rewrite (kept_from_cons_dropped _ _ _ (Z.of_nat (S n)))
        by (done || lia).
      by replace (Z.of_nat (S n) - 1) with (Z.of_nat n) by lia.
Qed.

(** *** What the second scan does to table 7 *)

Lemma length_disk_entry (d : FileDisk.t) entry_size j :
  0 ≤ j → 0 ≤ entry_size → (j + 1) * entry_size ≤ Z.of_nat (length d) →
  Z.of_nat (length (disk_entry d entry_size j)) = entry_size.
Proof. intros. apply length_buffer_entry; nia. Qed.

Lemma length_rewritten7 k next entry entry_size :
  0 < entry_size → fits7 k entry_size →
  Z.of_nat (length entry) = entry_size →
  Z.of_nat (length (rewritten7 k next entry)) = entry_size.
Proof.
  intros Hes Hfit Hlen. unfold rewritten7.
  rewrite length_app, length_drop.
  pose proof (length_ToBytes_new_entry7 k entry_size
    (Util.SliceInt64FromBytes entry 0 k)
    (bitfield_index.rank next (entry_pos k 7 entry))
    (bitfield_index.rank next
       (wrap64 (entry_pos k 7 entry + entry_offset k 7 entry))
     - bitfield_index.rank next (entry_pos k 7 entry)) Hes Hfit).
  lia.
Qed.

(** Table 7, one entry: the entry is rewritten where it stands. *)
Lemma pass2_entry_7 k entry_size cur next d sm wc read_index :
  0 < entry_size → fits7 k entry_size → 0 ≤ read_index →
  (read_index + 1) * entry_size ≤ Z.of_nat (length d) →
  marked k 7 entry_size d next read_index →
  ∃ buffer,
    pass2_entry k 7 entry_size cur next 0 read_index
      (mkPass2 (disk_entry d entry_size read_index) d sm wc)
    = Done (mkPass2 buffer
              (buffer_store d (read_index * entry_size)
                 (rewritten7 k next (disk_entry d entry_size read_index)))
              sm (wc + 1)).
Proof.
  intros Hes Hfit Hri Hlen [Hm1 Hm2].
  rewrite pass2_entry_unfold.
  cbn [p2_disk p2_sort_manager p2_write_counter p2_buffer].
  rewrite disk_entry_idemp. unfold pass2_fields.
  change (7 =? 7) with true. cbn [obind].
  unfold entry_pos, entry_offset in Hm1, Hm2. change (7 =? 7) with true in *.
  rewrite lookup_marked by (done || apply SliceInt64FromBytes_range).
  cbn [obind]. eexists. do 2 f_equal.
  rewrite Write_store by nia. f_equal.
  pose proof (length_disk_entry d entry_size read_index Hri ltac:(lia) Hlen).
  rewrite buffer_entry_store_same;
    [|lia|lia|by apply length_ToBytes_new_entry7].
  rewrite disk_entry_idemp. unfold rewritten7, entry_pos, entry_offset.
  by change (7 =? 7) with true.
Qed.

Lemma disk_entries_cons d entry_size read_index n :
  0 < n →
  disk_entries d entry_size read_index n
  = disk_entry d entry_size read_index
    :: disk_entries d entry_size (read_index + 1) (n - 1).
Proof. intros. unfold disk_entries. by rewrite seqZ_cons. Qed.

Lemma disk_entries_store_after (d : FileDisk.t) entry_size i bytes read_index n :
  0 ≤ i → 0 ≤ entry_size →
  i + Z.of_nat (length bytes) ≤ Z.of_nat (length d) →
  i + Z.of_nat (length bytes) ≤ read_index * entry_size →
  disk_entries (buffer_store d i bytes) entry_size read_index n
  = disk_entries d entry_size read_index n.
Proof.
  intros Hi Hes Hlen Hle. unfold disk_entries. apply list_fmap_ext.
  intros ? j [-> ?]%lookup_seqZ. unfold disk_entry.
  apply buffer_entry_store_after; nia.
Qed.

Lemma take_buffer_store (d : list byte) i bytes :
  0 ≤ i → i + Z.of_nat (length bytes) ≤ Z.of_nat (length d) →
  take (Z.to_nat i + length bytes) (buffer_store d i bytes)
  = take (Z.to_nat i) d ++ bytes.
Proof.
  intros. unfold buffer_store. rewrite app_assoc.
  rewrite take_app_length'; [done|]. rewrite length_app, length_take. lia.
Qed.

Lemma drop_buffer_store_after (d : list byte) i bytes x :
  0 ≤ i → i + Z.of_nat (length bytes) ≤ Z.of_nat (length d) →
  i + Z.of_nat (length bytes) ≤ x →
  drop (Z.to_nat x) (buffer_store d i bytes) = drop (Z.to_nat x) d.
Proof.
  intros. unfold buffer_store.
  rewrite drop_app_ge by (rewrite length_take; lia).
  rewrite drop_app_ge by (rewrite length_take; lia).
  rewrite drop_drop, length_take. f_equal. lia.
Qed.

Lemma scan2_7 k entry_size cur next (n : nat) read_index st :
  0 < entry_size → fits7 k entry_size → 0 ≤ read_index →
  (read_index + Z.of_nat n) * entry_size ≤ Z.of_nat (length (p2_disk st)) →
  (∀ j, read_index ≤ j < read_index + Z.of_nat n →
     marked k 7 entry_size (p2_disk st) next j) →
  scan2 k 7 entry_size cur next n read_index st
  = Done (mkPass2 []
            (take (Z.to_nat (read_index * entry_size)) (p2_disk st)
             ++ concat (rewritten7 k next
                          <$> disk_entries (p2_disk st) entry_size read_index
                                (Z.of_nat n))
             ++ drop (Z.to_nat ((read_index + Z.of_nat n) * entry_size))
                  (p2_disk st))
            (p2_sort_manager st)
            (p2_write_counter st + Z.of_nat n)).
Proof.
  intros Hes Hfit. revert read_index st.
  induction n as [|n IH]; intros read_index [buffer d sm wc] Hri Hlen Hmarked;
    cbn [scan2 p2_disk p2_sort_manager p2_write_counter p2_buffer] in *.
  - unfold disk_entries. rewrite seqZ_nil by done. simpl.
    rewrite !Z.add_0_r, take_drop. done.
  - destruct (pass2_entry_7 k entry_size cur next d sm wc read_index)
      as [buffer' ->]; [done|done|done|nia|apply Hmarked; lia|].
    cbn [obind].
    set (new := rewritten7 k next (disk_entry d entry_size read_index)).
    assert (Z.of_nat (length new) = entry_size) as Hnew.
    { apply length_rewritten7; [done..|]. apply length_disk_entry; nia. }
    assert (length (buffer_store d (read_index * entry_size) new) = length d)
      as Hl1 by (apply length_buffer_store; nia).
    rewrite IH; cbn [p2_disk p2_sort_manager p2_write_counter p2_buffer];
      [|lia|rewrite Hl1; nia|].
    + f_equal. f_equal; [|lia].
      rewrite disk_entries_store_after by nia.
      rewrite (disk_entries_cons _ _ _ (Z.of_nat (S n))) by lia.
      replace (Z.of_nat (S n) - 1) with (Z.of_nat n) by lia.
      rewrite fmap_cons. cbn [concat]. fold new.
      replace (Z.to_nat ((read_index + 1) * entry_size))
        with (Z.to_nat (read_index * entry_size) + length new)%nat by nia.
      rewrite take_buffer_store by nia.
      rewrite drop_buffer_store_after by nia.
      rewrite <- !app_assoc. do 4 f_equal. lia.
    + intros j Hj. unfold marked, disk_entry.
      rewrite buffer_entry_store_after by nia. apply Hmarked. lia.
Qed.

(** *** One iteration reduces to the scans *)

Lemma vector_get_Done {A : Type} (v : list A) (i : Z) (a : A) :
  0 ≤ i → v !! Z.to_nat i = Some a → vector_get v i = Done a.
Proof.
  intros Hi Ha. unfold vector_get. rewrite Ha.
  by destruct (0 <=? i) eqn:E; [|lia].
Qed.

Lemma vector_get_inv {A : Type} (v : list A) (i : Z) (a : A) :
  vector_get v i = Done a → 0 ≤ i ∧ v !! Z.to_nat i = Some a.
Proof.
  unfold vector_get. destruct (0 <=? i) eqn:E; [|done].
  destruct (v !! Z.to_nat i) eqn:Ha; [|done]. intros [= ->]. split; [lia|done].
Qed.

Lemma finish_table_forget table_index entry_size st next p2 :
  finish_table table_index entry_size st next (p2_forget p2)
  = finish_table table_index entry_size st next p2.
Proof. reflexivity. Qed.

Lemma obind_forget {B : Type} (m : outcome pass2_state)
    (K : pass2_state → outcome B) :
  (∀ p, K (p2_forget p) = K p) →
  obind m K = obind (outcome_map p2_forget m) K.
Proof. intros HK. destruct m; simpl; congruence. Qed.

(** With half the budget holding one entry, a table no longer than its
    file and fuel for one chunk per entry, the iteration is the one without
    chunks. *)
Lemma backpropagate_table_scan fuel table_sizes k memory_size num_buckets
    log_num_buckets table_index st :
  let entry_size := GetMaxEntrySize k table_index false in
  entry_size ≤ memory_size / 2 →
  (∀ table_size disk,
     table_sizes !! Z.to_nat table_index = Some table_size →
     tmp_1_disks st !! Z.to_nat table_index = Some disk →
     table_size * entry_size ≤ Z.of_nat (length disk)
     ∧ table_size ≤ Z.of_nat fuel) →
  (table_index = 7 → fits7 k entry_size) →
  backpropagate_table fuel table_sizes k memory_size num_buckets
    log_num_buckets table_index st
  = backpropagate_scan table_sizes k
      (memory_size - read_buffer_size memory_size entry_size)
      num_buckets log_num_buckets table_index st.
Proof.
  intros entry_size Hmem Htable Hfit.
  unfold backpropagate_table, backpropagate_scan. fold entry_size.
  apply obind_ext. intros prev_size _.
  apply obind_ext. intros table_size [_ Hts]%vector_get_inv.
  destruct (entry_size <=? 0) eqn:Ees; [done|].
  apply obind_ext. intros disk [_ Hdisk]%vector_get_inv.
  destruct (Htable table_size disk Hts Hdisk) as [Hlen Hfuel].
  pose proof (read_buffer_size_mod memory_size entry_size ltac:(lia)) as Hmod.
  pose proof (read_buffer_size_ge memory_size entry_size ltac:(lia) Hmem) as Hge.
  rewrite (pass1_while_scan _ _ _ _ _ _ _ _ 0)
    by (done || lia).
  rewrite Z.sub_0_r.
  apply obind_ext. intros next _.
  rewrite obind_forget by (intros; apply finish_table_forget).
  rewrite (pass2_while_scan _ _ _ _ _ _ _ _ 0)
    by (done || simpl; lia).
  by rewrite Z.sub_0_r.
Qed.

(** *** The phase reduces to the scans *)

Lemma finish_table_inv table_index entry_size st next p2 st' :
  finish_table table_index entry_size st next p2 = Done st' →
  current_bitfield st' = next
  ∧ (∃ d, tmp_1_disks st' = <[Z.to_nat table_index := d]> (tmp_1_disks st))
  ∧ (if table_index =? 7 then new_table_sizes st' = new_table_sizes st
     else new_table_sizes st'
          = <[Z.to_nat table_index := p2_write_counter p2]>
              (new_table_sizes st)).
Proof.
  unfold finish_table. destruct (table_index =? 7); simpl.
  - intros [= <-]. simpl. eauto.
  - intros (d & _ & [= <-])%obind_Done_inv. simpl. eauto.
Qed.

Lemma backpropagate_scan_inv table_sizes k c nb lnb table_index st st' :
  backpropagate_scan table_sizes k c nb lnb table_index st = Done st' →
  ∃ prev_size table_size disk next p2,
    let entry_size := GetMaxEntrySize k table_index false in
    1 ≤ table_index ∧ 0 < entry_size
    ∧ table_sizes !! Z.to_nat (table_index - 1) = Some prev_size
    ∧ table_sizes !! Z.to_nat table_index = Some table_size
    ∧ tmp_1_disks st !! Z.to_nat table_index = Some disk
    ∧ scan1 k table_index entry_size (current_bitfield st) disk
        (Z.to_nat table_size) 0 (replicate (Z.to_nat prev_size) false)
      = Done next
    ∧ scan2 k table_index entry_size (current_bitfield st) next
        (Z.to_nat table_size) 0
        (mkPass2 [] disk (SortManager.make c nb lnb entry_size (k + 1)) 0)
      = Done p2
    ∧ finish_table table_index entry_size st next p2 = Done st'.
Proof.
  unfold backpropagate_scan.
  intros (prev_size & [Ea1 Ea2]%vector_get_inv & E1)%obind_Done_inv.
  apply obind_Done_inv in E1 as (table_size & [Eb1 Eb2]%vector_get_inv & E2).
  destruct (_ <=? 0) eqn:E; [done|].
  apply obind_Done_inv in E2 as (disk & [Ec1 Ec2]%vector_get_inv & E3).
  apply obind_Done_inv in E3 as (next & Ed & E4).
  apply obind_Done_inv in E4 as (p2 & Ee & E5).
  exists prev_size, table_size, disk, next, p2. simpl.
  repeat split; (done || lia).
Qed.

Lemma backpropagate_scan_frame table_sizes k c nb lnb table_index st st' :
  backpropagate_scan table_sizes k c nb lnb table_index st = Done st' →
  ∀ j : nat, j ≠ Z.to_nat table_index →
    tmp_1_disks st' !! j = tmp_1_disks st !! j
    ∧ (new_table_sizes st' !! j = new_table_sizes st !! j).
Proof.
  intros (? & ? & ? & ? & p2 & _ & _ & _ & _ & _ & _ & _ & H)%backpropagate_scan_inv
    j Hj.
  apply finish_table_inv in H as (_ & [d ->] & Hs).
  rewrite list_lookup_insert_ne by done. split; [done|].
  destruct (table_index =? 7); rewrite Hs; [done|].
  by rewrite list_lookup_insert_ne.
Qed.

Lemma tables_loop_scan (n : nat) fuel disks table_sizes k memory_size nb lnb
    table_index st :
  1 ≤ table_index - Z.of_nat n →
  (∀ ti, table_index - Z.of_nat n < ti ≤ table_index →
     provisioned fuel disks table_sizes k memory_size ti
     ∧ tmp_1_disks st !! Z.to_nat ti = disks !! Z.to_nat ti
     ∧ (ti = 7 → fits7 k (GetMaxEntrySize k ti false))) →
  tables_loop n fuel table_sizes k memory_size nb lnb table_index st
  = tables_scan n table_sizes k memory_size nb lnb table_index st.
Proof.
  revert table_index st. induction n as [|n IH]; intros table_index st Hn Hprov;
    [done|].
  cbn [tables_loop tables_scan].
  destruct (Hprov table_index ltac:(lia)) as ([Hmem Hdisk] & Hsame & Hfit).
  rewrite backpropagate_table_scan; [|done| |done].
  - unfold sort_cache_size. apply obind_ext. intros st' Hst'.
    apply IH; [lia|]. intros ti Hti.
    destruct (Hprov ti ltac:(lia)) as (Hp1 & Hp2 & Hp3). split; [done|].
    split; [|done].
    pose proof (backpropagate_scan_frame _ _ _ _ _ _ _ _ Hst' (Z.to_nat ti)
                  ltac:(lia)) as [Hfr _].
    by rewrite Hfr.
  - intros table_size disk Hts Hd. apply Hdisk; [done|]. by rewrite <- Hsame.
Qed.

Lemma RunPhase2_scan_eq fuel disks table_sizes k memory_size nb lnb :
  (∀ ti, 2 ≤ ti ≤ 7 → provisioned fuel disks table_sizes k memory_size ti) →
  fits7 k (GetMaxEntrySize k 7 false) →
  RunPhase2 fuel disks table_sizes k memory_size nb lnb
  = RunPhase2_scan disks table_sizes k memory_size nb lnb.
Proof.
  intros Hprov Hfit. unfold RunPhase2, RunPhase2_scan.
  apply obind_ext. intros size7 _.
  rewrite (tables_loop_scan 6 fuel disks); [done|lia|].
  intros ti Hti. split; [apply Hprov; lia|]. split; [done|by intros ->].
Qed.

(** *** Writing the sorted entries back (lines 239-245) *)

Lemma length_concat_entries (l : list (list byte)) entry_size :
  Forall (λ e, Z.of_nat (length e) = entry_size) l →
  Z.of_nat (length (concat l)) = Z.of_nat (length l) * entry_size.
Proof.
  induction 1 as [|e l He _ IH]; simpl; [done|].
  rewrite length_app. lia.
Qed.

Lemma write_sorted_spec (n : nat) entry_size sm (i : nat) (disk : FileDisk.t) :
  0 < entry_size → SortManager.entry_size sm = entry_size →
  Forall (λ e, Z.of_nat (length e) = entry_size) (SortManager.sorted sm) →
  (i + n ≤ length (SortManager.sorted sm))%nat →
  Z.of_nat (i + n) * entry_size ≤ Z.of_nat (length disk) →
  write_sorted n entry_size sm (Z.of_nat i) disk
  = Done (take (Z.to_nat (Z.of_nat i * entry_size)) disk
          ++ concat (take n (drop i (SortManager.sorted sm)))
          ++ drop (Z.to_nat (Z.of_nat (i + n) * entry_size)) disk).
Proof.
  intros Hes Hsm Hall. revert i disk.
  induction n as [|n IH]; intros i disk Hn Hlen; cbn [write_sorted].
  - rewrite take_0. cbn [concat app]. rewrite Nat.add_0_r, take_drop. done.
  - destruct (lookup_lt_is_Some_2 (SortManager.sorted sm) i) as [e He]; [lia|].
    unfold SortManager.ReadEntry. rewrite Hsm, Z.div_mul by lia.
    rewrite Nat2Z.id, He. cbn [obind].
    assert (Z.of_nat (length e) = entry_size) as Hle.
    { eapply (proj1 (Forall_lookup _ _) Hall); eauto. }
    rewrite Write_store by nia.
    replace (Z.of_nat i + 1) with (Z.of_nat (S i)) by lia.
    rewrite IH; [|lia|rewrite length_buffer_store; nia].
    replace (Z.to_nat (Z.of_nat (S i) * entry_size))
      with (Z.to_nat (Z.of_nat i * entry_size) + length e)%nat by nia.
    rewrite take_buffer_store by nia.
    rewrite drop_buffer_store_after by nia.
    rewrite (drop_S _ _ _ He). cbn [take concat].
    rewrite <- !app_assoc.
    by replace (S i + n)%nat with (i + S n)%nat by lia.
Qed.

Lemma write_sorted_all entry_size sm (disk : FileDisk.t) :
  0 < entry_size → SortManager.entry_size sm = entry_size →
  Forall (λ e, Z.of_nat (length e) = entry_size) (SortManager.sorted sm) →
  let n := length (SortManager.sorted sm) in
  Z.of_nat n * entry_size ≤ Z.of_nat (length disk) →
  (disk' <- write_sorted n entry_size sm 0 disk ;;
   Done (FileDisk.Truncate disk' (Z.of_nat n * entry_size)))
  = Done (concat (SortManager.sorted sm)).
Proof.
  intros Hes Hsm Hall n Hlen. subst n.
  rewrite (write_sorted_spec _ entry_size sm 0) by (done || lia).
  cbn [obind]. rewrite drop_0, firstn_all. f_equal.
  pose proof (length_concat_entries _ _ Hall) as Hc.
  change (Z.of_nat 0 * entry_size) with 0. rewrite take_0. cbn [app].
  unfold FileDisk.Truncate.
  rewrite take_app_length' by lia.
  rewrite length_app.
  match goal with
  | |- _ ++ replicate ?x _ = _ => replace x with 0%nat by lia
  end.
  by rewrite app_nil_r.
Qed.

(** *** Width of the entries handed to the sort stage *)

Lemma new_entry_fields_size k write_counter pos offset :
  Bits.GetSize (new_entry_fields k write_counter pos offset)
  = (k + 1) + k + kOffsetSize.
Proof. unfold new_entry_fields, Bits.GetSize. simpl. lia. Qed.

Lemma ByteAlign_new_entry k entry_size write_counter pos offset :
  0 < entry_size → assertion_holds k entry_size →
  Util.ByteAlign (Bits.size (new_entry k entry_size write_counter pos offset))
  = entry_size * 8.
Proof.
  intros Hes Hassert. unfold new_entry, assertion_holds in *.
  rewrite new_entry_fields_size.
  pose proof (ByteAlign_spec (k + 1 + k + kOffsetSize)) as [H1 H2].
  destruct (_ <? _) eqn:E.
  - cbn [Bits.append Bits.size Bits.make].
    change (Bits.size (new_entry_fields k write_counter pos offset))
      with (Bits.GetSize (new_entry_fields k write_counter pos offset)).
    rewrite new_entry_fields_size.
    replace (k + 1 + k + kOffsetSize
             + (entry_size * 8 - (k + 1 + k + kOffsetSize)))
      with (entry_size * 8) by lia.
    unfold Util.ByteAlign. Z.div_mod_to_equations. lia.
  - change (Bits.size (new_entry_fields k write_counter pos offset))
      with (Bits.GetSize (new_entry_fields k write_counter pos offset)).
    rewrite new_entry_fields_size.
    Z.div_mod_to_equations. lia.
Qed.

Lemma length_sorted_entry k table_index entry_size disk next write_counter j :
  0 < entry_size → assertion_holds k entry_size →
  Z.of_nat (length (sorted_entry k table_index entry_size disk next
                      write_counter j)) = entry_size.
Proof.
  intros Hes Hassert. unfold sorted_entry.
  destruct (remapped _ _ _ _ _ _) as [pos offset].
  rewrite length_ToBytes, ByteAlign_new_entry by done.
  rewrite Z.div_mul by lia. lia.
Qed.

Lemma length_emitted k table_index entry_size disk next write_counter l :
  length (emitted k table_index entry_size disk next write_counter l)
  = length l.
Proof.
  revert write_counter. induction l as [|j l IH]; intros wc; simpl; [done|].
  by rewrite IH.
Qed.

Lemma Forall_length_emitted k table_index entry_size disk next write_counter l :
  0 < entry_size → assertion_holds k entry_size →
  Forall (λ e, Z.of_nat (length e) = entry_size)
    (emitted k table_index entry_size disk next write_counter l).
Proof.
  intros Hes Hassert. revert write_counter.
  induction l as [|j l IH]; intros wc; simpl; constructor; [|done].
  by apply length_sorted_entry.
Qed.

(** The [n]-th entry handed to the sort stage carries sort key
    [write_counter + n]. *)
Lemma emitted_lookup k table_index entry_size disk next write_counter l
    (n : nat) j :
  l !! n = Some j →
  emitted k table_index entry_size disk next write_counter l !! n
  = Some (sorted_entry k table_index entry_size disk next
            (write_counter + Z.of_nat n) j).
Proof.
  revert write_counter n. induction l as [|j' l IH]; intros wc [|n]; simpl;
    try done.
  - intros [= ->]. by rewrite Z.add_0_r.
  - intros Hn. rewrite (IH _ _ Hn). do 2 f_equal. lia.
Qed.

(** *** One iteration on valid tables *)

Lemma lookup_replicate_false (n : nat) (e : nat) :
  replicate n false !! e ≠ Some true.
Proof. intros [? _]%lookup_replicate. done. Qed.

(** The first scan of a valid table returns, and what it returns is the set
    of the entries that the kept entries refer to. *)
Lemma scan1_run k table_index entry_size cur disk table_size prev_size :
  0 ≤ table_size → 0 ≤ prev_size →
  (table_index ≠ 7 → Z.of_nat (length cur) = table_size) →
  Forall (in_bounds k table_index entry_size disk prev_size)
    (kept table_index cur table_size) →
  ∃ next,
    scan1 k table_index entry_size cur disk (Z.to_nat table_size) 0
      (replicate (Z.to_nat prev_size) false) = Done next
    ∧ Z.of_nat (length next) = prev_size
    ∧ (∀ j, j ∈ kept table_index cur table_size →
         marked k table_index entry_size disk next j)
    ∧ (∀ e, 0 ≤ e →
         next !! Z.to_nat e = Some true ↔
         ∃ j, j ∈ kept table_index cur table_size
              ∧ references k table_index entry_size disk j e).
Proof.
  intros Hts Hprev Hcur Hin.
  destruct (scan1_total k table_index entry_size cur disk (Z.to_nat table_size)
              0 (replicate (Z.to_nat prev_size) false)) as [next Hnext].
  { done. }
  { intros H7. specialize (Hcur H7). lia. }
  { intros j Hj Hret. rewrite length_replicate, Z2Nat.id by done.
    rewrite Forall_forall in Hin. apply Hin.
    apply elem_of_kept_from. split; [lia|done]. }
  exists next. split; [done|].
  apply scan1_inv in Hnext as (Hlen & _ & Hiff); [|done].
  rewrite length_replicate in Hlen. split; [lia|].
  assert (∀ e, 0 ≤ e →
            next !! Z.to_nat e = Some true ↔
            ∃ j, j ∈ kept table_index cur table_size
                 ∧ references k table_index entry_size disk j e) as Hiff'.
  { intros e He. rewrite Hiff by done. split.
    - intros [Hf|(j & Hj & Hret & Href)]; [by apply lookup_replicate_false in Hf|].
      exists j. split; [|done]. apply elem_of_kept_from. split; [lia|done].
    - intros (j & [Hj Hret]%elem_of_kept_from & Href). right.
      exists j. split; [lia|done]. }
  split; [|done].
  intros j Hj. unfold marked. split.
  - apply Hiff'; [apply entry_pos_range|]. exists j. split; [done|by left].
  - apply Hiff'; [apply wrap64_range|]. exists j. split; [done|by right].
Qed.

Lemma sorted_perm_emitted c nb lnb k table_index entry_size disk next l :
  0 < entry_size → assertion_holds k entry_size →
  let E := emitted k table_index entry_size disk next 0 l in
  let S := replay c nb lnb entry_size (k + 1) E in
  length S = length l
  ∧ Forall (λ e, Z.of_nat (length e) = entry_size) S.
Proof.
  intros Hes Hassert E S. subst S.
  pose proof (replay_Permutation c nb lnb entry_size (k + 1) E) as HP.
  subst E. split.
  - rewrite (Permutation_length HP). apply length_emitted.
  - rewrite HP. by apply Forall_length_emitted.
Qed.

(** Tables 2 to 6: the file becomes the sorted entries, the size the number
    of kept entries. *)
Lemma backpropagate_scan_other table_sizes k c nb lnb table_index st
    prev_size table_size disk :
  let entry_size := GetMaxEntrySize k table_index false in
  let cur := current_bitfield st in
  1 ≤ table_index → table_index ≠ 7 →
  table_sizes !! Z.to_nat (table_index - 1) = Some prev_size →
  table_sizes !! Z.to_nat table_index = Some table_size →
  tmp_1_disks st !! Z.to_nat table_index = Some disk →
  0 < entry_size → 0 ≤ table_size → 0 ≤ prev_size →
  table_size * entry_size ≤ Z.of_nat (length disk) →
  Z.of_nat (length cur) = table_size →
  assertion_holds k entry_size →
  Forall (in_bounds k table_index entry_size disk prev_size)
    (kept table_index cur table_size) →
  ∃ next,
    scan1 k table_index entry_size cur disk (Z.to_nat table_size) 0
      (replicate (Z.to_nat prev_size) false) = Done next
    ∧ backpropagate_scan table_sizes k c nb lnb table_index st
      = Done (mkPhase2
                (<[Z.to_nat table_index :=
                     concat (replay c nb lnb entry_size (k + 1)
                               (emitted k table_index entry_size disk next 0
                                  (kept table_index cur table_size)))]>
                   (tmp_1_disks st))
                (<[Z.to_nat table_index :=
                     Z.of_nat (length (kept table_index cur table_size))]>
                   (new_table_sizes st))
                next).
Proof.
  intros entry_size cur Hti H7 Hprev Hts Hdisk Hes Hts0 Hprev0 Hlen Hcur
    Hassert Hin.
  destruct (scan1_run k table_index entry_size cur disk table_size prev_size)
    as (next & Hscan & Hlnext & Hmarked & _); [done..|].
  exists next. split; [done|].
  unfold backpropagate_scan. fold entry_size cur.
  rewrite (vector_get_Done _ _ prev_size) by (done || lia).
  rewrite (vector_get_Done _ _ table_size) by (done || lia).
  cbn [obind]. destruct (entry_size <=? 0) eqn:E; [lia|].
  rewrite (vector_get_Done _ _ disk) by (done || lia).
  cbn [obind]. rewrite Hscan. cbn [obind].
  rewrite scan2_other;
    cbn [p2_disk p2_sort_manager p2_write_counter p2_buffer];
    [|done|done|lia|done|].
  2:{ intros j Hj Hret. apply Hmarked. apply elem_of_kept_from.
      split; [lia|done]. }
  rewrite Z2Nat.id by done. fold (kept table_index cur table_size).
  cbn [obind]. unfold finish_table.
  cbn [p2_disk p2_sort_manager p2_write_counter p2_buffer].
  destruct (table_index =? 7) eqn:E7; [lia|]. cbn [negb].
  set (l := kept table_index cur table_size).
  set (E' := emitted k table_index entry_size disk next 0 l).
  set (sm := with_cache _ _).
  assert (SortManager.sorted (SortManager.FlushCache sm)
          = replay c nb lnb entry_size (k + 1) E') as Hsorted by done.
  destruct (sorted_perm_emitted c nb lnb k table_index entry_size disk next l
              Hes Hassert) as [HlS HfS].
  fold E' in HlS, HfS.
  pose proof (length_kept_from table_index cur 0 table_size Hts0) as Hlk.
  fold (kept table_index cur table_size) in Hlk. fold l in Hlk.
  pose proof (write_sorted_all entry_size (SortManager.FlushCache sm) disk Hes
                eq_refl) as Hw.
  rewrite Hsorted in Hw. specialize (Hw HfS). cbn zeta in Hw.
  rewrite HlS in Hw. specialize (Hw ltac:(nia)).
  rewrite Z.add_0_l, Nat2Z.id.
  destruct (write_sorted _ _ _ _ _) as [d'| |]; cbn [obind] in *; [|done..].
  injection Hw as ->. done.
Qed.

(** Table 7: every entry is rewritten where it stands. *)
Lemma backpropagate_scan_7 table_sizes k c nb lnb st prev_size table_size disk :
  let entry_size := GetMaxEntrySize k 7 false in
  table_sizes !! 6%nat = Some prev_size →
  table_sizes !! 7%nat = Some table_size →
  tmp_1_disks st !! 7%nat = Some disk →
  0 < entry_size → 0 ≤ table_size → 0 ≤ prev_size →
  table_size * entry_size ≤ Z.of_nat (length disk) →
  fits7 k entry_size →
  Forall (in_bounds k 7 entry_size disk prev_size)
    (kept 7 (current_bitfield st) table_size) →
  ∃ next,
    scan1 k 7 entry_size (current_bitfield st) disk (Z.to_nat table_size) 0
      (replicate (Z.to_nat prev_size) false) = Done next
    ∧ backpropagate_scan table_sizes k c nb lnb 7 st
      = Done (mkPhase2
                (<[7%nat :=
                     concat (rewritten7 k next
                               <$> disk_entries disk entry_size 0 table_size)
                     ++ drop (Z.to_nat (table_size * entry_size)) disk]>
                   (tmp_1_disks st))
                (new_table_sizes st) next).
Proof.
  intros entry_size Hprev Hts Hdisk Hes Hts0 Hprev0 Hlen Hfit Hin.
  destruct (scan1_run k 7 entry_size (current_bitfield st) disk table_size
              prev_size)
    as (next & Hscan & Hlnext & Hmarked & _); [done|done|done|done|].
  exists next. split; [done|].
  unfold backpropagate_scan. fold entry_size.
  change (Z.to_nat (7 - 1)) with 6%nat. change (Z.to_nat 7) with 7%nat.
  rewrite (vector_get_Done _ (7 - 1) prev_size) by (done || lia).
  rewrite (vector_get_Done _ 7 table_size) by (done || lia).
  cbn [obind]. destruct (entry_size <=? 0) eqn:E; [lia|].
  rewrite (vector_get_Done _ 7 disk) by (done || lia).
  cbn [obind]. rewrite Hscan. cbn [obind].
  rewrite scan2_7;
    cbn [p2_disk p2_sort_manager p2_write_counter p2_buffer];
    [|done|done|lia|lia|].
  2:{ intros j Hj. apply Hmarked. apply elem_of_kept_from.
      split; [lia|by left]. }
  cbn [obind]. unfold finish_table.
  cbn [p2_disk p2_sort_manager p2_write_counter p2_buffer].
  change (7 =? 7) with true. cbn [negb].
  rewrite Z2Nat.id by done. change (0 * entry_size) with 0.
  rewrite take_0, Z.add_0_l. done.
Qed.

(** *** Bytes and big-endian numbers *)

Lemma byte_to_Z_range b : 0 ≤ byte_to_Z b < 256.
Proof.
  unfold byte_to_Z. pose proof (Byte.to_N_bounded b). lia.
Qed.

Lemma byte_to_of_Z z : byte_to_Z (byte_of_Z z) = z mod 256.
Proof.
  unfold byte_to_Z, byte_of_Z.
  pose proof (Z.mod_pos_bound z 256 ltac:(lia)) as Hz.
  destruct (Byte.of_N (Z.to_N (z mod 256))) as [b|] eqn:E.
  - apply Byte.to_of_N in E. rewrite E. lia.
  - apply Byte.of_N_None_iff in E. lia.
Qed.

Lemma byte_of_to_Z b : byte_of_Z (byte_to_Z b) = b.
Proof.
  unfold byte_to_Z, byte_of_Z.
  pose proof (Byte.to_N_bounded b).
  rewrite Z.mod_small by lia. rewrite N2Z.id. by rewrite Byte.of_to_N.
Qed.

Lemma BytesToInt_fold bs acc :
  fold_left (λ acc b, acc * 256 + byte_to_Z b) bs acc
  = acc * 256 ^ Z.of_nat (length bs) + BytesToInt bs.
Proof.
  unfold BytesToInt. revert acc.
  induction bs as [|b bs IH]; intros acc; simpl fold_left.
  - simpl. lia.
  - rewrite IH, (IH (0 * 256 + byte_to_Z b)).
    rewrite length_cons, Nat2Z.inj_succ, Z.pow_succ_r by lia. lia.
Qed.

Lemma BytesToInt_app a b :
  BytesToInt (a ++ b)
  = BytesToInt a * 256 ^ Z.of_nat (length b) + BytesToInt b.
Proof.
  unfold BytesToInt at 1. rewrite fold_left_app.
  fold (BytesToInt a). apply BytesToInt_fold.
Qed.

Lemma BytesToInt_range bs : 0 ≤ BytesToInt bs < 256 ^ Z.of_nat (length bs).
Proof.
  induction bs as [|b bs IH] using rev_ind.
  - unfold BytesToInt. simpl. lia.
  - rewrite BytesToInt_app, length_app.
    change (Z.of_nat (length [b])) with 1. change (length [b]) with 1%nat.
    replace (Z.of_nat (length bs + 1)) with (Z.succ (Z.of_nat (length bs)))
      by lia.
    rewrite Z.pow_succ_r, Z.pow_1_r by lia.
    assert (BytesToInt [b] = byte_to_Z b) as -> by (unfold BytesToInt; cbn [fold_left]; lia).
    pose proof (byte_to_Z_range b). nia.
Qed.

Lemma BytesToInt_IntToBytes (n : nat) v :
  BytesToInt (IntToBytes n v) = v mod 256 ^ Z.of_nat n.
Proof.
  revert v. induction n as [|n IH]; intros v.
  - simpl. unfold BytesToInt. simpl. by rewrite Z.mod_1_r.
  - cbn [IntToBytes]. rewrite BytesToInt_app, IH.
    change (Z.of_nat (length [byte_of_Z v])) with 1.
    assert (BytesToInt [byte_of_Z v] = v mod 256) as ->.
    { unfold BytesToInt. cbn [fold_left]. rewrite byte_to_of_Z. lia. }
    rewrite Nat2Z.inj_succ, Z.pow_succ_r, Z.pow_1_r by lia.
    assert (0 < 256 ^ Z.of_nat n) by (apply Z.pow_pos_nonneg; lia).
    rewrite (Z.rem_mul_r v 256 (256 ^ Z.of_nat n)) by lia. lia.
Qed.

Lemma IntToBytes_BytesToInt bs :
  IntToBytes (length bs) (BytesToInt bs) = bs.
Proof.
  induction bs as [|b bs IH] using rev_ind; [done|].
  rewrite length_app. change (length [b]) with 1%nat.
  rewrite Nat.add_1_r. cbn [IntToBytes].
  rewrite BytesToInt_app. change (Z.of_nat (length [b])) with 1.
  rewrite Z.pow_1_r.
  assert (BytesToInt [b] = byte_to_Z b) as -> by (unfold BytesToInt; cbn [fold_left]; lia).
  pose proof (byte_to_Z_range b) as Hb.
  rewrite Z.div_add_l, (Z.div_small (byte_to_Z b)), Z.add_0_r by lia.
  rewrite IH. f_equal. f_equal.
  rewrite <- (byte_of_to_Z b) at 2. unfold byte_of_Z.
  by rewrite Z.add_comm, Z.mod_add by lia.
Qed.

Lemma pow_256 n : 256 ^ n = 2 ^ (8 * n).
Proof.
  destruct (Z.le_gt_cases 0 n).
  - rewrite Z.pow_mul_r by lia. done.
  - rewrite !Z.pow_neg_r by lia. done.
Qed.

(** *** Bit strings *)

Lemma Bits_wf_empty : Bits_wf Bits.empty.
Proof. unfold Bits_wf. simpl. lia. Qed.

Lemma Bits_wf_make v sz : 0 ≤ sz → Bits_wf (Bits.make v sz).
Proof.
  intros. unfold Bits_wf. simpl. split; [done|].
  apply Z.mod_pos_bound. lia.
Qed.

Lemma Bits_wf_append a b : Bits_wf a → Bits_wf b → Bits_wf (a += b).
Proof.
  intros [Ha1 Ha2] [Hb1 Hb2]. unfold Bits_wf. simpl. split; [lia|].
  rewrite Z.pow_add_r by lia. nia.
Qed.

(** The bytes of a bit string followed by [rest]: the value sits in the
    leading [size] bits. *)
Lemma BytesToInt_ToBytes_app b rest :
  Bits_wf b →
  let len := Z.of_nat (length (Bits.ToBytes b ++ rest)) in
  ∃ R, BytesToInt (Bits.ToBytes b ++ rest)
       = Bits.value b * 2 ^ (8 * len - Bits.size b) + R
       ∧ 0 ≤ R < 2 ^ (8 * len - Bits.size b)
       ∧ Bits.size b ≤ 8 * len
       ∧ (rest = [] → R = 0).
Proof.
  intros [Hs Hv] len. subst len.
  pose proof (ByteAlign_spec (Bits.size b)) as [Ha1 Ha2].
  set (A := Util.ByteAlign (Bits.size b)) in *.
  assert (A = 8 * (A / 8)) as HA by (Z.div_mod_to_equations; lia).
  rewrite length_app, length_ToBytes. fold A.
  rewrite Nat2Z.inj_add, Z2Nat.id by (Z.div_mod_to_equations; lia).
  exists (BytesToInt rest).
  pose proof (BytesToInt_range rest) as Hr. rewrite pow_256 in Hr.
  rewrite BytesToInt_app. unfold Bits.ToBytes. fold A.
  rewrite BytesToInt_IntToBytes, Z2Nat.id by (Z.div_mod_to_equations; lia).
  rewrite !pow_256, <- HA.
  assert (0 ≤ Bits.value b * 2 ^ (A - Bits.size b) < 2 ^ A) as Hlt.
  { assert (2 ^ A = 2 ^ Bits.size b * 2 ^ (A - Bits.size b)) as ->.
    { rewrite <- Z.pow_add_r by lia. f_equal. lia. }
    assert (0 < 2 ^ (A - Bits.size b)) by (apply Z.pow_pos_nonneg; lia).
    nia. }
  rewrite Z.mod_small by done.
  replace (8 * (A / 8 + Z.of_nat (length rest)) - Bits.size b)
    with ((A - Bits.size b) + 8 * Z.of_nat (length rest)) by lia.
  rewrite Z.pow_add_r by lia.
  split; [lia|]. split.
  - assert (0 < 2 ^ (A - Bits.size b)) by (apply Z.pow_pos_nonneg; lia).
    nia.
  - split; [lia|]. intros ->. done.
Qed.

(** Reading a field back from bytes whose leading [S] bits hold [V]. *)
Lemma SliceInt64FromBytes_packed bytes V S R s n :
  BytesToInt bytes = V * 2 ^ (8 * Z.of_nat (length bytes) - S) + R →
  0 ≤ R < 2 ^ (8 * Z.of_nat (length bytes) - S) →
  0 ≤ s → 0 ≤ n → s + n ≤ S → S ≤ 8 * Z.of_nat (length bytes) →
  Util.SliceInt64FromBytes bytes s n
  = wrap64 ((V / 2 ^ (S - s - n)) mod 2 ^ n).
Proof.
  intros HE HR Hs Hn HS Hlen. unfold Util.SliceInt64FromBytes. rewrite HE.
  set (L := 8 * Z.of_nat (length bytes)) in *.
  replace (L - s - n) with ((L - S) + (S - s - n)) by lia.
  rewrite Z.pow_add_r, <- Z.div_div by (try apply Z.pow_pos_nonneg; lia).
  rewrite Z.div_add_l by (apply Z.pow_nonzero; lia).
  by rewrite (Z.div_small R) , Z.add_0_r by done.
Qed.

(** *** Ranks *)

Lemma popcount_app a b : popcount (a ++ b) = popcount a + popcount b.
Proof. induction a as [|x a IH]; simpl; [done|]. rewrite IH. lia. Qed.

Lemma popcount_range bf : 0 ≤ popcount bf ≤ Z.of_nat (length bf).
Proof. induction bf as [|[] bf IH]; simpl; lia. Qed.

Lemma popcount_replicate_true (n : nat) : popcount (replicate n true) = Z.of_nat n.
Proof. induction n as [|n IH]; simpl; [done|]. lia. Qed.

Lemma rank_split (bf : bitfield) a b :
  0 ≤ a ≤ b →
  bitfield_index.rank bf b
  = bitfield_index.rank bf a
    + popcount (take (Z.to_nat (b - a)) (drop (Z.to_nat a) bf)).
Proof.
  intros. unfold bitfield_index.rank.
  rewrite <- popcount_app, take_take_drop. do 2 f_equal. lia.
Qed.

Lemma rank_range (bf : bitfield) p : 0 ≤ p → 0 ≤ bitfield_index.rank bf p ≤ p.
Proof.
  intros. unfold bitfield_index.rank.
  pose proof (popcount_range (take (Z.to_nat p) bf)) as Hr.
  rewrite length_take in Hr. lia.
Qed.

Lemma rank_diff_range (bf : bitfield) a b :
  0 ≤ a ≤ b →
  0 ≤ bitfield_index.rank bf b - bitfield_index.rank bf a ≤ b - a.
Proof.
  intros. rewrite (rank_split bf a b) by done.
  pose proof (popcount_range (take (Z.to_nat (b - a)) (drop (Z.to_nat a) bf)))
    as Hr.
  rewrite length_take in Hr. lia.
Qed.

Lemma rank_all_true (n : nat) p :
  0 ≤ p ≤ Z.of_nat n → bitfield_index.rank (replicate n true) p = p.
Proof.
  intros. unfold bitfield_index.rank.
  rewrite take_replicate, popcount_replicate_true. lia.
Qed.

(** *** Fields of the rewritten entries *)

Lemma fields3 a b c n1 n2 n3 :
  0 ≤ n1 → 0 ≤ n2 → 0 ≤ n3 →
  0 ≤ a < 2 ^ n1 → 0 ≤ b < 2 ^ n2 → 0 ≤ c < 2 ^ n3 →
  let V := (a * 2 ^ n2 + b) * 2 ^ n3 + c in
  (V / 2 ^ (n2 + n3)) mod 2 ^ n1 = a
  ∧ (V / 2 ^ n3) mod 2 ^ n2 = b
  ∧ V mod 2 ^ n3 = c.
Proof.
  intros H1 H2 H3 Ha Hb Hc V. subst V.
  assert (0 < 2 ^ n2) by (apply Z.pow_pos_nonneg; lia).
  assert (0 < 2 ^ n3) by (apply Z.pow_pos_nonneg; lia).
  assert (((a * 2 ^ n2 + b) * 2 ^ n3 + c) / 2 ^ n3 = a * 2 ^ n2 + b) as E3.
  { rewrite Z.div_add_l, (Z.div_small c) by lia. lia. }
  split; [|split].
  - rewrite Z.pow_add_r, (Z.mul_comm (2 ^ n2)), <- Z.div_div, E3 by lia.
    rewrite Z.div_add_l, (Z.div_small b), Z.add_0_r by lia.
    by apply Z.mod_small.
  - rewrite E3, Z.add_comm, Z.mod_add by lia. by apply Z.mod_small.
  - rewrite Z.add_comm, Z.mod_add by lia. by apply Z.mod_small.
Qed.

Lemma mod_pow_range v n : 0 ≤ n → 0 ≤ v mod 2 ^ n < 2 ^ n.
Proof. intros. apply Z.mod_pos_bound. by apply Z.pow_pos_nonneg. Qed.

Lemma new_entry7_wf k f7 pos off :
  0 ≤ k → 0 ≤ kOffsetSize → Bits_wf (new_entry7 k f7 pos off).
Proof.
  intros. unfold new_entry7.
  repeat apply Bits_wf_append; (apply Bits_wf_empty || by apply Bits_wf_make).
Qed.

Lemma new_entry_fields_wf k wc pos off :
  0 ≤ k → 0 ≤ kOffsetSize → Bits_wf (new_entry_fields k wc pos off).
Proof.
  intros. unfold new_entry_fields.
  repeat apply Bits_wf_append;
    (apply Bits_wf_empty || apply Bits_wf_make; lia).
Qed.

(** The three fields of a rewritten entry of table 7, and the bytes behind
    them. *)
Lemma rewritten7_fields k next entry entry_size :
  0 ≤ k → 0 ≤ kOffsetSize → 0 < entry_size → fits7 k entry_size →
  Z.of_nat (length entry) = entry_size →
  let pos := entry_pos k 7 entry in
  let sum := wrap64 (pos + entry_offset k 7 entry) in
  let new := rewritten7 k next entry in
  Util.SliceInt64FromBytes new 0 k
  = wrap64 (Util.SliceInt64FromBytes entry 0 k mod 2 ^ k)
  ∧ Util.SliceInt64FromBytes new k k
    = wrap64 (bitfield_index.rank next pos mod 2 ^ k)
  ∧ Util.SliceInt64FromBytes new (k + k) kOffsetSize
    = wrap64 ((bitfield_index.rank next sum - bitfield_index.rank next pos)
              mod 2 ^ kOffsetSize).
Proof.
  intros Hk Hko Hes Hfit Hlen pos sum new.
  set (f7 := Util.SliceInt64FromBytes entry 0 k).
  set (p := bitfield_index.rank next pos).
  set (o := bitfield_index.rank next sum - bitfield_index.rank next pos).
  set (b := new_entry7 k f7 p o).
  assert (new = Bits.ToBytes b ++ drop (length (Bits.ToBytes b)) entry) as Hnew
    by done.
  pose proof (new_entry7_wf k f7 p o Hk Hko) as Hwf. fold b in Hwf.
  pose proof (length_rewritten7 k next entry entry_size Hes Hfit Hlen) as Hl.
  fold new in Hl.
  destruct (BytesToInt_ToBytes_app b (drop (length (Bits.ToBytes b)) entry) Hwf)
    as (R & HE & HR & HS & _).
  rewrite <- Hnew in HE, HR, HS.
  assert (Bits.size b = k + k + kOffsetSize) as Hsz by (simpl; lia).
  assert (Bits.value b
          = ((f7 mod 2 ^ k) * 2 ^ k + p mod 2 ^ k) * 2 ^ kOffsetSize
            + o mod 2 ^ kOffsetSize) as Hval by (simpl; lia).
  destruct (fields3 (f7 mod 2 ^ k) (p mod 2 ^ k) (o mod 2 ^ kOffsetSize)
              k k kOffsetSize Hk Hk Hko)
    as (F1 & F2 & F3); [by apply mod_pow_range..|].
  rewrite <- Hval in F1, F2, F3.
  split; [|split].
  - rewrite (SliceInt64FromBytes_packed new (Bits.value b) (Bits.size b) R)
      by (done || lia).
    rewrite Hsz.
    replace (k + k + kOffsetSize - 0 - k) with (k + kOffsetSize) by lia.
    by rewrite F1.
  - rewrite (SliceInt64FromBytes_packed new (Bits.value b) (Bits.size b) R)
      by (done || lia).
    rewrite Hsz.
    replace (k + k + kOffsetSize - k - k) with kOffsetSize by lia.
    by rewrite F2.
  - rewrite (SliceInt64FromBytes_packed new (Bits.value b) (Bits.size b) R)
      by (done || lia).
    rewrite Hsz.
    replace (k + k + kOffsetSize - (k + k) - kOffsetSize) with 0 by lia.
    by rewrite Z.pow_0_r, Z.div_1_r, F3.
Qed.

Lemma SliceInt64FromBytes_bound bytes s n :
  0 ≤ n → 0 ≤ Util.SliceInt64FromBytes bytes s n < 2 ^ n.
Proof.
  intros Hn. unfold Util.SliceInt64FromBytes.
  pose proof (mod_pow_range
    (BytesToInt bytes / 2 ^ (8 * Z.of_nat (length bytes) - s - n)) n Hn).
  pose proof (wrap64_range
    ((BytesToInt bytes / 2 ^ (8 * Z.of_nat (length bytes) - s - n)) mod 2 ^ n)).
  pose proof (wrap64_le
    ((BytesToInt bytes / 2 ^ (8 * Z.of_nat (length bytes) - s - n)) mod 2 ^ n)).
  lia.
Qed.

Lemma wrap64_mod_small v n : 0 ≤ v < 2 ^ n → 0 ≤ v < 2 ^ 64 → wrap64 (v mod 2 ^ n) = v.
Proof. intros. rewrite Z.mod_small by done. by apply wrap64_small. Qed.

(** ** Properties of the phase *)

(** C7. The compacted position mapping is strictly order-preserving on
    retained positions: with [rank p] the count of [true] bits of the
    Liveness Set at indices below [p], two original positions [a < b] that
    are both retained have [rank a < rank b]. *)
Theorem C7_rank_order_preserving (bf : bitfield) (a b : Z) :
  0 ≤ a → a < b →
  bf !! Z.to_nat a = Some true → bf !! Z.to_nat b = Some true →
  bitfield_index.rank bf a < bitfield_index.rank bf b.
Proof.
  intros Ha Hab Hbita _.
  rewrite (rank_split bf a b) by lia.
  rewrite (drop_S _ _ _ Hbita).
  replace (Z.to_nat (b - a)) with (S (Z.to_nat (b - a - 1))) by lia.
  cbn [take popcount].
  pose proof (popcount_range
                (take (Z.to_nat (b - a - 1)) (drop (S (Z.to_nat a)) bf))).
  lia.
Qed.

Lemma backpropagate_table_inv fuel table_sizes k memory_size nb lnb
    table_index st st' :
  backpropagate_table fuel table_sizes k memory_size nb lnb table_index st
  = Done st' →
  ∃ prev_size table_size disk next,
    let entry_size := GetMaxEntrySize k table_index false in
    table_sizes !! Z.to_nat (table_index - 1) = Some prev_size
    ∧ table_sizes !! Z.to_nat table_index = Some table_size
    ∧ tmp_1_disks st !! Z.to_nat table_index = Some disk
    ∧ pass1_while fuel k table_index entry_size (current_bitfield st) disk
        table_size (read_buffer_size memory_size entry_size) 0 0
        (replicate (Z.to_nat prev_size) false) = Done next
    ∧ current_bitfield st' = next.
Proof.
  unfold backpropagate_table.
  intros (prev_size & [Ea1 Ea2]%vector_get_inv & E1)%obind_Done_inv.
  apply obind_Done_inv in E1 as (table_size & [Eb1 Eb2]%vector_get_inv & E2).
  destruct (_ <=? 0) eqn:E; [done|].
  apply obind_Done_inv in E2 as (disk & [Ec1 Ec2]%vector_get_inv & E3).
  apply obind_Done_inv in E3 as (next & Ed & E4).
  apply obind_Done_inv in E4 as (p2 & Ee & E5).
  exists prev_size, table_size, disk, next. cbn zeta.
  repeat split; try done.
  destruct (negb _).
  - apply obind_Done_inv in E5 as (d & _ & [= <-]). done.
  - by injection E5 as <-.
Qed.

(** C1. For a table index [i] in 2..7, the first scan of table [i] returns
    the next Liveness Set, in which entry [e] of table [i - 1] is marked
    exactly when some retained entry of table [i] (every entry for table 7,
    the entries whose bit is set in the current Liveness Set otherwise) has
    [pos = e] or [pos + offset = e].  The set is computed by that single
    scan, from the file as the iteration found it, and it is the set the
    iteration hands on. *)
Theorem C1_next_liveness_set (fuel : nat) table_sizes k memory_size nb lnb
    table_index st prev_size table_size disk :
  let entry_size := GetMaxEntrySize k table_index false in
  let cur := current_bitfield st in
  2 ≤ table_index ≤ 7 →
  table_sizes !! Z.to_nat (table_index - 1) = Some prev_size →
  table_sizes !! Z.to_nat table_index = Some table_size →
  tmp_1_disks st !! Z.to_nat table_index = Some disk →
  0 < entry_size → entry_size ≤ memory_size / 2 →
  0 ≤ table_size ≤ Z.of_nat fuel → 0 ≤ prev_size →
  table_size * entry_size ≤ Z.of_nat (length disk) →
  (table_index ≠ 7 → Z.of_nat (length cur) = table_size) →
  Forall (in_bounds k table_index entry_size disk prev_size)
    (kept table_index cur table_size) →
  ∃ next,
    pass1_while fuel k table_index entry_size cur disk table_size
      (read_buffer_size memory_size entry_size) 0 0
      (replicate (Z.to_nat prev_size) false) = Done next
    ∧ Z.of_nat (length next) = prev_size
    ∧ (∀ e, 0 ≤ e < prev_size →
         next !! Z.to_nat e = Some true ↔
         ∃ j, 0 ≤ j < table_size ∧ retained table_index cur j
              ∧ references k table_index entry_size disk j e)
    ∧ (∀ st',
         backpropagate_table fuel table_sizes k memory_size nb lnb
           table_index st = Done st' →
         current_bitfield st' = next).
Proof.
  intros entry_size cur Hti Hprev Hts Hdisk Hes Hmem Hfuel Hprev0 Hlen Hcur Hin.
  destruct (scan1_run k table_index entry_size cur disk table_size prev_size)
    as (next & Hscan & Hlnext & _ & Hiff); [lia|done..|].
  assert (pass1_while fuel k table_index entry_size cur disk table_size
            (read_buffer_size memory_size entry_size) 0 0
            (replicate (Z.to_nat prev_size) false) = Done next) as Hp1.
  { rewrite (pass1_while_scan _ _ _ _ _ _ _ _ 0);
      [by rewrite Z.sub_0_r|done| | |done|done|lia].
    - by apply read_buffer_size_ge.
    - by apply read_buffer_size_mod. }
  exists next. split; [done|]. split; [done|]. split.
  - intros e He. rewrite Hiff by lia. split.
    + intros (j & [Hj Hret]%elem_of_kept_from & Href). eauto.
    + intros (j & Hj & Hret & Href). exists j. split; [|done].
      apply elem_of_kept_from. split; [lia|done].
  - intros st' (p & t & d & next' & E1 & E2 & E3 & E4 & E5)%backpropagate_table_inv.
    cbn zeta in E4. fold entry_size cur in E4.
    rewrite Hprev in E1. rewrite Hts in E2. rewrite Hdisk in E3.
    injection E1 as <-. injection E2 as <-. injection E3 as <-.
    congruence.
Qed.

Lemma outcome_map_Done_inv {A B : Type} (f : A → B) (m : outcome A) (b : B) :
  outcome_map f m = Done b → ∃ a, m = Done a ∧ f a = b.
Proof. destruct m; simpl; intros [=]. eauto. Qed.

Lemma fields_no_wrap k table_index entry :
  0 ≤ k < 64 → 0 ≤ kOffsetSize < 64 →
  entry_pos k table_index entry + entry_offset k table_index entry < 2 ^ 64.
Proof.
  intros Hk Hko.
  assert (2 ^ k ≤ 2 ^ 63) by (apply Z.pow_le_mono_r; lia).
  assert (2 ^ kOffsetSize ≤ 2 ^ 63) by (apply Z.pow_le_mono_r; lia).
  unfold entry_pos, entry_offset.
  destruct (table_index =? 7);
    match goal with
    | |- Util.SliceInt64FromBytes ?e ?s1 ?n1
         + Util.SliceInt64FromBytes ?e ?s2 ?n2 < _ =>
        pose proof (SliceInt64FromBytes_bound e s1 n1 ltac:(lia));
        pose proof (SliceInt64FromBytes_bound e s2 n2 ltac:(lia))
    end; lia.
Qed.

Lemma kept_7 cur table_size : kept 7 cur table_size = seqZ 0 table_size.
Proof.
  unfold kept, kept_from. induction (seqZ 0 table_size) as [|j l IH]; [done|].
  rewrite filter_cons_True by (by left). by rewrite IH.
Qed.

(** The second scan of a valid table returns. *)
Lemma pass2_while_run (fuel : nat) k table_index entry_size cur next disk
    table_size rbs sm :
  0 < entry_size → entry_size ≤ rbs → rbs mod entry_size = 0 →
  0 ≤ table_size ≤ Z.of_nat fuel →
  table_size * entry_size ≤ Z.of_nat (length disk) →
  (table_index ≠ 7 → Z.of_nat (length cur) = table_size) →
  (table_index = 7 → fits7 k entry_size) →
  (table_index ≠ 7 → assertion_holds k entry_size) →
  (∀ j, j ∈ kept table_index cur table_size →
     marked k table_index entry_size disk next j) →
  ∃ p2,
    pass2_while fuel k table_index entry_size cur next table_size rbs 0 0
      (mkPass2 [] disk sm 0) = Done p2
    ∧ p2_write_counter p2
      = Z.of_nat (length (kept table_index cur table_size))
    ∧ (table_index ≠ 7 →
       p2_disk p2 = disk
       ∧ p2_sort_manager p2
         = with_cache sm
             (emitted k table_index entry_size disk next 0
                (kept table_index cur table_size)))
    ∧ (table_index = 7 →
       p2_sort_manager p2 = sm
       ∧ p2_disk p2
         = concat (rewritten7 k next
                     <$> disk_entries disk entry_size 0 table_size)
           ++ drop (Z.to_nat (table_size * entry_size)) disk).
Proof.
  intros Hes Hrbs Hmod Hfuel Hlen Hcur Hfit Hassert Hmarked.
  pose proof (pass2_while_scan k table_index entry_size cur next table_size
                rbs fuel 0 (mkPass2 [] disk sm 0) Hes Hrbs Hmod Hlen Hfit
                ltac:(done) ltac:(lia)) as Hsim.
  change (0 * entry_size) with 0 in Hsim. rewrite Z.sub_0_r in Hsim.
  destruct (decide (table_index = 7)) as [->|H7].
  - rewrite scan2_7 in Hsim;
      cbn [p2_disk p2_sort_manager p2_write_counter p2_buffer];
      [|done|by apply Hfit|done|lia|].
    2:{ intros j Hj. apply Hmarked. apply elem_of_kept_from.
        split; [lia|by left]. }
    apply outcome_map_Done_inv in Hsim as ([b d s w] & -> & [= -> -> ->]).
    eexists. split; [done|]. cbn [p2_disk p2_sort_manager p2_write_counter].
    split.
    + rewrite kept_7, length_seqZ. lia.
    + split; [done|]. intros _. split; [done|].
      rewrite Z2Nat.id by lia. by rewrite Z.add_0_l.
  - rewrite scan2_other in Hsim;
      cbn [p2_disk p2_sort_manager p2_write_counter p2_buffer];
      [|done|done|specialize (Hcur H7); lia|by apply Hassert|].
    2:{ intros j Hj Hret. apply Hmarked. apply elem_of_kept_from.
        split; [lia|done]. }
    rewrite Z2Nat.id in Hsim by lia.
    apply outcome_map_Done_inv in Hsim as ([b d s w] & -> & [= -> -> ->]).
    eexists. split; [done|]. cbn [p2_disk p2_sort_manager p2_write_counter].
    split; [by rewrite Z.add_0_l|]. split; [done|]. done.
Qed.

(** C10. The accesses to the Liveness Sets are unchecked, and an access
    outside a set is a fault here.  For a table index [i] in 7..2 the first
    scan stays in bounds exactly when every entry it does not drop has
    [pos + offset] below the original size of table [i - 1]: under that
    precondition both scans return, every read and write of a Liveness Set
    being in bounds; when some retained entry violates it, the first scan
    faults on an access out of bounds. *)
Theorem C10_liveness_accesses_in_bounds (fuel : nat) k memory_size nb lnb
    table_index cur disk table_size prev_size :
  let entry_size := GetMaxEntrySize k table_index false in
  let rbs := read_buffer_size memory_size entry_size in
  let pass1 :=
    pass1_while fuel k table_index entry_size cur disk table_size rbs 0 0
      (replicate (Z.to_nat prev_size) false) in
  2 ≤ table_index ≤ 7 →
  0 ≤ k < 64 → 0 ≤ kOffsetSize < 64 →
  0 < entry_size → entry_size ≤ memory_size / 2 →
  0 ≤ table_size ≤ Z.of_nat fuel → 0 ≤ prev_size →
  table_size * entry_size ≤ Z.of_nat (length disk) →
  (table_index ≠ 7 → Z.of_nat (length cur) = table_size) →
  (table_index = 7 → fits7 k entry_size) →
  (table_index ≠ 7 → assertion_holds k entry_size) →
  (Forall (in_bounds k table_index entry_size disk prev_size)
     (kept table_index cur table_size) →
   ∃ next p2,
     pass1 = Done next
     ∧ pass2_while fuel k table_index entry_size cur next table_size rbs 0 0
         (mkPass2 [] disk
            (SortManager.make (memory_size - rbs) nb lnb entry_size (k + 1))
            0) = Done p2)
  ∧ (¬ Forall (in_bounds k table_index entry_size disk prev_size)
         (kept table_index cur table_size) →
     pass1 = Fault OutOfBounds).
Proof.
  intros entry_size rbs pass1 Hti Hk Hko Hes Hmem Hfuel Hprev0 Hlen Hcur Hfit
    Hassert.
  pose proof (read_buffer_size_ge memory_size entry_size Hes Hmem) as Hge.
  pose proof (read_buffer_size_mod memory_size entry_size Hes) as Hmod.
  fold rbs in Hge, Hmod.
  assert (pass1
          = scan1 k table_index entry_size cur disk (Z.to_nat table_size) 0
              (replicate (Z.to_nat prev_size) false)) as Hp1.
  { unfold pass1. rewrite (pass1_while_scan _ _ _ _ _ _ _ _ 0);
      [by rewrite Z.sub_0_r|done..|lia]. }
  split.
  - intros Hin.
    destruct (scan1_run k table_index entry_size cur disk table_size prev_size)
      as (next & Hscan & Hlnext & Hmarked & _); [lia|done..|].
    destruct (pass2_while_run fuel k table_index entry_size cur next disk
                table_size rbs
                (SortManager.make (memory_size - rbs) nb lnb entry_size (k + 1)))
      as (p2 & Hp2 & _); [done..|].
    exists next, p2. split; [congruence|done].
  - intros Hnot. rewrite Hp1.
    destruct (scan1 _ _ _ _ _ _ _ _) as [next|f|] eqn:Hscan.
    + exfalso. apply Hnot. apply Forall_forall.
      intros j [Hj Hret]%elem_of_kept_from.
      apply scan1_inv in Hscan as (_ & Hb & _); [|done].
      rewrite length_replicate, !Z2Nat.id in Hb by lia.
      destruct (Hb j ltac:(lia) Hret) as [?|Hwrap]; [done|].
      pose proof (fields_no_wrap k table_index
                    (disk_entry disk entry_size j) Hk Hko). lia.
    + by apply scan1_fault in Hscan as ->.
    + by apply scan1_fuel in Hscan.
Qed.

(** *** Where the assertion can fail *)

Lemma no_assert_bind {A B : Type} (m : outcome A) (f : A → outcome B) :
  no_assert m → (∀ a, m = Done a → no_assert (f a)) → no_assert (obind m f).
Proof.
  unfold no_assert. destruct m as [a|e|]; simpl; intros Hm Hf;
    [by apply Hf|intros [= ->]; by apply Hm|done].
Qed.

Lemma no_assert_Done {A : Type} (a : A) : no_assert (Done a).
Proof. done. Qed.

Lemma no_assert_bitfield_get (bf : bitfield) i : no_assert (bitfield_get bf i).
Proof.
  unfold no_assert, bitfield_get.
  destruct (0 <=? i); [destruct (bf !! _)|]; done.
Qed.

Lemma no_assert_bitfield_set (bf : bitfield) i : no_assert (bitfield_set bf i).
Proof. unfold no_assert, bitfield_set. destruct (_ && _); done. Qed.

Lemma no_assert_vector_get {A : Type} (v : list A) i : no_assert (vector_get v i).
Proof.
  unfold no_assert, vector_get.
  destruct (0 <=? i); [destruct (v !! _)|]; done.
Qed.

Lemma no_assert_Read d begin len : no_assert (FileDisk.Read d begin len).
Proof. unfold no_assert, FileDisk.Read. destruct (_ && _); done. Qed.

Lemma no_assert_lookup (bf : bitfield) pos offset :
  no_assert (bitfield_index.lookup bf pos offset).
Proof.
  unfold bitfield_index.lookup.
  apply no_assert_bind; [apply no_assert_bitfield_get|]. intros b1 _.
  apply no_assert_bind; [apply no_assert_bitfield_get|]. intros b2 _.
  destruct (b1 && b2); done.
Qed.

Lemma no_assert_pass1_entry k table_index cur read_index entry bf :
  no_assert (pass1_entry k table_index cur read_index entry bf).
Proof.
  intros Hf. by apply pass1_entry_fault in Hf.
Qed.

Lemma no_assert_pass1_for k table_index entry_size cur buffer (n : nat) i
    read_index bf :
  no_assert (pass1_for k table_index entry_size cur buffer n i read_index bf).
Proof.
  revert i read_index bf. induction n as [|n IH]; intros i read_index bf;
    cbn [pass1_for]; [done|].
  apply no_assert_bind; [apply no_assert_pass1_entry|]. intros; apply IH.
Qed.

Lemma no_assert_pass1_while (fuel : nat) k table_index entry_size cur disk
    table_size rbs read_index read_cursor bf :
  no_assert (pass1_while fuel k table_index entry_size cur disk table_size rbs
               read_index read_cursor bf).
Proof.
  revert read_index read_cursor bf.
  induction fuel as [|fuel IH]; intros read_index read_cursor bf;
    cbn [pass1_while]; destruct (_ <? _); try done.
  apply no_assert_bind; [apply no_assert_Read|]. intros buffer _.
  apply no_assert_bind; [apply no_assert_pass1_for|]. intros [ri bf'] _.
  apply IH.
Qed.

Lemma no_assert_pass2_entry k table_index entry_size cur next i read_index st :
  (table_index ≠ 7 → assertion_holds k entry_size) →
  no_assert (pass2_entry k table_index entry_size cur next i read_index st).
Proof.
  intros Hassert. rewrite pass2_entry_unfold.
  apply no_assert_bind.
  { unfold pass2_fields. destruct (_ =? _); [done|].
    apply no_assert_bind; [apply no_assert_bitfield_get|].
    intros []; done. }
  intros [[[f7 pos] off]|] _; [|done].
  apply no_assert_bind; [apply no_assert_lookup|]. intros [pos' off'] _.
  destruct (table_index =? 7) eqn:E7; [done|].
  unfold assertion_holds in Hassert. specialize (Hassert ltac:(lia)).
  by destruct (_ <=? _) eqn:E; [|lia].
Qed.

Lemma no_assert_pass2_for k table_index entry_size cur next (n : nat) i
    read_index st :
  (table_index ≠ 7 → assertion_holds k entry_size) →
  no_assert (pass2_for k table_index entry_size cur next n i read_index st).
Proof.
  intros Hassert. revert i read_index st.
  induction n as [|n IH]; intros i read_index st; cbn [pass2_for]; [done|].
  apply no_assert_bind; [by apply no_assert_pass2_entry|]. intros; apply IH.
Qed.

Lemma no_assert_pass2_while (fuel : nat) k table_index entry_size cur next
    table_size rbs read_index read_cursor st :
  (table_index ≠ 7 → assertion_holds k entry_size) →
  no_assert (pass2_while fuel k table_index entry_size cur next table_size rbs
               read_index read_cursor st).
Proof.
  intros Hassert. revert read_index read_cursor st.
  induction fuel as [|fuel IH]; intros read_index read_cursor st;
    cbn [pass2_while]; destruct (_ <? _); try done.
  apply no_assert_bind; [apply no_assert_Read|]. intros buffer _.
  apply no_assert_bind; [by apply no_assert_pass2_for|]. intros [ri st'] _.
  apply IH.
Qed.

Lemma no_assert_write_sorted (n : nat) entry_size sm i disk :
  no_assert (write_sorted n entry_size sm i disk).
Proof.
  revert i disk. induction n as [|n IH]; intros i disk; cbn [write_sorted];
    [done|].
  apply no_assert_bind; [|intros; apply IH].
  unfold SortManager.ReadEntry. by destruct (_ !! _).
Qed.

(** C9. When the entry width of a table [i] in 2..6 is
    [GetMaxEntrySize k i false] and that width accommodates the
    [(k + 1) + k + kOffsetSize] bits of a sorted entry, the assertion of the
    second scan holds for every entry it emits: the size of the assembled
    entry is within the width, and neither the second scan nor the
    iteration as a whole ends in the assertion's failure. *)
Theorem C9_assertion_unreachable (fuel : nat) table_sizes k memory_size nb lnb
    table_index st :
  let entry_size := GetMaxEntrySize k table_index false in
  2 ≤ table_index ≤ 6 →
  (k + 1) + k + kOffsetSize ≤ entry_size * 8 →
  (∀ write_counter entry_pos entry_offset,
     Bits.GetSize (new_entry_fields k write_counter entry_pos entry_offset)
     ≤ entry_size * 8)
  ∧ (∀ cur next table_size rbs read_index read_cursor p2,
       pass2_while fuel k table_index entry_size cur next table_size rbs
         read_index read_cursor p2 ≠ Fault AssertionFailed)
  ∧ backpropagate_table fuel table_sizes k memory_size nb lnb table_index st
    ≠ Fault AssertionFailed.
Proof.
  intros entry_size Hti Hwidth.
  assert (table_index ≠ 7 → assertion_holds k entry_size) as Hassert
    by (intros _; exact Hwidth).
  split; [|split].
  - intros. by rewrite new_entry_fields_size.
  - intros. by apply no_assert_pass2_while.
  - unfold backpropagate_table. fold entry_size.
    apply no_assert_bind; [apply no_assert_vector_get|]. intros prev_size _.
    apply no_assert_bind; [apply no_assert_vector_get|]. intros table_size _.
    destruct (_ <=? 0); [done|].
    apply no_assert_bind; [apply no_assert_vector_get|]. intros disk _.
    apply no_assert_bind; [apply no_assert_pass1_while|]. intros next _.
    apply no_assert_bind; [by apply no_assert_pass2_while|]. intros p2 _.
    destruct (negb _); [|done].
    apply no_assert_bind; [apply no_assert_write_sorted|]. done.
Qed.

(** C8. For a table index [i] in 2..6 the two scans of table [i] go through
    the entries in the same order with the same running index: both are
    runs over [kept i cur table_size], the indices in file order of the
    entries whose bit is set in the current Liveness Set.  The first scan
    marks the references of exactly these entries; the second hands exactly
    these entries to the sort stage, in that order. *)
Theorem C8_two_scans_agree (fuel : nat) k memory_size nb lnb table_index cur
    disk table_size prev_size :
  let entry_size := GetMaxEntrySize k table_index false in
  let rbs := read_buffer_size memory_size entry_size in
  let survivors := kept table_index cur table_size in
  2 ≤ table_index ≤ 6 →
  0 < entry_size → entry_size ≤ memory_size / 2 →
  0 ≤ table_size ≤ Z.of_nat fuel → 0 ≤ prev_size →
  table_size * entry_size ≤ Z.of_nat (length disk) →
  Z.of_nat (length cur) = table_size →
  assertion_holds k entry_size →
  Forall (in_bounds k table_index entry_size disk prev_size) survivors →
  (∀ e, e ∈ survivors ↔ 0 ≤ e < table_size ∧ cur !! Z.to_nat e = Some true)
  ∧ ∃ next p2,
      pass1_while fuel k table_index entry_size cur disk table_size rbs 0 0
        (replicate (Z.to_nat prev_size) false) = Done next
      ∧ ofold (mark_references k table_index entry_size disk) survivors
          (replicate (Z.to_nat prev_size) false) = Done next
      ∧ pass2_while fuel k table_index entry_size cur next table_size rbs 0 0
          (mkPass2 [] disk
             (SortManager.make (memory_size - rbs) nb lnb entry_size (k + 1))
             0) = Done p2
      ∧ SortManager.cache (p2_sort_manager p2)
        = emitted k table_index entry_size disk next 0 survivors
      ∧ p2_write_counter p2 = Z.of_nat (length survivors).
Proof.
  intros entry_size rbs survivors Hti Hes Hmem Hfuel Hprev0 Hlen Hcur Hassert
    Hin.
  pose proof (read_buffer_size_ge memory_size entry_size Hes Hmem) as Hge.
  pose proof (read_buffer_size_mod memory_size entry_size Hes) as Hmod.
  fold rbs in Hge, Hmod.
  split.
  - intros e. unfold survivors, kept. rewrite elem_of_kept_from.
    unfold retained. split.
    + intros [? [?|?]]; [lia|]. split; [lia|done].
    + intros [? ?]. split; [lia|by right].
  - destruct (scan1_run k table_index entry_size cur disk table_size prev_size)
      as (next & Hscan & Hlnext & Hmarked & _); [lia|done|done|done|].
    destruct (pass2_while_run fuel k table_index entry_size cur next disk
                table_size rbs
                (SortManager.make (memory_size - rbs) nb lnb entry_size (k + 1)))
      as (p2 & Hp2 & Hwc & Hother & _); [done|done|done|done|done|done|lia|done|done|].
    destruct (Hother ltac:(lia)) as [_ Hsm].
    exists next, p2. split; [|split; [|split; [done|split; [|done]]]].
    + rewrite (pass1_while_scan _ _ _ _ _ _ _ _ 0);
        [by rewrite Z.sub_0_r|done..|lia].
    + rewrite <- Hscan. unfold survivors, kept.
      rewrite <- (Z2Nat.id table_size) at 1 by lia.
      symmetry. apply scan1_kept; [done|]. lia.
    + by rewrite Hsm.
Qed.

(** *** Compaction of table 1 *)

Lemma retained_not7 table_index cur j :
  table_index ≠ 7 →
  retained table_index cur j ↔ cur !! Z.to_nat j = Some true.
Proof. unfold retained. intros. split; [intros [?|?]; [lia|done]|by right]. Qed.

Lemma length_kept_from_popcount table_index cur read_index (n : nat) :
  table_index ≠ 7 → 0 ≤ read_index →
  Z.of_nat (length (kept_from table_index cur read_index (Z.of_nat n)))
  = popcount (take n (drop (Z.to_nat read_index) cur)).
Proof.
  intros H7. revert read_index. induction n as [|n IH]; intros read_index Hri.
  - by rewrite kept_from_nil.
  - destruct (cur !! Z.to_nat read_index) as [b|] eqn:Hb.
    + rewrite (drop_S _ _ _ Hb). cbn [take popcount].
      replace (S (Z.to_nat read_index)) with (Z.to_nat (read_index + 1)) by lia.
      rewrite <- IH by lia.
      replace (Z.of_nat n) with (Z.of_nat (S n) - 1) by lia.
      destruct b.
      * rewrite kept_from_cons_retained; [simpl length; lia|lia|].
        by apply retained_not7.
      * rewrite kept_from_cons_dropped; [lia|lia|].
        rewrite retained_not7 by done. congruence.
    + rewrite drop_ge by (by apply lookup_ge_None).
      rewrite take_nil. cbn [popcount].
      destruct (kept_from table_index cur read_index (Z.of_nat (S n)))
        as [|j l] eqn:E; [done|].
      assert (j ∈ kept_from table_index cur read_index (Z.of_nat (S n)))
        as [Hj Hr]%elem_of_kept_from by (rewrite E; left).
      apply retained_not7 in Hr; [|done].
      apply lookup_ge_None in Hb. apply lookup_lt_Some in Hr. lia.
Qed.

Lemma length_kept_popcount table_index cur table_size :
  table_index ≠ 7 → Z.of_nat (length cur) = table_size →
  Z.of_nat (length (kept table_index cur table_size)) = popcount cur.
Proof.
  intros H7 Hlen. unfold kept.
  rewrite <- (Z2Nat.id table_size) by lia.
  rewrite length_kept_from_popcount by done.
  change (Z.to_nat 0) with 0%nat. rewrite drop_0, take_ge by lia. done.
Qed.

Lemma kept_from_sorted table_index cur read_index (n : nat) :
  StronglySorted Z.lt (kept_from table_index cur read_index (Z.of_nat n)).
Proof.
  revert read_index. induction n as [|n IH]; intros read_index.
  - rewrite kept_from_nil by done. constructor.
  - destruct (decide (retained table_index cur read_index)) as [Hr|Hr].
    + rewrite kept_from_cons_retained by (done || lia).
      replace (Z.of_nat (S n) - 1) with (Z.of_nat n) by lia.
      constructor; [apply IH|]. apply Forall_forall.
      intros j [Hj _]%elem_of_kept_from. lia.
    + rewrite kept_from_cons_dropped by (done || lia).
      replace (Z.of_nat (S n) - 1) with (Z.of_nat n) by lia. apply IH.
Qed.

Lemma compact_for_spec (n : nat) entry_size cur (disk0 : FileDisk.t)
    read_counter st :
  0 < entry_size → 0 ≤ read_counter →
  read_counter + Z.of_nat n ≤ Z.of_nat (length cur) →
  (read_counter + Z.of_nat n) * entry_size ≤ Z.of_nat (length disk0) →
  c_write_cursor st = c_write_counter st * entry_size →
  0 ≤ c_write_counter st ≤ read_counter →
  length (c_disk st) = length disk0 →
  drop (Z.to_nat (read_counter * entry_size)) (c_disk st)
  = drop (Z.to_nat (read_counter * entry_size)) disk0 →
  let K := kept_from 1 cur read_counter (Z.of_nat n) in
  let wc := c_write_counter st + Z.of_nat (length K) in
  ∃ d',
    compact_for n entry_size cur read_counter (read_counter * entry_size) st
    = Done (mkCompact d' wc (wc * entry_size))
    ∧ length d' = length disk0
    ∧ take (Z.to_nat (wc * entry_size)) d'
      = take (Z.to_nat (c_write_counter st * entry_size)) (c_disk st)
        ++ concat (disk_entry disk0 entry_size <$> K).
Proof.
  intros Hes. revert read_counter st.
  induction n as [|n IH];
    intros read_counter [d wc0 wcur] Hrc Hcur Hlen Hwcur Hwc Hld Hdrop;
    cbn [c_disk c_write_counter c_write_cursor] in *; subst wcur.
  - rewrite kept_from_nil by done. cbn [compact_for length fmap concat].
    exists d. rewrite Z.add_0_r, app_nil_r. done.
  - cbn [compact_for c_disk c_write_counter c_write_cursor].
    destruct (lookup_lt_is_Some_2 cur (Z.to_nat read_counter)) as [b Hb];
      [lia|].
    rewrite (bitfield_get_Done _ _ b) by done. cbn [obind].
    assert (drop (Z.to_nat ((read_counter + 1) * entry_size)) d
            = drop (Z.to_nat ((read_counter + 1) * entry_size)) disk0) as Hdrop'.
    { replace (Z.to_nat ((read_counter + 1) * entry_size))
        with (Z.to_nat (read_counter * entry_size) + Z.to_nat entry_size)%nat
        by nia.
      by rewrite <- !drop_drop, Hdrop. }
    replace (read_counter * entry_size + entry_size)
      with ((read_counter + 1) * entry_size) by lia.
    replace (Z.of_nat n) with (Z.of_nat (S n) - 1) in IH by lia.
    assert ((read_counter + 1) * entry_size ≤ Z.of_nat (length disk0)) as Hle1.
    { etrans; [|exact Hlen]. apply Z.mul_le_mono_nonneg_r; lia. }
    assert (0 ≤ read_counter * entry_size) as Hge0 by nia.
    destruct b; cbn [negb obind].
    + rewrite (kept_from_cons_retained 1 cur read_counter (Z.of_nat (S n)));
        [|lia|by apply retained_not7].
      rewrite Read_Done by lia. cbn [obind].
      assert (take (Z.to_nat entry_size)
                (drop (Z.to_nat (read_counter * entry_size)) d)
              = disk_entry disk0 entry_size read_counter) as He
        by (by rewrite Hdrop).
      rewrite He.
      pose proof (length_disk_entry disk0 entry_size read_counter Hrc
                    ltac:(lia) ltac:(nia)) as Hle.
      set (e := disk_entry disk0 entry_size read_counter) in *.
      set (d1 := if negb (wc0 * entry_size =? read_counter * entry_size)
                 then FileDisk.Write d (wc0 * entry_size) e else d).
      assert (length d1 = length disk0
              ∧ drop (Z.to_nat ((read_counter + 1) * entry_size)) d1
                = drop (Z.to_nat ((read_counter + 1) * entry_size)) disk0
              ∧ take (Z.to_nat ((wc0 + 1) * entry_size)) d1
                = take (Z.to_nat (wc0 * entry_size)) d ++ e) as (Hl1 & Hd1 & Ht1).
      { unfold d1. destruct (_ =? _) eqn:E; cbn [negb].
        - assert (wc0 = read_counter) as -> by nia.
          split; [done|]. split; [done|].
          replace (Z.to_nat ((read_counter + 1) * entry_size))
            with (Z.to_nat (read_counter * entry_size)
                  + Z.to_nat entry_size)%nat by nia.
          by rewrite <- take_take_drop, He.
        - assert (wc0 < read_counter) by nia.
          rewrite Write_store by nia.
          split; [rewrite length_buffer_store; nia|]. split.
          + rewrite drop_buffer_store_after by nia. done.
          + replace (Z.to_nat ((wc0 + 1) * entry_size))
              with (Z.to_nat (wc0 * entry_size) + length e)%nat by nia.
            apply take_buffer_store; nia. }
      destruct (IH (read_counter + 1)
                  (mkCompact d1 (wc0 + 1) (wc0 * entry_size + entry_size)))
        as (d' & Hrun & Hld' & Htake);
        cbn [c_disk c_write_counter c_write_cursor] in *;
        [lia|lia|nia|lia|lia|done|done|].
      rewrite Hrun. exists d'. cbn [length].
      replace (wc0 + Z.of_nat (S (length
                 (kept_from 1 cur (read_counter + 1) (Z.of_nat (S n) - 1)))))
        with (wc0 + 1 + Z.of_nat (length
                 (kept_from 1 cur (read_counter + 1) (Z.of_nat (S n) - 1))))
        by lia.
      split; [done|]. split; [done|].
      rewrite Htake, Ht1, fmap_cons. cbn [concat]. by rewrite <- app_assoc.
    + rewrite (kept_from_cons_dropped 1 cur read_counter (Z.of_nat (S n)));
        [|lia|rewrite retained_not7 by done; congruence].
      destruct (IH (read_counter + 1) (mkCompact d wc0 (wc0 * entry_size)))
        as (d' & Hrun & Hld' & Htake);
        cbn [c_disk c_write_counter c_write_cursor] in *;
        [lia|lia|nia|done|lia|done|done|].
      rewrite Hrun. by exists d'.
Qed.

Lemma compact_table1_spec entry_size table_size cur (disk : FileDisk.t) :
  0 < entry_size → 0 ≤ table_size →
  Z.of_nat (length cur) = table_size →
  table_size * entry_size ≤ Z.of_nat (length disk) →
  compact_table1 entry_size table_size cur disk
  = Done (concat (disk_entry disk entry_size <$> kept 1 cur table_size),
          popcount cur).
Proof.
  intros Hes Hts Hcur Hlen. unfold compact_table1.
  destruct (compact_for_spec (Z.to_nat table_size) entry_size cur disk 0
              (mkCompact disk 0 0))
    as (d' & Hrun & Hld & Htake);
    cbn [c_disk c_write_counter c_write_cursor] in *;
    [done|done|lia|lia|done|done|done|done|].
  change (0 * entry_size) with 0 in *. rewrite Hrun. cbn [obind].
  cbn [c_disk c_write_counter c_write_cursor].
  rewrite Z2Nat.id in * by done. fold (kept 1 cur table_size) in *.
  rewrite Z.add_0_l in *.
  rewrite (length_kept_popcount 1 cur table_size) in * by done.
  change (Z.to_nat 0) with 0%nat in Htake. rewrite take_0 in Htake.
  cbn [app] in Htake. f_equal. f_equal.
  unfold FileDisk.Truncate. rewrite Htake.
  pose proof (popcount_range cur).
  replace (Z.to_nat (popcount cur * entry_size) - length d')%nat with 0%nat
    by nia.
  by rewrite app_nil_r.
Qed.

(** *** The phase on valid tables *)

Lemma ofold_mark_references k table_index entry_size disk l bf :
  Forall (in_bounds k table_index entry_size disk (Z.of_nat (length bf))) l →
  ofold (mark_references k table_index entry_size disk) l bf
  = Done (fold_left
            (λ bf j,
               let entry := disk_entry disk entry_size j in
               let pos := entry_pos k table_index entry in
               let sum := wrap64 (pos + entry_offset k table_index entry) in
               <[Z.to_nat sum := true]> (<[Z.to_nat pos := true]> bf))
            l bf).
Proof.
  revert bf. induction l as [|j l IH]; intros bf Hin; [done|].
  apply Forall_cons in Hin as [Hj Hl]. cbn [ofold fold_left].
  unfold mark_references at 1. unfold in_bounds in Hj. cbn zeta in Hj.
  pose proof (entry_pos_range k table_index (disk_entry disk entry_size j)).
  pose proof (entry_offset_range k table_index (disk_entry disk entry_size j)).
  pose proof (wrap64_range (entry_pos k table_index (disk_entry disk entry_size j)
                + entry_offset k table_index (disk_entry disk entry_size j))).
  pose proof (wrap64_le (entry_pos k table_index (disk_entry disk entry_size j)
                + entry_offset k table_index (disk_entry disk entry_size j))
                ltac:(lia)).
  rewrite bitfield_set_Done by lia. cbn [obind].
  rewrite bitfield_set_Done by (rewrite length_insert; lia). cbn [obind].
  apply IH. by rewrite !length_insert.
Qed.

Lemma scan1_next_set k table_index entry_size cur disk table_size prev_size :
  0 ≤ table_size → 0 ≤ prev_size →
  (table_index ≠ 7 → Z.of_nat (length cur) = table_size) →
  Forall (in_bounds k table_index entry_size disk prev_size)
    (kept table_index cur table_size) →
  scan1 k table_index entry_size cur disk (Z.to_nat table_size) 0
    (replicate (Z.to_nat prev_size) false)
  = Done (next_set k table_index entry_size cur disk table_size prev_size).
Proof.
  intros Hts Hprev Hcur Hin.
  rewrite scan1_kept by (done || intros ?%Hcur; lia).
  rewrite Z2Nat.id by done. fold (kept table_index cur table_size).
  apply ofold_mark_references. by rewrite length_replicate, Z2Nat.id.
Qed.

Lemma length_next_set k table_index entry_size cur disk table_size prev_size :
  length (next_set k table_index entry_size cur disk table_size prev_size)
  = Z.to_nat prev_size.
Proof.
  unfold next_set.
  rewrite <- (length_replicate (Z.to_nat prev_size) false) at 2.
  generalize (replicate (Z.to_nat prev_size) false).
  induction (kept table_index cur table_size) as [|j l IH]; intros bf; [done|].
  cbn [fold_left]. rewrite IH. by rewrite !length_insert.
Qed.

Lemma size_of_lookup (table_sizes : list Z) table_index :
  (Z.to_nat table_index < length table_sizes)%nat →
  table_sizes !! Z.to_nat table_index = Some (size_of table_sizes table_index).
Proof.
  intros [x Hx]%lookup_lt_is_Some_2. unfold size_of. by rewrite Hx.
Qed.

Lemma disk_of_lookup (disks : list FileDisk.t) table_index :
  (Z.to_nat table_index < length disks)%nat →
  disks !! Z.to_nat table_index = Some (disk_of disks table_index).
Proof.
  intros [x Hx]%lookup_lt_is_Some_2. unfold disk_of. by rewrite Hx.
Qed.

Lemma current_bitfield_state_after disks table_sizes k memory_size nb lnb n :
  current_bitfield (state_after disks table_sizes k memory_size nb lnb n)
  = current_set disks table_sizes k n.
Proof. by destruct n. Qed.

Lemma length_disks_state_after disks table_sizes k memory_size nb lnb n :
  length (tmp_1_disks (state_after disks table_sizes k memory_size nb lnb n))
  = length disks.
Proof.
  induction n as [|n IH]; [done|]. cbn [state_after tmp_1_disks].
  by rewrite length_insert.
Qed.

Lemma length_sizes_state_after disks table_sizes k memory_size nb lnb n :
  length (new_table_sizes
            (state_after disks table_sizes k memory_size nb lnb n)) = 8%nat.
Proof.
  induction n as [|n IH]; [done|]. cbn [state_after new_table_sizes].
  destruct n; [done|]. by rewrite length_insert.
Qed.

(** The iterations so far have left the files of the tables below alone. *)
Lemma tmp_1_disks_state_after_below disks table_sizes k memory_size nb lnb
    (n i : nat) :
  (n ≤ 7)%nat → (i ≤ 7 - n)%nat →
  tmp_1_disks (state_after disks table_sizes k memory_size nb lnb n) !! i
  = disks !! i.
Proof.
  induction n as [|n IH]; intros Hn Hi; [done|].
  cbn [state_after tmp_1_disks].
  rewrite list_lookup_insert_ne by lia. apply IH; lia.
Qed.

Lemma length_current_set disks table_sizes k (n : nat) :
  0 ≤ size_of table_sizes (7 - Z.of_nat (S n)) →
  Z.of_nat (length (current_set disks table_sizes k (S n)))
  = size_of table_sizes (7 - Z.of_nat (S n)).
Proof.
  intros Hs. cbn [current_set]. rewrite length_next_set.
  replace (7 - Z.of_nat n - 1) with (7 - Z.of_nat (S n)) by lia. lia.
Qed.

(** One iteration on a valid table leads from [state_after n] to
    [state_after (S n)]. *)
Lemma backpropagate_scan_state_after disks table_sizes k memory_size nb lnb
    (n : nat) :
  (n < 6)%nat →
  length table_sizes = 8%nat → length disks = 8%nat →
  (∀ m : nat, (m ≤ n)%nat → valid_table disks table_sizes k m) →
  let table_index := 7 - Z.of_nat n in
  backpropagate_scan table_sizes k
    (sort_cache_size memory_size (GetMaxEntrySize k table_index false))
    nb lnb table_index (state_after disks table_sizes k memory_size nb lnb n)
  = Done (state_after disks table_sizes k memory_size nb lnb (S n)).
Proof.
  intros Hn Hls Hld Hvalid table_index.
  destruct (Hvalid n ltac:(lia)) as (Hes & Hts & Hprev & Hlen & Hfit & Hassert & Hin).
  fold table_index in Hes, Hts, Hprev, Hlen, Hfit, Hassert, Hin.
  set (st := state_after disks table_sizes k memory_size nb lnb n).
  assert (tmp_1_disks st !! Z.to_nat table_index
          = Some (disk_of disks table_index)) as Hdisk.
  { unfold st. rewrite tmp_1_disks_state_after_below by lia.
    apply disk_of_lookup. lia. }
  assert (current_bitfield st = current_set disks table_sizes k n) as Hcur
    by apply current_bitfield_state_after.
  assert (table_index ≠ 7 →
          Z.of_nat (length (current_set disks table_sizes k n))
          = size_of table_sizes table_index) as Hlcur.
  { intros H7. destruct n as [|n]; [unfold table_index in H7; lia|].
    apply length_current_set. exact Hts. }
  pose proof (scan1_next_set k table_index
                (GetMaxEntrySize k table_index false)
                (current_set disks table_sizes k n)
                (disk_of disks table_index) (size_of table_sizes table_index)
                (size_of table_sizes (table_index - 1)) Hts Hprev Hlcur Hin)
    as Hnext.
  destruct n as [|n].
  - change table_index with 7 in *.
    destruct (backpropagate_scan_7 table_sizes k
                (sort_cache_size memory_size (GetMaxEntrySize k 7 false))
                nb lnb st (size_of table_sizes 6) (size_of table_sizes 7)
                (disk_of disks 7))
      as (next & Hscan & ->);
      [apply (size_of_lookup table_sizes 6); lia
      |apply (size_of_lookup table_sizes 7); lia
      |exact Hdisk|done|done|done|done|by apply Hfit|by rewrite Hcur|].
    rewrite Hcur in Hscan. change (7 - 1) with 6 in Hnext.
    rewrite Hnext in Hscan. injection Hscan as <-.
    reflexivity.
  - destruct (backpropagate_scan_other table_sizes k
                (sort_cache_size memory_size
                   (GetMaxEntrySize k table_index false))
                nb lnb table_index st (size_of table_sizes (table_index - 1))
                (size_of table_sizes table_index) (disk_of disks table_index))
      as (next & Hscan & ->);
      [unfold table_index; lia|unfold table_index; lia
      |apply size_of_lookup; unfold table_index; lia
      |apply size_of_lookup; unfold table_index; lia
      |exact Hdisk|done|done|done|done
      |rewrite Hcur; apply Hlcur; unfold table_index; lia
      |apply Hassert; unfold table_index; lia|by rewrite Hcur|].
    rewrite Hcur in Hscan. rewrite Hnext in Hscan. injection Hscan as <-.
    rewrite Hcur. done.
Qed.

Lemma tables_scan_state_after disks table_sizes k memory_size nb lnb
    (m n : nat) :
  (n + m ≤ 6)%nat →
  length table_sizes = 8%nat → length disks = 8%nat →
  (∀ i : nat, (i < n + m)%nat → valid_table disks table_sizes k i) →
  tables_scan m table_sizes k memory_size nb lnb (7 - Z.of_nat n)
    (state_after disks table_sizes k memory_size nb lnb n)
  = Done (state_after disks table_sizes k memory_size nb lnb (n + m)).
Proof.
  revert n. induction m as [|m IH]; intros n Hnm Hls Hld Hvalid.
  - by rewrite Nat.add_0_r.
  - cbn [tables_scan].
    rewrite backpropagate_scan_state_after;
      [|lia|done|done|intros; apply Hvalid; lia].
    cbn [obind].
    replace (7 - Z.of_nat n - 1) with (7 - Z.of_nat (S n)) by lia.
    rewrite IH; [|lia|done|done|intros; apply Hvalid; lia].
    do 2 f_equal. lia.
Qed.

Lemma RunPhase2_scan_valid disks table_sizes k memory_size nb lnb :
  valid_tables disks table_sizes k →
  RunPhase2_scan disks table_sizes k memory_size nb lnb
  = Done (phase_result disks table_sizes k memory_size nb lnb).
Proof.
  intros (Hls & Hld & Hvalid & Hes1 & Hlen1). unfold RunPhase2_scan.
  rewrite (vector_get_Done _ 7 (size_of table_sizes 7));
    [|done|apply (size_of_lookup table_sizes 7); lia].
  cbn [obind].
  pose proof (tables_scan_state_after disks table_sizes k memory_size nb lnb
                6 0 ltac:(lia) Hls Hld ltac:(intros; apply Hvalid; lia)) as Hrun.
  change (7 - Z.of_nat 0) with 7 in Hrun.
  change (mkPhase2 disks _ [])
    with (state_after disks table_sizes k memory_size nb lnb 0).
  rewrite Hrun. cbn [obind Nat.add].
  set (st := state_after disks table_sizes k memory_size nb lnb 6).
  unfold finish_phase.
  rewrite (vector_get_Done _ 1 (size_of table_sizes 1));
    [|done|apply (size_of_lookup table_sizes 1); lia].
  cbn [obind].
  rewrite (vector_get_Done _ 1 (disk_of disks 1)); [|done|].
  2:{ unfold st. rewrite tmp_1_disks_state_after_below by lia.
      apply (disk_of_lookup disks 1). lia. }
  cbn [obind].
  destruct (Hvalid 5%nat ltac:(lia)) as (_ & _ & Hprev & _).
  change (7 - Z.of_nat 5 - 1) with 1 in Hprev.
  rewrite compact_table1_spec; [done|done|done| |done].
  unfold st. rewrite current_bitfield_state_after.
  by apply (length_current_set disks table_sizes k 5).
Qed.

Lemma provisioned_valid fuel disks table_sizes k memory_size :
  length table_sizes = 8%nat → length disks = 8%nat →
  (∀ table_index, 2 ≤ table_index ≤ 7 →
     GetMaxEntrySize k table_index false ≤ memory_size / 2
     ∧ size_of table_sizes table_index ≤ Z.of_nat fuel) →
  (∀ n : nat, (n < 6)%nat → valid_table disks table_sizes k n) →
  ∀ table_index, 2 ≤ table_index ≤ 7 →
    provisioned fuel disks table_sizes k memory_size table_index.
Proof.
  intros Hls Hld Hprov Hvalid table_index Hti.
  destruct (Hprov table_index Hti) as [Hmem Hfuel]. split; [done|].
  intros table_size disk Hts Hdisk.
  rewrite (size_of_lookup table_sizes table_index) in Hts by lia.
  rewrite (disk_of_lookup disks table_index) in Hdisk by lia.
  injection Hts as <-. injection Hdisk as <-. split; [|done].
  destruct (Hvalid (Z.to_nat (7 - table_index)) ltac:(lia))
    as (_ & _ & _ & Hlen & _).
  by rewrite Z2Nat.id, Z.sub_sub_distr, Z.sub_diag, Z.add_0_l in Hlen by lia.
Qed.

(** With half the memory budget holding one entry of every table and fuel
    for one chunk per entry, the phase returns on valid tables, and returns
    [phase_result]. *)
Lemma RunPhase2_valid fuel disks table_sizes k memory_size nb lnb :
  valid_tables disks table_sizes k →
  (∀ table_index, 2 ≤ table_index ≤ 7 →
     GetMaxEntrySize k table_index false ≤ memory_size / 2
     ∧ size_of table_sizes table_index ≤ Z.of_nat fuel) →
  RunPhase2 fuel disks table_sizes k memory_size nb lnb
  = Done (phase_result disks table_sizes k memory_size nb lnb).
Proof.
  intros Hvalid Hprov.
  pose proof Hvalid as (Hls & Hld & Hv & _).
  rewrite RunPhase2_scan_eq.
  - by apply RunPhase2_scan_valid.
  - by apply provisioned_valid.
  - destruct (Hv 0%nat ltac:(lia)) as (_ & _ & _ & _ & Hfit & _).
    by apply Hfit.
Qed.

(** *** Reading the result of the phase *)

Lemma tmp_1_disks_state_after disks table_sizes k memory_size nb lnb (n m : nat) :
  length disks = 8%nat → (m < n)%nat → (n ≤ 7)%nat →
  tmp_1_disks (state_after disks table_sizes k memory_size nb lnb n)
    !! (7 - m)%nat
  = Some (new_disk disks table_sizes k memory_size nb lnb m).
Proof.
  intros Hld. induction n as [|n IH]; intros Hm Hn; [lia|].
  cbn [state_after tmp_1_disks].
  replace (Z.to_nat (7 - Z.of_nat n)) with (7 - n)%nat by lia.
  destruct (decide (m = n)) as [->|Hne].
  - rewrite list_lookup_insert_eq; [done|].
    rewrite length_disks_state_after. lia.
  - rewrite list_lookup_insert_ne by lia. apply IH; lia.
Qed.

Lemma new_table_sizes_state_after disks table_sizes k memory_size nb lnb
    (n m : nat) :
  (0 < m)%nat → (m < n)%nat → (n ≤ 7)%nat →
  new_table_sizes (state_after disks table_sizes k memory_size nb lnb n)
    !! (7 - m)%nat
  = Some (new_size disks table_sizes k m).
Proof.
  intros Hm0. induction n as [|n IH]; intros Hm Hn; [lia|].
  cbn [state_after new_table_sizes].
  replace (Z.to_nat (7 - Z.of_nat n)) with (7 - n)%nat by lia.
  destruct n as [|n]; [lia|].
  destruct (decide (m = S n)) as [->|Hne].
  - rewrite list_lookup_insert_eq; [done|].
    rewrite length_sizes_state_after. lia.
  - rewrite list_lookup_insert_ne by lia. apply IH; lia.
Qed.

Lemma new_table_sizes_state_after_7 disks table_sizes k memory_size nb lnb
    (n : nat) :
  (n ≤ 7)%nat →
  new_table_sizes (state_after disks table_sizes k memory_size nb lnb n)
    !! 7%nat
  = Some (size_of table_sizes 7).
Proof.
  induction n as [|n IH]; intros Hn; [done|].
  cbn [state_after new_table_sizes].
  destruct n as [|n]; [apply IH; lia|].
  rewrite list_lookup_insert_ne by lia. apply IH; lia.
Qed.

(** The loop over the tables, as the source runs it, ends in
    [state_after 6]. *)
Lemma tables_loop_valid fuel disks table_sizes k memory_size nb lnb :
  valid_tables disks table_sizes k →
  (∀ table_index, 2 ≤ table_index ≤ 7 →
     GetMaxEntrySize k table_index false ≤ memory_size / 2
     ∧ size_of table_sizes table_index ≤ Z.of_nat fuel) →
  tables_loop 6 fuel table_sizes k memory_size nb lnb 7
    (mkPhase2 disks (<[7%nat := size_of table_sizes 7]> (replicate 8 0)) [])
  = Done (state_after disks table_sizes k memory_size nb lnb 6).
Proof.
  intros (Hls & Hld & Hv & _) Hprov.
  rewrite (tables_loop_scan 6 fuel disks); [|lia|].
  - apply (tables_scan_state_after disks table_sizes k memory_size nb lnb 6 0);
      [lia|done|done|intros; apply Hv; lia].
  - intros ti Hti. split; [by apply provisioned_valid; [..|lia]|].
    split; [done|]. intros ->.
    destruct (Hv 0%nat ltac:(lia)) as (_ & _ & _ & _ & Hfit & _).
    by apply Hfit.
Qed.

(** Entry [j] of a file made of entries of one width. *)
Lemma buffer_entry_concat (l : list (list byte)) (rest : list byte)
    entry_size (j : nat) e :
  0 < entry_size →
  Forall (λ e, Z.of_nat (length e) = entry_size) l →
  l !! j = Some e →
  buffer_entry (concat l ++ rest) (Z.of_nat j * entry_size) entry_size = e.
Proof.
  intros Hes Hall. revert j. induction Hall as [|x l Hx Hall IH]; intros j Hj;
    [done|].
  unfold buffer_entry. cbn [concat]. rewrite <- app_assoc.
  destruct j as [|j].
  - injection Hj as ->. change (Z.of_nat 0 * entry_size) with 0.
    change (Z.to_nat 0) with 0%nat. rewrite drop_0.
    rewrite take_app_length'; [done|lia].
  - cbn in Hj. rewrite drop_app_ge by nia.
    specialize (IH j Hj). unfold buffer_entry in IH. rewrite <- IH.
    do 2 f_equal. nia.
Qed.

Lemma lookup_disk_entries (d : FileDisk.t) entry_size table_size (j : nat) :
  Z.of_nat j < table_size →
  disk_entries d entry_size 0 table_size !! j
  = Some (disk_entry d entry_size (Z.of_nat j)).
Proof.
  intros Hj. unfold disk_entries.
  rewrite list_lookup_fmap, lookup_seqZ_lt by done. simpl. by rewrite Z.add_0_l.
Qed.

Lemma Forall_length_disk_entries (d : FileDisk.t) entry_size table_size :
  0 < entry_size → table_size * entry_size ≤ Z.of_nat (length d) →
  Forall (λ e, Z.of_nat (length e) = entry_size)
    (disk_entries d entry_size 0 table_size).
Proof.
  intros Hes Hlen. unfold disk_entries. apply Forall_fmap, Forall_forall.
  intros j [Hj1 Hj2]%elem_of_seqZ. simpl. apply length_disk_entry; nia.
Qed.

Lemma tables_loop_state_after fuel disks table_sizes k memory_size nb lnb
    (n : nat) :
  (n ≤ 6)%nat →
  valid_tables disks table_sizes k →
  budget_suffices fuel table_sizes k memory_size →
  tables_loop n fuel table_sizes k memory_size nb lnb 7
    (initial_state disks table_sizes)
  = Done (state_after disks table_sizes k memory_size nb lnb n).
Proof.
  intros Hn (Hls & Hld & Hv & _) Hprov.
  rewrite (tables_loop_scan n fuel disks); [|lia|].
  - apply (tables_scan_state_after disks table_sizes k memory_size nb lnb n 0);
      [lia|done|done|intros; apply Hv; lia].
  - intros ti Hti. split; [by apply provisioned_valid; [..|lia]|].
    split; [done|]. intros ->.
    destruct (Hv 0%nat ltac:(lia)) as (_ & _ & _ & _ & Hfit & _).
    by apply Hfit.
Qed.

Lemma backpropagate_table_state_after fuel disks table_sizes k memory_size nb
    lnb (n : nat) :
  (n < 6)%nat →
  valid_tables disks table_sizes k →
  budget_suffices fuel table_sizes k memory_size →
  backpropagate_table fuel table_sizes k memory_size nb lnb (7 - Z.of_nat n)
    (state_after disks table_sizes k memory_size nb lnb n)
  = Done (state_after disks table_sizes k memory_size nb lnb (S n)).
Proof.
  intros Hn (Hls & Hld & Hv & _) Hprov.
  destruct (Hv n Hn) as (Hes & Hts & Hprev & Hlen & Hfit & _).
  destruct (Hprov (7 - Z.of_nat n) ltac:(lia)) as [Hmem Hfuel].
  rewrite backpropagate_table_scan; [|done| |done].
  - apply (backpropagate_scan_state_after disks table_sizes k memory_size nb
             lnb n); [done..|intros; apply Hv; lia].
  - intros table_size disk Hsz Hd.
    rewrite tmp_1_disks_state_after_below in Hd by lia.
    rewrite size_of_lookup in Hsz by lia.
    rewrite disk_of_lookup in Hd by lia.
    injection Hsz as <-. injection Hd as <-. done.
Qed.

Lemma RunPhase2_unfold fuel disks table_sizes k memory_size nb lnb :
  table_sizes !! 7%nat = Some (size_of table_sizes 7) →
  RunPhase2 fuel disks table_sizes k memory_size nb lnb
  = (st <- tables_loop 6 fuel table_sizes k memory_size nb lnb 7
             (initial_state disks table_sizes) ;;
     finish_phase table_sizes k st).
Proof.
  intros H7. unfold RunPhase2.
  by rewrite (vector_get_Done _ 7 (size_of table_sizes 7)).
Qed.

(** C6. Table 1 is compacted without remapping or sorting.  On valid
    tables the phase returns; with [cur] the Liveness Set the loop over the
    tables ends with, the returned size of table 1 is the population count
    of [cur], the surviving entries are the entries of the file whose bit is
    set, in increasing order of their index, written one after the other
    from offset 0 with their bytes unchanged, and the file is as long as the
    survivor count times the entry width. *)
Theorem C6_table1_compaction (fuel : nat) disks table_sizes k memory_size nb
    lnb :
  valid_tables disks table_sizes k →
  budget_suffices fuel table_sizes k memory_size →
  ∃ st new_sizes new_disks disk',
    tables_loop 6 fuel table_sizes k memory_size nb lnb 7
      (initial_state disks table_sizes) = Done st
    ∧ RunPhase2 fuel disks table_sizes k memory_size nb lnb
      = Done (new_sizes, new_disks)
    ∧ let cur := current_bitfield st in
      let entry_size := GetMaxEntrySize k 1 false in
      let table_size := size_of table_sizes 1 in
      let survivors := kept 1 cur table_size in
      new_sizes !! 1%nat = Some (popcount cur)
      ∧ Z.of_nat (length survivors) = popcount cur
      ∧ (∀ e, e ∈ survivors ↔
              0 ≤ e < table_size ∧ cur !! Z.to_nat e = Some true)
      ∧ StronglySorted Z.lt survivors
      ∧ new_disks !! 1%nat = Some disk'
      ∧ disk' = concat (disk_entry (disk_of disks 1) entry_size <$> survivors)
      ∧ Z.of_nat (length disk') = popcount cur * entry_size.
Proof.
  intros Hvalid Hbudget.
  pose proof Hvalid as (Hls & Hld & Hv & Hes1 & Hlen1).
  pose proof (tables_loop_state_after fuel disks table_sizes k memory_size nb
                lnb 6 ltac:(lia) Hvalid Hbudget) as Hloop.
  pose proof (RunPhase2_valid fuel disks table_sizes k memory_size nb lnb
                Hvalid Hbudget) as Hrun.
  unfold phase_result in Hrun.
  set (st := state_after disks table_sizes k memory_size nb lnb 6) in *.
  assert (current_bitfield st = current_set disks table_sizes k 6) as Hcur
    by apply current_bitfield_state_after.
  destruct (Hv 5%nat ltac:(lia)) as (_ & _ & Hprev & _).
  change (7 - Z.of_nat 5 - 1) with 1 in Hprev.
  pose proof (length_current_set disks table_sizes k 5 Hprev) as Hlcur.
  change (7 - Z.of_nat 6) with 1 in Hlcur.
  eexists st, _, _, _. split; [done|]. split; [exact Hrun|].
  cbn zeta. rewrite Hcur.
  set (cur := current_set disks table_sizes k 6) in *.
  set (K := kept 1 cur (size_of table_sizes 1)).
  assert (Z.of_nat (length K) = popcount cur) as HK
    by (by apply length_kept_popcount).
  split.
  { apply list_lookup_insert_eq. unfold st.
    rewrite length_sizes_state_after. lia. }
  split; [done|]. split.
  { intros e. unfold K, kept. rewrite elem_of_kept_from, retained_not7 by done.
    split; (intros [? ?]; split; [lia|done]). }
  split.
  { unfold K, kept. rewrite <- (Z2Nat.id (size_of table_sizes 1)) by lia.
    apply kept_from_sorted. }
  split.
  { apply list_lookup_insert_eq. unfold st.
    rewrite length_disks_state_after. lia. }
  split; [done|].
  rewrite (length_concat_entries _ (GetMaxEntrySize k 1 false)).
  - rewrite length_fmap. fold cur K. by rewrite HK.
  - apply Forall_fmap, Forall_forall.
    intros j [Hj _]%elem_of_kept_from. simpl.
    apply length_disk_entry; nia.
Qed.

Lemma phase_result_disks disks table_sizes k memory_size nb lnb (m : nat) :
  length disks = 8%nat → (m < 6)%nat →
  (phase_result disks table_sizes k memory_size nb lnb).2 !! (7 - m)%nat
  = Some (new_disk disks table_sizes k memory_size nb lnb m).
Proof.
  intros Hld Hm. unfold phase_result. cbn [snd].
  rewrite list_lookup_insert_ne by lia.
  apply tmp_1_disks_state_after; [done|lia..].
Qed.

Lemma phase_result_sizes disks table_sizes k memory_size nb lnb (m : nat) :
  (0 < m)%nat → (m < 6)%nat →
  (phase_result disks table_sizes k memory_size nb lnb).1 !! (7 - m)%nat
  = Some (new_size disks table_sizes k m).
Proof.
  intros Hm0 Hm. unfold phase_result. cbn [fst].
  rewrite list_lookup_insert_ne by lia.
  apply new_table_sizes_state_after; lia.
Qed.

Lemma phase_result_size_7 disks table_sizes k memory_size nb lnb :
  (phase_result disks table_sizes k memory_size nb lnb).1 !! 7%nat
  = Some (size_of table_sizes 7).
Proof.
  unfold phase_result. cbn [fst].
  rewrite list_lookup_insert_ne by lia.
  apply new_table_sizes_state_after_7; lia.
Qed.

Lemma length_disk_entries (d : FileDisk.t) entry_size read_index n :
  length (disk_entries d entry_size read_index n) = Z.to_nat n.
Proof. unfold disk_entries. by rewrite length_fmap, length_seqZ. Qed.

(** C4. Table 7 is never pruned and its file is never truncated.  On valid
    tables the phase returns; the returned size of table 7 is its original
    size, the file keeps its length, and every entry stands where it stood:
    entry [j] of the new file has the [f7] field of entry [j] of the old
    file, its [pos] and [offset] fields are what the Rank Index of the
    Liveness Set of table 6 returns for the old [pos] and [offset], and the
    bytes behind the three fields, like the file behind the table, are the
    old ones. *)
Theorem C4_table7_rewritten_in_place (fuel : nat) disks table_sizes k
    memory_size nb lnb :
  valid_tables disks table_sizes k →
  budget_suffices fuel table_sizes k memory_size →
  0 ≤ k → 0 ≤ kOffsetSize → size_of table_sizes 6 ≤ 2 ^ 64 →
  let entry_size := GetMaxEntrySize k 7 false in
  let table_size := size_of table_sizes 7 in
  let disk := disk_of disks 7 in
  let field_bytes := Z.to_nat (Util.ByteAlign (k + k + kOffsetSize) / 8) in
  ∃ new_sizes new_disks disk' next,
    RunPhase2 fuel disks table_sizes k memory_size nb lnb
    = Done (new_sizes, new_disks)
    ∧ table_sizes !! 7%nat = Some table_size
    ∧ new_sizes !! 7%nat = Some table_size
    ∧ new_disks !! 7%nat = Some disk'
    ∧ length disk' = length disk
    ∧ drop (Z.to_nat (table_size * entry_size)) disk'
      = drop (Z.to_nat (table_size * entry_size)) disk
    ∧ pass1_while fuel k 7 entry_size [] disk table_size
        (read_buffer_size memory_size entry_size) 0 0
        (replicate (Z.to_nat (size_of table_sizes 6)) false) = Done next
    ∧ ∀ j, 0 ≤ j < table_size →
        let old := disk_entry disk entry_size j in
        let new := disk_entry disk' entry_size j in
        Util.SliceInt64FromBytes new 0 k = Util.SliceInt64FromBytes old 0 k
        ∧ bitfield_index.lookup next
            (Util.SliceInt64FromBytes old k k)
            (Util.SliceInt64FromBytes old (k + k) kOffsetSize)
          = Done (Util.SliceInt64FromBytes new k k,
                  Util.SliceInt64FromBytes new (k + k) kOffsetSize)
        ∧ drop field_bytes new = drop field_bytes old.
Proof.
  intros Hvalid Hbudget Hk Hko Hsz6 entry_size table_size disk field_bytes.
  pose proof Hvalid as (Hls & Hld & Hv & _).
  destruct (Hv 0%nat ltac:(lia))
    as (Hes & Hts & Hprev & Hlen & Hfit & _ & Hin).
  change (7 - Z.of_nat 0) with 7 in *. specialize (Hfit eq_refl).
  change (7 - 1) with 6 in *. cbn [current_set] in Hin.
  fold entry_size table_size disk in Hes, Hts, Hlen, Hfit, Hin.
  destruct (Hbudget 7 ltac:(lia)) as [Hmem Hfuel].
  fold entry_size table_size in Hmem, Hfuel.
  pose proof (RunPhase2_valid fuel disks table_sizes k memory_size nb lnb
                Hvalid Hbudget) as Hrun.
  destruct (scan1_run k 7 entry_size [] disk table_size (size_of table_sizes 6))
    as (next & Hscan & Hlnext & Hmarked & _); [done|done|done|done|].
  assert (next = current_set disks table_sizes k 1) as Hnext.
  { pose proof (scan1_next_set k 7 entry_size [] disk table_size
                  (size_of table_sizes 6) Hts Hprev ltac:(done) Hin) as E.
    rewrite Hscan in E. by injection E. }
  set (disk' := concat (rewritten7 k next
                          <$> disk_entries disk entry_size 0 table_size)
                ++ drop (Z.to_nat (table_size * entry_size)) disk).
  assert (new_disk disks table_sizes k memory_size nb lnb 0 = disk') as Hnew
    by (unfold disk'; rewrite Hnext; reflexivity).
  pose proof (Forall_length_disk_entries disk entry_size table_size Hes Hlen)
    as Hall.
  assert (Forall (λ e, Z.of_nat (length e) = entry_size)
            (rewritten7 k next <$> disk_entries disk entry_size 0 table_size))
    as Hall'.
  { apply Forall_fmap. eapply Forall_impl; [exact Hall|].
    intros e He. by apply length_rewritten7. }
  pose proof (length_concat_entries _ _ Hall') as Hlc.
  rewrite length_fmap, length_disk_entries, Z2Nat.id in Hlc by done.
  exists (phase_result disks table_sizes k memory_size nb lnb).1,
         (phase_result disks table_sizes k memory_size nb lnb).2, disk', next.
  split; [by rewrite Hrun; destruct (phase_result _ _ _ _ _ _)|].
  split; [apply (size_of_lookup table_sizes 7); lia|].
  split; [apply phase_result_size_7|].
  split.
  { rewrite <- Hnew.
    apply (phase_result_disks disks table_sizes k memory_size nb lnb 0);
      [done|lia]. }
  split.
  { unfold disk'. rewrite length_app, length_drop. lia. }
  split.
  { unfold disk'. rewrite drop_app_length'; [done|lia]. }
  split.
  { rewrite (pass1_while_scan _ _ _ _ _ _ _ _ 0);
      [by rewrite Z.sub_0_r|done| | |done|done|lia].
    - by apply read_buffer_size_ge.
    - by apply read_buffer_size_mod. }
  intros j Hj old new.
  assert (new = rewritten7 k next old) as Hnewj.
  { unfold new, disk', disk_entry.
    rewrite <- (Z2Nat.id j) at 1 by lia.
    apply buffer_entry_concat; [done|done|].
    rewrite list_lookup_fmap, lookup_disk_entries by lia.
    by rewrite Z2Nat.id by lia. }
  assert (Z.of_nat (length old) = entry_size) as Hlold
    by (apply length_disk_entry; nia).
  destruct (rewritten7_fields k next old entry_size Hk Hko Hes Hfit Hlold)
    as (F1 & F2 & F3).
  rewrite <- Hnewj in F1, F2, F3.
  assert (j ∈ kept 7 [] table_size) as Hjk
    by (apply elem_of_kept_from; split; [lia|by left]).
  destruct (Hmarked j Hjk) as [Hm1 Hm2]. fold old in Hm1, Hm2.
  rewrite Forall_forall in Hin. specialize (Hin j Hjk).
  unfold in_bounds in Hin. fold old in Hin. cbn zeta in Hin.
  pose proof (entry_pos_range k 7 old) as Hp.
  pose proof (entry_offset_range k 7 old) as Ho.
  assert (wrap64 (entry_pos k 7 old + entry_offset k 7 old)
          = entry_pos k 7 old + entry_offset k 7 old) as Hsum
    by (apply wrap64_small; lia).
  rewrite Hsum in *.
  pose proof (SliceInt64FromBytes_bound old 0 k Hk) as Bf.
  pose proof (SliceInt64FromBytes_range old 0 k) as Bf'.
  pose proof (SliceInt64FromBytes_bound old k k Hk) as Bp.
  pose proof (SliceInt64FromBytes_bound old (k + k) kOffsetSize Hko) as Bo.
  pose proof (rank_range next (entry_pos k 7 old) ltac:(lia)) as Rp.
  pose proof (rank_diff_range next (entry_pos k 7 old)
                (entry_pos k 7 old + entry_offset k 7 old) ltac:(lia)) as Ro.
  unfold entry_pos, entry_offset in *. change (7 =? 7) with true in *.
  cbn iota in *.
  split; [|split].
  - rewrite F1. apply wrap64_mod_small; lia.
  - rewrite lookup_marked by (done || lia || by rewrite Hsum).
    rewrite Hsum, F2, F3. do 2 f_equal; symmetry; apply wrap64_mod_small; lia.
  - rewrite Hnewj. unfold rewritten7.
    set (bytes := Bits.ToBytes _).
    assert (length bytes = field_bytes) as Hlb.
    { unfold bytes. rewrite length_ToBytes. reflexivity. }
    rewrite <- Hlb. by rewrite drop_app_length.
Qed.

(** *** Fields of the entries handed to the sort stage *)

Lemma BytesToInt_new_entry k entry_size write_counter pos offset :
  0 ≤ k → 0 ≤ kOffsetSize → 0 < entry_size → assertion_holds k entry_size →
  let e := Bits.ToBytes (new_entry k entry_size write_counter pos offset) in
  let fields := new_entry_fields k write_counter pos offset in
  Z.of_nat (length e) = entry_size
  ∧ BytesToInt e
    = Bits.value fields * 2 ^ (8 * entry_size - Bits.size fields) + 0.
Proof.
  intros Hk Hko Hes Hassert e fields.
  assert (Z.of_nat (length e) = entry_size) as Hlen.
  { unfold e. rewrite length_ToBytes, ByteAlign_new_entry by done.
    rewrite Z.div_mul by lia. lia. }
  split; [done|].
  pose proof (new_entry_fields_wf k write_counter pos offset Hk Hko) as Hwf.
  fold fields in Hwf.
  pose proof (new_entry_fields_size k write_counter pos offset) as Hsz.
  fold fields in Hsz. unfold Bits.GetSize in Hsz.
  unfold assertion_holds in Hassert.
  assert (Bits_wf (new_entry k entry_size write_counter pos offset)
          ∧ Bits.value (new_entry k entry_size write_counter pos offset)
            * 2 ^ (8 * entry_size
                   - Bits.size (new_entry k entry_size write_counter pos offset))
            = Bits.value fields * 2 ^ (8 * entry_size - Bits.size fields))
    as [Hwf' Hval].
  { unfold new_entry. fold fields. unfold Bits.GetSize.
    destruct (_ <? _) eqn:E.
    - split.
      + apply Bits_wf_append; [done|]. apply Bits_wf_make. lia.
      + cbn [Bits.append Bits.value Bits.size Bits.make].
        rewrite Z.mod_0_l by (apply Z.pow_nonzero; lia).
        replace (8 * entry_size
                 - (Bits.size fields + (entry_size * 8 - Bits.size fields)))
          with 0 by lia.
        rewrite Z.pow_0_r. replace (entry_size * 8) with (8 * entry_size) by lia.
        lia.
    - done. }
  destruct (BytesToInt_ToBytes_app
              (new_entry k entry_size write_counter pos offset) [] Hwf')
    as (R & HE & _ & _ & HR).
  rewrite app_nil_r in HE. fold e in HE. rewrite Hlen in HE.
  rewrite (HR eq_refl) in HE. by rewrite HE, Hval.
Qed.


Lemma emitted_lookup_inv k table_index entry_size disk next write_counter l
    (m : nat) e :
  emitted k table_index entry_size disk next write_counter l !! m = Some e →
  ∃ j, l !! m = Some j
       ∧ e = sorted_entry k table_index entry_size disk next
               (write_counter + Z.of_nat m) j.
Proof.
  intros He.
  destruct (lookup_lt_is_Some_2 l m) as [j Hj].
  { apply lookup_lt_Some in He. by rewrite length_emitted in He. }
  exists j. split; [done|].
  rewrite (emitted_lookup _ _ _ _ _ _ _ _ _ Hj) in He. by injection He.
Qed.


(** *** The parameters of the sort stage *)





(** *** Runs that end *)











(** *** Two runs with different budgets and buckets *)











(** *** Tables on which nothing is dropped *)

Lemma encoded7_fields k F P O (rest : list byte) :
  0 ≤ k → 0 ≤ kOffsetSize →
  let entry := Bits.ToBytes (new_entry7 k F P O) ++ rest in
  Util.SliceInt64FromBytes entry 0 k = wrap64 (F mod 2 ^ k)
  ∧ Util.SliceInt64FromBytes entry k k = wrap64 (P mod 2 ^ k)
  ∧ Util.SliceInt64FromBytes entry (k + k) kOffsetSize
    = wrap64 (O mod 2 ^ kOffsetSize).
Proof.
  intros Hk Hko entry.
  set (b := new_entry7 k F P O).
  pose proof (new_entry7_wf k F P O Hk Hko) as Hwf. fold b in Hwf.
  destruct (BytesToInt_ToBytes_app b rest Hwf) as (R & HE & HR & HS & _).
  fold entry in HE, HR, HS.
  assert (Bits.size b = k + k + kOffsetSize) as Hsz by (simpl; lia).
  assert (Bits.value b
          = ((F mod 2 ^ k) * 2 ^ k + P mod 2 ^ k) * 2 ^ kOffsetSize
            + O mod 2 ^ kOffsetSize) as Hval by (simpl; lia).
  destruct (fields3 (F mod 2 ^ k) (P mod 2 ^ k) (O mod 2 ^ kOffsetSize)
              k k kOffsetSize Hk Hk Hko)
    as (F1 & F2 & F3); [by apply mod_pow_range..|].
  rewrite <- Hval in F1, F2, F3.
  split; [|split].
  - rewrite (SliceInt64FromBytes_packed entry (Bits.value b) (Bits.size b) R)
      by (done || lia).
    rewrite Hsz.
    replace (k + k + kOffsetSize - 0 - k) with (k + kOffsetSize) by lia.
    by rewrite F1.
  - rewrite (SliceInt64FromBytes_packed entry (Bits.value b) (Bits.size b) R)
      by (done || lia).
    rewrite Hsz.
    replace (k + k + kOffsetSize - k - k) with kOffsetSize by lia.
    by rewrite F2.
  - rewrite (SliceInt64FromBytes_packed entry (Bits.value b) (Bits.size b) R)
      by (done || lia).
    rewrite Hsz.
    replace (k + k + kOffsetSize - (k + k) - kOffsetSize) with 0 by lia.
    by rewrite Z.pow_0_r, Z.div_1_r, F3.
Qed.

Lemma new_entry7_mod k F P O :
  new_entry7 k (F mod 2 ^ k) (P mod 2 ^ k) (O mod 2 ^ kOffsetSize)
  = new_entry7 k F P O.
Proof.
  unfold new_entry7, Bits.make. by rewrite !Zmod_mod.
Qed.

(** With every bit of the next Liveness Set live, an entry of table 7 that
    is three packed fields followed by other bytes is rewritten to
    itself. *)
Lemma rewritten7_id k (n : nat) F P O (rest : list byte) :
  0 ≤ k < 64 → 0 ≤ kOffsetSize < 64 →
  let entry := Bits.ToBytes (new_entry7 k F P O) ++ rest in
  entry_pos k 7 entry + entry_offset k 7 entry < Z.of_nat n →
  rewritten7 k (replicate n true) entry = entry.
Proof.
  intros Hk Hko entry Hb.
  pose proof (fields_no_wrap k 7 entry Hk Hko) as Hnw.
  destruct (encoded7_fields k F P O rest) as (E1 & E2 & E3); [lia..|].
  fold entry in E1, E2, E3.
  assert (0 ≤ F mod 2 ^ k < 2 ^ k) as HF by (apply mod_pow_range; lia).
  assert (0 ≤ P mod 2 ^ k < 2 ^ k) as HP by (apply mod_pow_range; lia).
  assert (0 ≤ O mod 2 ^ kOffsetSize < 2 ^ kOffsetSize) as HO
    by (apply mod_pow_range; lia).
  assert (2 ^ k ≤ 2 ^ 64) as Hk64 by (apply Z.pow_le_mono_r; lia).
  assert (2 ^ kOffsetSize ≤ 2 ^ 64) as Hko64 by (apply Z.pow_le_mono_r; lia).
  rewrite wrap64_small in E1, E2, E3 by lia.
  unfold entry_pos, entry_offset in Hb, Hnw. cbn [Z.eqb Pos.eqb] in Hb, Hnw.
  unfold rewritten7, entry_pos, entry_offset. cbn [Z.eqb Pos.eqb].
  rewrite E1, E2, E3 in *.
  rewrite (wrap64_small (P mod 2 ^ k + O mod 2 ^ kOffsetSize)) by lia.
  rewrite !rank_all_true by lia.
  replace (P mod 2 ^ k + O mod 2 ^ kOffsetSize - P mod 2 ^ k)
    with (O mod 2 ^ kOffsetSize) by lia.
  rewrite new_entry7_mod. unfold entry. by rewrite drop_app_length.
Qed.

Lemma filter_all {A : Type} (P : A → Prop) `{!∀ x, Decision (P x)}
    (l : list A) :
  Forall P l → filter P l = l.
Proof.
  induction 1 as [|x l Hx _ IH]; [done|].
  rewrite filter_cons_True by done. by rewrite IH.
Qed.

Lemma kept_all_live table_index table_size :
  kept table_index (replicate (Z.to_nat table_size) true) table_size
  = seqZ 0 table_size.
Proof.
  unfold kept, kept_from. apply filter_all, Forall_forall.
  intros j Hj%elem_of_seqZ. right.
  apply lookup_replicate_2. lia.
Qed.

Lemma concat_disk_entries (d : FileDisk.t) entry_size read_index (n : nat) :
  0 ≤ entry_size → 0 ≤ read_index →
  concat (disk_entries d entry_size read_index (Z.of_nat n))
  = take (n * Z.to_nat entry_size)
      (drop (Z.to_nat (read_index * entry_size)) d).
Proof.
  intros Hes. revert read_index.
  induction n as [|n IH]; intros read_index Hri.
  { by rewrite take_0. }
  unfold disk_entries in *.
  rewrite Nat2Z.inj_succ, seqZ_cons by lia.
  replace (Z.pred (Z.succ (Z.of_nat n))) with (Z.of_nat n) by lia.
  rewrite fmap_cons. cbn [concat].
  rewrite (IH (Z.succ read_index)) by lia.
  unfold disk_entry, buffer_entry.
  replace (Z.to_nat (Z.succ read_index * entry_size))
    with (Z.to_nat (read_index * entry_size) + Z.to_nat entry_size)%nat by lia.
  rewrite <- drop_drop, take_take_drop. f_equal; lia.
Qed.

Lemma concat_disk_entries_all (d : FileDisk.t) entry_size table_size :
  0 ≤ entry_size → 0 ≤ table_size →
  concat (disk_entries d entry_size 0 table_size)
  = take (Z.to_nat (table_size * entry_size)) d.
Proof.
  intros Hes Hts.
  rewrite <- (Z2Nat.id table_size) at 1 by done.
  rewrite concat_disk_entries by lia. rewrite Z.mul_0_l.
  change (Z.to_nat 0) with 0%nat. rewrite drop_0.
  f_equal. lia.
Qed.

(** C2, as amended.  On valid tables on which every Liveness Set comes out
    all live, the phase drops nothing: it returns the size of every table
    1..7 as it was, the file of table 1 is byte for byte what it was (when
    it held nothing after its entries), and so is the file of table 7 when
    its entries are three packed fields (f7, pos, offset) in the layout the
    phase writes.  Nothing of the kind holds of the files of tables 2..6,
    which the phase rewrites in another layout. *)
Theorem C2_all_live_keeps_sizes_and_outer_tables (fuel : nat) disks table_sizes
    k memory_size nb lnb :
  valid_tables disks table_sizes k →
  budget_suffices fuel table_sizes k memory_size →
  0 ≤ k < 64 → 0 ≤ kOffsetSize < 64 →
  (∀ n : nat, (1 ≤ n ≤ 6)%nat →
     current_set disks table_sizes k n
     = replicate (Z.to_nat (size_of table_sizes (7 - Z.of_nat n))) true) →
  (∀ j, 0 ≤ j < size_of table_sizes 7 →
     ∃ F P O rest,
       disk_entry (disk_of disks 7) (GetMaxEntrySize k 7 false) j
       = Bits.ToBytes (new_entry7 k F P O) ++ rest) →
  Z.of_nat (length (disk_of disks 1))
  = size_of table_sizes 1 * GetMaxEntrySize k 1 false →
  ∃ new_sizes new_disks,
    RunPhase2 fuel disks table_sizes k memory_size nb lnb
    = Done (new_sizes, new_disks)
    ∧ (∀ table_index, 1 ≤ table_index ≤ 7 →
         new_sizes !! Z.to_nat table_index
         = table_sizes !! Z.to_nat table_index)
    ∧ new_disks !! 7%nat = disks !! 7%nat
    ∧ new_disks !! 1%nat = disks !! 1%nat.
Proof.
  intros Hvalid Hbudget Hk Hko Hlive Hlayout Hlen1.
  pose proof Hvalid as (Hls & Hld & Hvt & Hes1 & Hd1).
  exists (phase_result disks table_sizes k memory_size nb lnb).1,
    (phase_result disks table_sizes k memory_size nb lnb).2.
  split; [rewrite <- surjective_pairing; by apply RunPhase2_valid|].
  assert (∀ n : nat, (n ≤ 6)%nat → 0 ≤ size_of table_sizes (7 - Z.of_nat n))
    as Hsize.
  { intros n Hn. destruct (decide (n = 6%nat)) as [->|].
    - destruct (Hvt 5%nat ltac:(lia)) as (_ & _ & Hp & _). exact Hp.
    - destruct (Hvt n ltac:(lia)) as (_ & Ht & _). exact Ht. }
  split; [|split].
  - intros table_index Hti.
    rewrite (size_of_lookup table_sizes table_index) by lia.
    destruct (decide (table_index = 7)) as [->|].
    { apply phase_result_size_7. }
    destruct (decide (table_index = 1)) as [->|].
    { unfold phase_result. cbn [fst].
      change (Z.to_nat 1) with 1%nat.
      rewrite list_lookup_insert_eq by (rewrite length_sizes_state_after; lia).
      rewrite (Hlive 6%nat) by lia. rewrite popcount_replicate_true.
      f_equal. change (7 - Z.of_nat 6) with 1.
      specialize (Hsize 6%nat ltac:(lia)). change (7 - Z.of_nat 6) with 1 in Hsize.
      lia. }
    replace (Z.to_nat table_index) with (7 - Z.to_nat (7 - table_index))%nat
      by lia.
    rewrite phase_result_sizes by lia. f_equal. unfold new_size.
    rewrite Hlive by lia. rewrite kept_all_live, length_seqZ.
    specialize (Hsize (Z.to_nat (7 - table_index)) ltac:(lia)).
    rewrite (Z2Nat.id (7 - table_index)) in * by lia.
    replace (7 - (7 - table_index)) with table_index in * by lia. lia.
  - rewrite (phase_result_disks _ _ _ _ _ _ 0) by (done || lia).
    change (disks !! 7%nat) with (disks !! Z.to_nat 7).
    rewrite (disk_of_lookup disks 7) by lia. f_equal.
    unfold new_disk. change (7 - Z.of_nat 0) with 7.
    destruct (Hvt 0%nat ltac:(lia)) as (Hes & Hts & Hps & Hdl & _ & _ & Hib).
    change (7 - Z.of_nat 0) with 7 in Hes, Hts, Hps, Hdl, Hib.
    rewrite kept_7 in Hib. rewrite (Hlive 1%nat) by lia.
    change (7 - Z.of_nat 1) with 6. change (7 - 1) with 6 in Hps, Hib.
    set (entry_size := GetMaxEntrySize k 7 false) in *.
    set (disk := disk_of disks 7) in *.
    set (table_size := size_of table_sizes 7) in *.
    rewrite <- (take_drop (Z.to_nat (table_size * entry_size)) disk) at 3.
    f_equal.
    rewrite <- concat_disk_entries_all by lia. f_equal.
    unfold disk_entries. apply list_eq. intros i.
    rewrite <- list_fmap_compose, !list_lookup_fmap.
    destruct (seqZ 0 table_size !! i) as [j|] eqn:Hj; [|done].
    cbn [fmap option_fmap option_map compose]. f_equal.
    apply list_elem_of_lookup_2 in Hj as Hj'.
    rewrite Forall_forall in Hib. specialize (Hib j Hj').
    apply elem_of_seqZ in Hj'.
    destruct (Hlayout j ltac:(lia)) as (F & P & O & rest & He).
    unfold in_bounds in Hib. cbn zeta in Hib. rewrite He in *.
    apply rewritten7_id; [done..|]. lia.
  - unfold phase_result. cbn [snd].
    rewrite list_lookup_insert_eq by (rewrite length_disks_state_after; lia).
    change (disks !! 1%nat) with (disks !! Z.to_nat 1).
    rewrite (disk_of_lookup disks 1) by lia. f_equal.
    rewrite (Hlive 6%nat) by lia. change (7 - Z.of_nat 6) with 1.
    rewrite kept_all_live.
    specialize (Hsize 6%nat ltac:(lia)). change (7 - Z.of_nat 6) with 1 in Hsize.
    change (disk_entry (disk_of disks 1) (GetMaxEntrySize k 1 false)
              <$> seqZ 0 (size_of table_sizes 1))
      with (disk_entries (disk_of disks 1) (GetMaxEntrySize k 1 false) 0
              (size_of table_sizes 1)).
    rewrite concat_disk_entries_all by lia.
    apply take_ge. lia.
Qed.

(** *** A memory budget smaller than two entries

    With [memory_size / 2 < entry_size] the read buffer holds no entry:
    every chunk is empty, the [for] loop of lines 99-123 does not run and
    [read_index] never advances, so the [while] loop of line 88 does not
    end on a table that has an entry. *)




(** ** Further properties of the phase *)

(** *** The read buffer and the sort cache (lines 82 and 138-139) *)

(** X1. The read buffer is the largest whole number of entries that fits
    half the memory budget, and the sort cache is the rest of the budget
    (at least half of it): the two make up the memory exactly. *)
Theorem read_buffer_size_largest_multiple memory_size entry_size :
  0 ≤ memory_size → 0 < entry_size →
  let rbs := read_buffer_size memory_size entry_size in
  rbs = memory_size / 2 / entry_size * entry_size
  ∧ (∀ n, n * entry_size ≤ memory_size / 2 → n * entry_size ≤ rbs)
  ∧ 0 ≤ rbs ≤ memory_size / 2
  ∧ rbs + sort_cache_size memory_size entry_size = memory_size
  ∧ memory_size / 2 ≤ sort_cache_size memory_size entry_size.
Proof.
  intros Hm Hes rbs. unfold sort_cache_size. fold rbs.
  assert (0 ≤ memory_size / 2) as Hh by (apply Z.div_pos; lia).
  assert (memory_size / 2 ≤ memory_size) as Hle
    by (apply Z.div_le_upper_bound; lia).
  pose proof (Z.div_mod (memory_size / 2) entry_size ltac:(lia)) as Hdm.
  pose proof (Z.mod_pos_bound (memory_size / 2) entry_size Hes) as Hr.
  assert (rbs = memory_size / 2 / entry_size * entry_size) as Hrbs.
  { unfold rbs, read_buffer_size.
    rewrite (Z.mul_comm (memory_size / 2 / entry_size)). lia. }
  split; [done|]. split.
  - intros n Hn. rewrite Hrbs.
    apply Z.mul_le_mono_nonneg_r; [lia|].
    apply Z.div_le_lower_bound; [done|]. by rewrite Z.mul_comm.
  - pose proof (Z.mod_le (memory_size / 2) entry_size Hh Hes).
    pose proof (Z.mul_div_le memory_size 2 ltac:(lia)).
    unfold rbs, read_buffer_size. lia.
Qed.

(** *** A memory budget smaller than two entries, table by table *)


(** *** What the phase leaves alone *)

Lemma backpropagate_table_frame fuel table_sizes k memory_size nb lnb
    table_index st st' :
  backpropagate_table fuel table_sizes k memory_size nb lnb table_index st
  = Done st' →
  1 ≤ table_index
  ∧ length (tmp_1_disks st') = length (tmp_1_disks st)
  ∧ length (new_table_sizes st') = length (new_table_sizes st)
  ∧ (table_index = 7 → new_table_sizes st' = new_table_sizes st)
  ∧ ∀ i : nat, Z.of_nat i ≠ table_index →
      tmp_1_disks st' !! i = tmp_1_disks st !! i
      ∧ new_table_sizes st' !! i = new_table_sizes st !! i.
Proof.
  unfold backpropagate_table.
  intros (prev_size & [Ea1 Ea2]%vector_get_inv & E1)%obind_Done_inv.
  apply obind_Done_inv in E1 as (table_size & [Eb1 Eb2]%vector_get_inv & E2).
  destruct (_ <=? 0) eqn:E; [done|].
  apply obind_Done_inv in E2 as (disk & [Ec1 Ec2]%vector_get_inv & E3).
  apply obind_Done_inv in E3 as (next & Ed & E4).
  apply obind_Done_inv in E4 as (p2 & Ee & E5).
  split; [lia|].
  destruct (table_index =? 7) eqn:E7; cbn [negb] in E5.
  - injection E5 as <-. cbn [tmp_1_disks new_table_sizes].
    rewrite length_insert. repeat split; try done.
    apply list_lookup_insert_ne. lia.
  - apply obind_Done_inv in E5 as (d & _ & [= <-]).
    cbn [tmp_1_disks new_table_sizes]. rewrite !length_insert.
    repeat split; try done; [lia| |]; apply list_lookup_insert_ne; lia.
Qed.

Lemma tables_loop_frame (n : nat) fuel table_sizes k memory_size nb lnb
    table_index st st' :
  tables_loop n fuel table_sizes k memory_size nb lnb table_index st
  = Done st' →
  length (tmp_1_disks st') = length (tmp_1_disks st)
  ∧ length (new_table_sizes st') = length (new_table_sizes st)
  ∧ ∀ i : nat,
      table_index < Z.of_nat i ∨ Z.of_nat i ≤ table_index - Z.of_nat n →
      tmp_1_disks st' !! i = tmp_1_disks st !! i
      ∧ new_table_sizes st' !! i = new_table_sizes st !! i.
Proof.
  revert table_index st. induction n as [|n IH]; intros table_index st.
  { intros [= <-]. done. }
  cbn [tables_loop].
  intros (st1 & (_ & L1 & L2 & _ & F1)%backpropagate_table_frame
          & (L3 & L4 & F2)%IH)%obind_Done_inv.
  split; [congruence|]. split; [congruence|].
  intros i Hi. destruct (F2 i ltac:(lia)) as [-> ->]. apply F1. lia.
Qed.

(** X3. Whenever the phase returns, it returns eight sizes, of which the
    one at index 0 is 0 and the one of table 7 is the original; it returns
    as many files as it was given, and the file at index 0, like any file
    above index 7, is the one it was given. *)
Theorem RunPhase2_frame fuel disks table_sizes k memory_size nb lnb
    new_sizes new_disks :
  RunPhase2 fuel disks table_sizes k memory_size nb lnb
  = Done (new_sizes, new_disks) →
  length new_sizes = 8%nat
  ∧ new_sizes !! 0%nat = Some 0
  ∧ new_sizes !! 7%nat = table_sizes !! 7%nat
  ∧ length new_disks = length disks
  ∧ ∀ i : nat, (i = 0 ∨ 8 ≤ i)%nat → new_disks !! i = disks !! i.
Proof.
  unfold RunPhase2.
  intros (size7 & [_ E7]%vector_get_inv & E1)%obind_Done_inv.
  apply obind_Done_inv in E1 as (st & Eloop & E2).
  apply obind_Done_inv in E2 as (size1 & _ & E3).
  apply obind_Done_inv in E3 as (disk1 & _ & E4).
  apply obind_Done_inv in E4 as ([d w] & _ & [= <- <-]).
  change (tables_loop 6 fuel table_sizes k memory_size nb lnb 7
            (mkPhase2 disks (<[7%nat:=size7]> (replicate 8 0)) []))
    with (st1 <- backpropagate_table fuel table_sizes k memory_size nb lnb 7
                   (mkPhase2 disks (<[7%nat:=size7]> (replicate 8 0)) []) ;;
          tables_loop 5 fuel table_sizes k memory_size nb lnb (7 - 1) st1)
    in Eloop.
  apply obind_Done_inv in Eloop
    as (st1 & (_ & L1 & L2 & S7 & F1)%backpropagate_table_frame
        & (L3 & L4 & F2)%tables_loop_frame).
  specialize (S7 eq_refl). cbn [tmp_1_disks new_table_sizes] in *.
  change (Z.to_nat 1) with 1%nat. rewrite !length_insert.
  split; [by rewrite L4, S7|].
  split.
  { rewrite list_lookup_insert_ne by lia.
    rewrite (proj2 (F2 0%nat ltac:(lia))), S7. done. }
  split.
  { rewrite list_lookup_insert_ne by lia.
    change (Z.to_nat 7) with 7%nat in E7.
    rewrite (proj2 (F2 7%nat ltac:(lia))), S7, E7. done. }
  split; [congruence|].
  intros i Hi. rewrite list_lookup_insert_ne by lia.
  rewrite (proj1 (F2 i ltac:(lia))). apply F1. lia.
Qed.

(** *** Empty tables *)

Lemma pass1_while_done (fuel : nat) k table_index entry_size cur disk
    table_size rbs read_index read_cursor next :
  table_size ≤ read_index →
  pass1_while fuel k table_index entry_size cur disk table_size rbs read_index
    read_cursor next = Done next.
Proof.
  intros Hri. destruct fuel; cbn [pass1_while];
    by rewrite (proj2 (Z.ltb_ge _ _) Hri).
Qed.

Lemma pass2_while_done (fuel : nat) k table_index entry_size cur next
    table_size rbs read_index read_cursor st :
  table_size ≤ read_index →
  pass2_while fuel k table_index entry_size cur next table_size rbs read_index
    read_cursor st = Done st.
Proof.
  intros Hri. destruct fuel; cbn [pass2_while];
    by rewrite (proj2 (Z.ltb_ge _ _) Hri).
Qed.

(** X4. An iteration over a table of size 0 returns whatever the memory
    budget and the fuel, without reading the file: the next Liveness Set
    is all false, the file of a table 2..6 is truncated to nothing and its
    new size is 0; the file of table 7 is left as it is. *)
Theorem backpropagate_table_empty table_sizes k table_index st prev_size disk :
  vector_get table_sizes (table_index - 1) = Done prev_size →
  vector_get table_sizes table_index = Done 0 →
  vector_get (tmp_1_disks st) table_index = Done disk →
  0 < GetMaxEntrySize k table_index false →
  ∀ fuel memory_size nb lnb,
    backpropagate_table fuel table_sizes k memory_size nb lnb table_index st
    = Done (mkPhase2
              (<[Z.to_nat table_index :=
                   if table_index =? 7 then disk else []]> (tmp_1_disks st))
              (if table_index =? 7 then new_table_sizes st
               else <[Z.to_nat table_index := 0]> (new_table_sizes st))
              (replicate (Z.to_nat prev_size) false)).
Proof.
  intros Hp Ht Hd Hes fuel memory_size nb lnb. unfold backpropagate_table.
  rewrite Hp, Ht. cbn [obind].
  rewrite (proj2 (Z.leb_gt _ _)) by lia.
  rewrite Hd. cbn [obind].
  rewrite pass1_while_done by lia. cbn [obind].
  rewrite pass2_while_done by lia.
  cbn [obind p2_write_counter p2_disk p2_sort_manager].
  destruct (table_index =? 7); cbn [negb]; [done|].
  cbn [Z.to_nat write_sorted obind Z.mul].
  unfold FileDisk.Truncate. cbn [Z.to_nat take Nat.sub replicate app]. done.
Qed.

(** *** How many entries survive *)

Lemma popcount_insert_true (bf : bitfield) (i : nat) :
  popcount bf ≤ popcount (<[i := true]> bf) ≤ popcount bf + 1.
Proof.
  revert i. induction bf as [|b bf IH]; intros i; [simpl; lia|].
  destruct i as [|i]; simpl.
  - destruct b; lia.
  - specialize (IH i). lia.
Qed.

Lemma popcount_replicate_false (n : nat) : popcount (replicate n false) = 0.
Proof. induction n as [|n IH]; simpl; [done|]. lia. Qed.

Lemma popcount_next_set k table_index entry_size cur disk table_size prev_size :
  popcount (next_set k table_index entry_size cur disk table_size prev_size)
  ≤ 2 * Z.of_nat (length (kept table_index cur table_size)).
Proof.
  unfold next_set.
  assert (∀ l (bf : bitfield),
            popcount
              (fold_left
                 (λ bf j,
                    let entry := disk_entry disk entry_size j in
                    let pos := entry_pos k table_index entry in
                    let sum :=
                      wrap64 (pos + entry_offset k table_index entry) in
                    <[Z.to_nat sum := true]> (<[Z.to_nat pos := true]> bf))
                 l bf)
            ≤ popcount bf + 2 * Z.of_nat (length l)) as Hfold.
  { induction l as [|j l IH]; intros bf; cbn [fold_left length]; [lia|].
    etrans; [apply IH|]. cbn zeta.
    pose proof (popcount_insert_true bf
                  (Z.to_nat (entry_pos k table_index
                               (disk_entry disk entry_size j)))).
    pose proof (popcount_insert_true
                  (<[Z.to_nat (entry_pos k table_index
                                 (disk_entry disk entry_size j)) := true]> bf)
                  (Z.to_nat (wrap64
                     (entry_pos k table_index (disk_entry disk entry_size j)
                      + entry_offset k table_index
                          (disk_entry disk entry_size j))))).
    lia. }
  etrans; [apply Hfold|]. rewrite popcount_replicate_false. lia.
Qed.

Lemma new_size_popcount disks table_sizes k (n : nat) :
  (0 < n)%nat → 0 ≤ size_of table_sizes (7 - Z.of_nat n) →
  new_size disks table_sizes k n = popcount (current_set disks table_sizes k n).
Proof.
  intros Hn Hs. unfold new_size. destruct n as [|n]; [lia|].
  apply length_kept_popcount; [lia|]. by apply length_current_set.
Qed.

(** X5. On valid tables the phase returns sizes that at most double from
    one table to the table below: every surviving entry of table [i]
    marks at most two entries of table [i - 1], so the new size of table
    [i - 1] is between 0 and twice the new size of table [i], for every
    [i] in 2..7. *)
Theorem RunPhase2_sizes_at_most_double (fuel : nat) disks table_sizes k
    memory_size nb lnb :
  valid_tables disks table_sizes k →
  budget_suffices fuel table_sizes k memory_size →
  ∃ new_sizes new_disks,
    RunPhase2 fuel disks table_sizes k memory_size nb lnb
    = Done (new_sizes, new_disks)
    ∧ ∀ table_index, 2 ≤ table_index ≤ 7 →
        ∃ below above,
          new_sizes !! Z.to_nat (table_index - 1) = Some below
          ∧ new_sizes !! Z.to_nat table_index = Some above
          ∧ 0 ≤ below ≤ 2 * above.
Proof.
  intros Hvalid Hbudget.
  pose proof Hvalid as (Hls & Hld & Hvt & Hes1 & Hd1).
  exists (phase_result disks table_sizes k memory_size nb lnb).1,
    (phase_result disks table_sizes k memory_size nb lnb).2.
  split; [rewrite <- surjective_pairing; by apply RunPhase2_valid|].
  intros table_index Hti.
  set (n := Z.to_nat (7 - table_index)).
  assert (table_index = 7 - Z.of_nat n) as Eti by lia.
  assert (n < 6)%nat as Hn by lia.
  destruct (Hvt n Hn) as (_ & Hts & Hps & _). rewrite <- Eti in Hts, Hps.
  (* the size of the table above *)
  assert (∃ above,
            (phase_result disks table_sizes k memory_size nb lnb).1
              !! Z.to_nat table_index = Some above
            ∧ above
              = Z.of_nat (length (kept table_index
                                    (current_set disks table_sizes k n)
                                    (size_of table_sizes table_index))))
    as (above & Ha & Eabove).
  { destruct (decide (n = 0%nat)) as [E0|E0].
    - replace table_index with 7 by lia.
      eexists. split; [apply phase_result_size_7|].
      rewrite kept_7, length_seqZ.
      replace table_index with 7 in Hts by lia. lia.
    - eexists. split.
      + replace (Z.to_nat table_index) with (7 - n)%nat by lia.
        apply phase_result_sizes; lia.
      + unfold new_size. by rewrite <- Eti. }
  (* the size of the table below *)
  assert (∃ below,
            (phase_result disks table_sizes k memory_size nb lnb).1
              !! Z.to_nat (table_index - 1) = Some below
            ∧ below = popcount (current_set disks table_sizes k (S n)))
    as (below & Hb & Ebelow).
  { destruct (decide (n = 5%nat)) as [E5|E5].
    - replace (table_index - 1) with 1 by lia.
      eexists. split; [|by rewrite E5].
      unfold phase_result. cbn [fst]. change (Z.to_nat 1) with 1%nat.
      apply list_lookup_insert_eq. rewrite length_sizes_state_after. lia.
    - eexists. split.
      + replace (Z.to_nat (table_index - 1)) with (7 - S n)%nat by lia.
        apply phase_result_sizes; lia.
      + apply new_size_popcount; [lia|].
        replace (7 - Z.of_nat (S n)) with (table_index - 1) by lia. done. }
  exists below, above. split; [done|]. split; [done|].
  rewrite Ebelow, Eabove. split; [apply popcount_range|].
  cbn [current_set]. rewrite <- Eti. apply popcount_next_set.
Qed.

(** *** The sorted tables (lines 232-246) *)

Lemma mod_div_pow B c n :
  0 ≤ c → 0 ≤ n → (B mod 2 ^ (c + n)) / 2 ^ c = (B / 2 ^ c) mod 2 ^ n.
Proof.
  intros Hc Hn.
  assert (0 < 2 ^ c) by (apply Z.pow_pos_nonneg; lia).
  assert (0 < 2 ^ n) by (apply Z.pow_pos_nonneg; lia).
  rewrite Z.pow_add_r, Z.rem_mul_r by lia.
  rewrite (Z.mul_comm (2 ^ c)), Z.div_add by lia.
  rewrite Z.div_small by (apply Z.mod_pos_bound; lia). lia.
Qed.

(** The position of an entry in the layout of the sorted tables is the
    leading field of its sort-stage key. *)
Lemma sorted_pos_key k entry_size (e : list byte) :
  0 ≤ k ≤ 64 → 0 ≤ kOffsetSize → assertion_holds k entry_size →
  Z.of_nat (length e) = entry_size →
  Util.SliceInt64FromBytes e (k + 1) k
  = entry_key (k + 1) e / 2 ^ (8 * entry_size - (k + 1) - k).
Proof.
  intros Hk Hko Ha Hlen. unfold Util.SliceInt64FromBytes, entry_key.
  unfold assertion_holds in Ha. rewrite Hlen.
  set (c := 8 * entry_size - (k + 1) - k).
  replace (8 * entry_size - (k + 1)) with (c + k) by lia.
  rewrite mod_div_pow by lia.
  apply wrap64_small.
  pose proof (mod_pow_range (BytesToInt e / 2 ^ c) k ltac:(lia)).
  assert (2 ^ k ≤ 2 ^ 64) by (apply Z.pow_le_mono_r; lia). lia.
Qed.

Lemma key_le_pos k entry_size (e1 e2 : list byte) :
  0 ≤ k ≤ 64 → 0 ≤ kOffsetSize → assertion_holds k entry_size →
  Z.of_nat (length e1) = entry_size → Z.of_nat (length e2) = entry_size →
  key_le (k + 1) e1 e2 →
  Util.SliceInt64FromBytes e1 (k + 1) k ≤ Util.SliceInt64FromBytes e2 (k + 1) k.
Proof.
  intros Hk Hko Ha H1 H2 Hle.
  rewrite !(sorted_pos_key k entry_size) by done.
  apply Z.div_le_mono; [|done]. unfold assertion_holds in Ha.
  apply Z.pow_pos_nonneg; lia.
Qed.

Lemma StronglySorted_lookup_le {A : Type} (R : relation A) (l : list A)
    (a b : nat) x y :
  StronglySorted R l → (a < b)%nat → l !! a = Some x → l !! b = Some y →
  R x y.
Proof.
  intros Hs. revert a b. induction Hs as [|z l Hs IH Hall]; intros a b Hab Ha Hb.
  { done. }
  destruct b as [|b]; [lia|]. destruct a as [|a].
  - injection Ha as ->. rewrite Forall_forall in Hall. apply Hall.
    exact (list_elem_of_lookup_2 l b y Hb).
  - apply (IH a b); [lia|done|done].
Qed.

Lemma disk_entry_concat (l : list (list byte)) entry_size (j : nat) e :
  0 < entry_size →
  Forall (λ e, Z.of_nat (length e) = entry_size) l →
  l !! j = Some e →
  disk_entry (concat l) entry_size (Z.of_nat j) = e.
Proof.
  intros Hes Hall Hj. unfold disk_entry.
  rewrite <- (app_nil_r (concat l)). by apply buffer_entry_concat.
Qed.

(** The file of table [7 - n] after the phase, for a table 2..6: the
    entries the sort stage replays, one after the other. *)
Lemma new_disk_sorted_table disks table_sizes k memory_size nb lnb (n : nat) :
  (0 < n)%nat →
  let table_index := 7 - Z.of_nat n in
  let entry_size := GetMaxEntrySize k table_index false in
  new_disk disks table_sizes k memory_size nb lnb n
  = concat
      (replay (sort_cache_size memory_size entry_size) nb lnb entry_size
         (k + 1)
         (emitted k table_index entry_size (disk_of disks table_index)
            (current_set disks table_sizes k (S n)) 0
            (kept table_index (current_set disks table_sizes k n)
               (size_of table_sizes table_index)))).
Proof. intros Hn. destruct n as [|n]; [lia|done]. Qed.

(** X6. On valid tables the file a table [i] in 2..6 is left with is a
    rearrangement of the entries the second scan handed to the sort stage,
    one after the other from offset 0, each of the entry width: the file
    is as long as the new size of the table times the entry width.  [cur]
    and [next] are the Liveness Sets the iteration starts and ends with. *)
Theorem RunPhase2_sorted_table_content (fuel : nat) disks table_sizes k
    memory_size nb lnb table_index :
  2 ≤ table_index ≤ 6 →
  valid_tables disks table_sizes k →
  budget_suffices fuel table_sizes k memory_size →
  let entry_size := GetMaxEntrySize k table_index false in
  ∃ st st' new_sizes new_disks disk' entries,
    tables_loop (Z.to_nat (7 - table_index)) fuel table_sizes k memory_size nb
      lnb 7 (initial_state disks table_sizes) = Done st
    ∧ backpropagate_table fuel table_sizes k memory_size nb lnb table_index st
      = Done st'
    ∧ RunPhase2 fuel disks table_sizes k memory_size nb lnb
      = Done (new_sizes, new_disks)
    ∧ new_disks !! Z.to_nat table_index = Some disk'
    ∧ tmp_1_disks st' !! Z.to_nat table_index = Some disk'
    ∧ disk' = concat entries
    ∧ entries
      ≡ₚ emitted k table_index entry_size (disk_of disks table_index)
           (current_bitfield st') 0
           (kept table_index (current_bitfield st)
              (size_of table_sizes table_index))
    ∧ Forall (λ e, Z.of_nat (length e) = entry_size) entries
    ∧ new_sizes !! Z.to_nat table_index = Some (Z.of_nat (length entries))
    ∧ Z.of_nat (length disk') = Z.of_nat (length entries) * entry_size.
Proof.
  intros Hti Hvalid Hbudget entry_size.
  pose proof Hvalid as (Hls & Hld & Hvt & Hes1 & Hd1).
  set (n := Z.to_nat (7 - table_index)).
  assert (table_index = 7 - Z.of_nat n) as Eti by lia.
  assert (0 < n < 6)%nat as Hn by lia.
  destruct (Hvt n ltac:(lia)) as (Hes & Hts & Hps & Hlen & _ & Hassert & _).
  rewrite <- Eti in Hes, Hts, Hps, Hlen, Hassert.
  specialize (Hassert ltac:(lia)). fold entry_size in Hes, Hlen, Hassert.
  set (E := emitted k table_index entry_size (disk_of disks table_index)
              (current_set disks table_sizes k (S n)) 0
              (kept table_index (current_set disks table_sizes k n)
                 (size_of table_sizes table_index))).
  set (S' := replay (sort_cache_size memory_size entry_size) nb lnb entry_size
               (k + 1) E).
  assert (new_disk disks table_sizes k memory_size nb lnb n = concat S')
    as Hnew.
  { rewrite new_disk_sorted_table by lia. cbn zeta. by rewrite <- Eti. }
  destruct (sorted_perm_emitted (sort_cache_size memory_size entry_size) nb
              lnb k table_index entry_size (disk_of disks table_index)
              (current_set disks table_sizes k (S n))
              (kept table_index (current_set disks table_sizes k n)
                 (size_of table_sizes table_index)) Hes Hassert)
    as [HlenS HallS].
  fold E S' in HlenS, HallS.
  exists (state_after disks table_sizes k memory_size nb lnb n),
    (state_after disks table_sizes k memory_size nb lnb (S n)),
    (phase_result disks table_sizes k memory_size nb lnb).1,
    (phase_result disks table_sizes k memory_size nb lnb).2,
    (concat S'), S'.
  split; [apply tables_loop_state_after; [lia|done|done]|].
  split.
  { rewrite Eti. apply backpropagate_table_state_after; [lia|done|done]. }
  split; [rewrite <- surjective_pairing; by apply RunPhase2_valid|].
  split.
  { replace (Z.to_nat table_index) with (7 - n)%nat by lia.
    rewrite phase_result_disks by (done || lia). by rewrite Hnew. }
  split.
  { replace (Z.to_nat table_index) with (7 - n)%nat by lia.
    rewrite tmp_1_disks_state_after by (done || lia). by rewrite Hnew. }
  split; [done|].
  split.
  { rewrite !current_bitfield_state_after. apply replay_Permutation. }
  split; [done|].
  split.
  { replace (Z.to_nat table_index) with (7 - n)%nat by lia.
    rewrite phase_result_sizes by lia. unfold new_size.
    rewrite <- Eti, HlenS. done. }
  by apply length_concat_entries.
Qed.

(** X7. On valid tables the file a table [i] in 2..6 is left with is
    sorted by position: the [pos] field, the [k] bits that follow the
    sort key, never decreases from one entry of the file to the next. *)
Theorem RunPhase2_sorted_by_pos (fuel : nat) disks table_sizes k memory_size
    nb lnb table_index :
  2 ≤ table_index ≤ 6 →
  valid_tables disks table_sizes k →
  budget_suffices fuel table_sizes k memory_size →
  0 ≤ k ≤ 64 → 0 ≤ kOffsetSize →
  let entry_size := GetMaxEntrySize k table_index false in
  ∃ new_sizes new_disks disk' new_size,
    RunPhase2 fuel disks table_sizes k memory_size nb lnb
    = Done (new_sizes, new_disks)
    ∧ new_disks !! Z.to_nat table_index = Some disk'
    ∧ new_sizes !! Z.to_nat table_index = Some new_size
    ∧ ∀ a b, 0 ≤ a ≤ b → b < new_size →
        Util.SliceInt64FromBytes (disk_entry disk' entry_size a) (k + 1) k
        ≤ Util.SliceInt64FromBytes (disk_entry disk' entry_size b) (k + 1) k.
Proof.
  intros Hti Hvalid Hbudget Hk Hko entry_size.
  pose proof Hvalid as (Hls & Hld & Hvt & Hes1 & Hd1).
  set (n := Z.to_nat (7 - table_index)).
  assert (table_index = 7 - Z.of_nat n) as Eti by lia.
  assert (0 < n < 6)%nat as Hn by lia.
  destruct (Hvt n ltac:(lia)) as (Hes & Hts & Hps & Hlen & _ & Hassert & _).
  rewrite <- Eti in Hes, Hts, Hps, Hlen, Hassert.
  specialize (Hassert ltac:(lia)). fold entry_size in Hes, Hlen, Hassert.
  set (E := emitted k table_index entry_size (disk_of disks table_index)
              (current_set disks table_sizes k (S n)) 0
              (kept table_index (current_set disks table_sizes k n)
                 (size_of table_sizes table_index))).
  set (S' := replay (sort_cache_size memory_size entry_size) nb lnb entry_size
               (k + 1) E).
  assert (new_disk disks table_sizes k memory_size nb lnb n = concat S')
    as Hnew.
  { rewrite new_disk_sorted_table by lia. cbn zeta. by rewrite <- Eti. }
  destruct (sorted_perm_emitted (sort_cache_size memory_size entry_size) nb
              lnb k table_index entry_size (disk_of disks table_index)
              (current_set disks table_sizes k (S n))
              (kept table_index (current_set disks table_sizes k n)
                 (size_of table_sizes table_index)) Hes Hassert)
    as [HlenS HallS].
  fold E S' in HlenS, HallS.
  assert (StronglySorted (key_le (k + 1)) S') as Hsorted.
  { apply Sorted_StronglySorted; [|apply replay_Sorted].
    intros x y z. unfold key_le. lia. }
  exists (phase_result disks table_sizes k memory_size nb lnb).1,
    (phase_result disks table_sizes k memory_size nb lnb).2,
    (concat S'), (Z.of_nat (length S')).
  split; [rewrite <- surjective_pairing; by apply RunPhase2_valid|].
  split.
  { replace (Z.to_nat table_index) with (7 - n)%nat by lia.
    rewrite phase_result_disks by (done || lia). by rewrite Hnew. }
  split.
  { replace (Z.to_nat table_index) with (7 - n)%nat by lia.
    rewrite phase_result_sizes by lia. unfold new_size.
    rewrite <- Eti, HlenS. done. }
  intros a b Hab Hb.
  destruct (lookup_lt_is_Some_2 S' (Z.to_nat a) ltac:(lia)) as [ea Hea].
  destruct (lookup_lt_is_Some_2 S' (Z.to_nat b) ltac:(lia)) as [eb Heb].
  rewrite <- (Z2Nat.id a), <- (Z2Nat.id b) by lia.
  rewrite (disk_entry_concat S' entry_size _ ea) by done.
  rewrite (disk_entry_concat S' entry_size _ eb) by done.
  rewrite Forall_forall in HallS.
  destruct (decide (a = b)) as [->|Hne].
  { rewrite Hea in Heb. injection Heb as ->. done. }
  apply (key_le_pos k entry_size); [done|done|done| | |].
  - apply HallS. by apply list_elem_of_lookup_2 in Hea.
  - apply HallS. by apply list_elem_of_lookup_2 in Heb.
  - apply (StronglySorted_lookup_le _ S' (Z.to_nat a) (Z.to_nat b));
      [done|lia|done|done].
Qed.

(** *** Ranks, sort keys and slots *)

Lemma kept_from_app table_index cur read_index n m :
  0 ≤ n → 0 ≤ m →
  kept_from table_index cur read_index (n + m)
  = kept_from table_index cur read_index n
    ++ kept_from table_index cur (read_index + n) m.
Proof.
  intros Hn Hm. unfold kept_from. by rewrite seqZ_app, filter_app.
Qed.

(** A live entry stands, among the kept entries, at the rank of its
    index. *)
Lemma kept_lookup_live table_index cur table_size p :
  table_index ≠ 7 → 0 ≤ p < table_size →
  cur !! Z.to_nat p = Some true →
  kept table_index cur table_size
    !! Z.to_nat (bitfield_index.rank cur p) = Some p.
Proof.
  intros H7 Hp Hlive. unfold kept.
  replace table_size with (p + (table_size - p)) by lia.
  rewrite kept_from_app by lia. rewrite Z.add_0_l.
  assert (Z.of_nat (length (kept_from table_index cur 0 p))
          = bitfield_index.rank cur p) as Hlen.
  { rewrite <- (Z2Nat.id p) at 1 by lia.
    rewrite length_kept_from_popcount by (done || lia).
    change (Z.to_nat 0) with 0%nat. by rewrite drop_0. }
  rewrite lookup_app_r by lia.
  replace (Z.to_nat (bitfield_index.rank cur p)
           - length (kept_from table_index cur 0 p))%nat with 0%nat by lia.
  rewrite kept_from_cons_retained; [done|lia|by right].
Qed.

Lemma NoDup_kept table_index cur table_size :
  NoDup (kept table_index cur table_size).
Proof. unfold kept, kept_from. apply NoDup_filter, NoDup_seqZ. Qed.

Lemma kept_lookup_rank table_index cur table_size (m : nat) j :
  table_index ≠ 7 →
  kept table_index cur table_size !! m = Some j →
  bitfield_index.rank cur j = Z.of_nat m.
Proof.
  intros H7 Hm.
  assert (j ∈ kept table_index cur table_size) as [Hj Hr]%elem_of_kept_from
    by (by apply list_elem_of_lookup_2 in Hm).
  apply retained_not7 in Hr; [|done].
  pose proof (kept_lookup_live table_index cur table_size j H7 ltac:(lia) Hr)
    as Hlive.
  pose proof (NoDup_lookup _ _ _ _ (NoDup_kept table_index cur table_size)
                Hlive Hm) as E.
  pose proof (rank_range cur j ltac:(lia)). lia.
Qed.

(** The three fields of an entry handed to the sort stage, read back. *)
Lemma new_entry_decode k entry_size write_counter pos offset :
  0 ≤ k → 0 ≤ kOffsetSize → 0 < entry_size → assertion_holds k entry_size →
  let e := Bits.ToBytes (new_entry k entry_size write_counter pos offset) in
  Util.SliceInt64FromBytes e 0 (k + 1) = wrap64 (write_counter mod 2 ^ (k + 1))
  ∧ Util.SliceInt64FromBytes e (k + 1) k = wrap64 (pos mod 2 ^ k)
  ∧ Util.SliceInt64FromBytes e (k + 1 + k) kOffsetSize
    = wrap64 (offset mod 2 ^ kOffsetSize).
Proof.
  intros Hk Hko Hes Hassert e.
  destruct (BytesToInt_new_entry k entry_size write_counter pos offset
              Hk Hko Hes Hassert) as [Hlen HE].
  cbn zeta in Hlen, HE. fold e in Hlen, HE.
  pose proof (new_entry_fields_size k write_counter pos offset) as Hsz.
  unfold Bits.GetSize in Hsz. unfold assertion_holds in Hassert.
  set (V := Bits.value (new_entry_fields k write_counter pos offset)) in *.
  set (S' := Bits.size (new_entry_fields k write_counter pos offset)) in *.
  assert (0 < 2 ^ (8 * entry_size - S')) by (apply Z.pow_pos_nonneg; lia).
  destruct (fields3 (write_counter mod 2 ^ (k + 1)) (pos mod 2 ^ k)
              (offset mod 2 ^ kOffsetSize) (k + 1) k kOffsetSize)
    as (F1 & F2 & F3); [lia|done|done|apply mod_pow_range; lia
                       |by apply mod_pow_range..|].
  assert (V = (write_counter mod 2 ^ (k + 1) * 2 ^ k + pos mod 2 ^ k)
              * 2 ^ kOffsetSize + offset mod 2 ^ kOffsetSize) as HV.
  { unfold V.
    cbn [new_entry_fields Bits.append Bits.value Bits.make Bits.size
         Bits.empty]. lia. }
  rewrite <- HV in F1, F2, F3.
  split; [|split].
  - rewrite (SliceInt64FromBytes_packed e V S' 0);
      [|by rewrite Hlen|rewrite Hlen; lia|done|lia|lia|lia].
    rewrite Hsz.
    replace (k + 1 + k + kOffsetSize - 0 - (k + 1)) with (k + kOffsetSize)
      by lia.
    by rewrite F1.
  - rewrite (SliceInt64FromBytes_packed e V S' 0);
      [|by rewrite Hlen|rewrite Hlen; lia|lia|lia|lia|lia].
    rewrite Hsz.
    replace (k + 1 + k + kOffsetSize - (k + 1) - k) with kOffsetSize by lia.
    by rewrite F2.
  - rewrite (SliceInt64FromBytes_packed e V S' 0);
      [|by rewrite Hlen|rewrite Hlen; lia|lia|lia|lia|lia].
    rewrite Hsz.
    replace (k + 1 + k + kOffsetSize - (k + 1 + k) - kOffsetSize) with 0
      by lia.
    by rewrite Z.pow_0_r, Z.div_1_r, F3.
Qed.


(** X9. Compacting table 1 moves the entry of a live index [p] to the
    slot whose number is the rank of [p] in the final Liveness Set, the
    very position under which table 2 now refers to it, its bytes
    unchanged. *)
Theorem table1_entry_moves_to_its_rank (fuel : nat) disks table_sizes k
    memory_size nb lnb :
  valid_tables disks table_sizes k →
  budget_suffices fuel table_sizes k memory_size →
  let entry_size := GetMaxEntrySize k 1 false in
  ∃ st new_sizes new_disks disk',
    tables_loop 6 fuel table_sizes k memory_size nb lnb 7
      (initial_state disks table_sizes) = Done st
    ∧ RunPhase2 fuel disks table_sizes k memory_size nb lnb
      = Done (new_sizes, new_disks)
    ∧ new_disks !! 1%nat = Some disk'
    ∧ ∀ p, 0 ≤ p < size_of table_sizes 1 →
        current_bitfield st !! Z.to_nat p = Some true →
        disk_entry disk' entry_size
          (bitfield_index.rank (current_bitfield st) p)
        = disk_entry (disk_of disks 1) entry_size p.
Proof.
  intros Hvalid Hbudget entry_size.
  pose proof Hvalid as (Hls & Hld & Hv & Hes1 & Hlen1).
  fold entry_size in Hes1, Hlen1.
  set (st := state_after disks table_sizes k memory_size nb lnb 6).
  set (cur := current_set disks table_sizes k 6).
  assert (current_bitfield st = cur) as Hcur
    by apply current_bitfield_state_after.
  destruct (Hv 5%nat ltac:(lia)) as (_ & _ & Hprev & _).
  change (7 - Z.of_nat 5 - 1) with 1 in Hprev.
  set (K := kept 1 cur (size_of table_sizes 1)).
  exists st, (phase_result disks table_sizes k memory_size nb lnb).1,
    (phase_result disks table_sizes k memory_size nb lnb).2,
    (concat (disk_entry (disk_of disks 1) entry_size <$> K)).
  split; [by apply tables_loop_state_after; [lia|..]|].
  split; [rewrite <- surjective_pairing; by apply RunPhase2_valid|].
  split.
  { unfold phase_result. cbn [snd].
    apply list_lookup_insert_eq. rewrite length_disks_state_after. lia. }
  intros p Hp Hlive. rewrite Hcur in *.
  pose proof (kept_lookup_live 1 cur (size_of table_sizes 1) p ltac:(lia) Hp
                Hlive) as HK.
  pose proof (rank_range cur p ltac:(lia)) as Hrank.
  rewrite <- (Z2Nat.id (bitfield_index.rank cur p)) by lia.
  apply disk_entry_concat; [done| |].
  - apply Forall_fmap, Forall_forall.
    intros j [Hj _]%elem_of_kept_from. simpl.
    apply length_disk_entry; nia.
  - rewrite list_lookup_fmap. fold K in HK. by rewrite HK.
Qed.

(** *** References after the phase *)

Lemma rank_lt_popcount (bf : bitfield) x :
  0 ≤ x → bf !! Z.to_nat x = Some true →
  bitfield_index.rank bf x < popcount bf.
Proof.
  intros Hx Hbit. unfold bitfield_index.rank.
  rewrite <- (take_drop_middle bf (Z.to_nat x) true Hbit) at 2.
  rewrite popcount_app. cbn [popcount].
  pose proof (popcount_range (drop (S (Z.to_nat x)) bf)). lia.
Qed.

(** The new size of the table below table [7 - n]. *)
Lemma phase_result_size_below disks table_sizes k memory_size nb lnb (n : nat) :
  valid_tables disks table_sizes k → (n < 6)%nat →
  (phase_result disks table_sizes k memory_size nb lnb).1
    !! Z.to_nat (7 - Z.of_nat n - 1)
  = Some (popcount (current_set disks table_sizes k (S n))).
Proof.
  intros (Hls & Hld & Hvt & _) Hn.
  destruct (Hvt n Hn) as (_ & _ & Hps & _).
  destruct (decide (n = 5%nat)) as [->|E5].
  - unfold phase_result. cbn [fst].
    apply list_lookup_insert_eq. rewrite length_sizes_state_after. lia.
  - replace (Z.to_nat (7 - Z.of_nat n - 1)) with (7 - S n)%nat by lia.
    rewrite phase_result_sizes by lia. f_equal.
    apply new_size_popcount; [lia|].
    by replace (7 - Z.of_nat (S n)) with (7 - Z.of_nat n - 1) by lia.
Qed.

(** X10. On valid tables every entry of table 7 refers, after the phase,
    inside the compacted table 6: its rewritten [pos] and [pos + offset]
    are below the new size of table 6. *)
Theorem RunPhase2_table7_references_in_bounds (fuel : nat) disks table_sizes k
    memory_size nb lnb :
  valid_tables disks table_sizes k →
  budget_suffices fuel table_sizes k memory_size →
  0 ≤ k < 64 → 0 ≤ kOffsetSize < 64 →
  let entry_size := GetMaxEntrySize k 7 false in
  ∃ new_sizes new_disks disk' new_size6,
    RunPhase2 fuel disks table_sizes k memory_size nb lnb
    = Done (new_sizes, new_disks)
    ∧ new_disks !! 7%nat = Some disk'
    ∧ new_sizes !! 6%nat = Some new_size6
    ∧ ∀ j, 0 ≤ j < size_of table_sizes 7 →
        let new := disk_entry disk' entry_size j in
        0 ≤ Util.SliceInt64FromBytes new k k
        ∧ 0 ≤ Util.SliceInt64FromBytes new (k + k) kOffsetSize
        ∧ Util.SliceInt64FromBytes new k k
          + Util.SliceInt64FromBytes new (k + k) kOffsetSize < new_size6.
Proof.
  intros Hvalid Hbudget Hk Hko entry_size.
  pose proof Hvalid as (Hls & Hld & Hv & _).
  destruct (Hv 0%nat ltac:(lia))
    as (Hes & Hts & Hprev & Hlen & Hfit & _ & Hin).
  change (7 - Z.of_nat 0) with 7 in *. specialize (Hfit eq_refl).
  change (7 - 1) with 6 in *. cbn [current_set] in Hin.
  set (table_size := size_of table_sizes 7) in *.
  set (disk := disk_of disks 7) in *.
  fold entry_size in Hes, Hlen, Hfit, Hin.
  destruct (scan1_run k 7 entry_size [] disk table_size (size_of table_sizes 6))
    as (next & Hscan & Hlnext & Hmarked & _); [done|done|done|done|].
  assert (next = current_set disks table_sizes k 1) as Hnext.
  { pose proof (scan1_next_set k 7 entry_size [] disk table_size
                  (size_of table_sizes 6) Hts Hprev ltac:(done) Hin) as E.
    rewrite Hscan in E. by injection E. }
  set (disk' := concat (rewritten7 k next
                          <$> disk_entries disk entry_size 0 table_size)
                ++ drop (Z.to_nat (table_size * entry_size)) disk).
  assert (new_disk disks table_sizes k memory_size nb lnb 0 = disk') as Hnew
    by (unfold disk'; rewrite Hnext; reflexivity).
  pose proof (Forall_length_disk_entries disk entry_size table_size Hes Hlen)
    as Hall.
  assert (Forall (λ e, Z.of_nat (length e) = entry_size)
            (rewritten7 k next <$> disk_entries disk entry_size 0 table_size))
    as Hall'.
  { apply Forall_fmap. eapply Forall_impl; [exact Hall|].
    intros e He. by apply length_rewritten7. }
  exists (phase_result disks table_sizes k memory_size nb lnb).1,
    (phase_result disks table_sizes k memory_size nb lnb).2, disk',
    (popcount next).
  split; [rewrite <- surjective_pairing; by apply RunPhase2_valid|].
  split.
  { rewrite <- Hnew.
    apply (phase_result_disks disks table_sizes k memory_size nb lnb 0);
      [done|lia]. }
  split.
  { rewrite Hnext.
    apply (phase_result_size_below disks table_sizes k memory_size nb lnb 0);
      [done|lia]. }
  intros j Hj new.
  set (old := disk_entry disk entry_size j).
  assert (new = rewritten7 k next old) as Hnewj.
  { unfold new, disk', disk_entry.
    rewrite <- (Z2Nat.id j) at 1 by lia.
    apply buffer_entry_concat; [done|done|].
    rewrite list_lookup_fmap, lookup_disk_entries by lia.
    by rewrite Z2Nat.id by lia. }
  assert (Z.of_nat (length old) = entry_size) as Hlold
    by (apply length_disk_entry; nia).
  destruct (rewritten7_fields k next old entry_size ltac:(lia) ltac:(lia) Hes
              Hfit Hlold) as (_ & F2 & F3).
  rewrite <- Hnewj in F2, F3.
  assert (j ∈ kept 7 [] table_size) as Hjk
    by (apply elem_of_kept_from; split; [lia|by left]).
  destruct (Hmarked j Hjk) as [Hm1 Hm2]. fold old in Hm1, Hm2.
  pose proof (fields_no_wrap k 7 old Hk Hko) as Hnw.
  pose proof (entry_pos_range k 7 old) as Hp.
  pose proof (entry_offset_range k 7 old) as Ho.
  rewrite (wrap64_small (entry_pos k 7 old + entry_offset k 7 old)) in *
    by lia.
  pose proof (SliceInt64FromBytes_bound old k k ltac:(lia)) as Bp.
  pose proof (SliceInt64FromBytes_bound old (k + k) kOffsetSize ltac:(lia))
    as Bo.
  pose proof (rank_range next (entry_pos k 7 old) ltac:(lia)) as Rp.
  pose proof (rank_diff_range next (entry_pos k 7 old)
                (entry_pos k 7 old + entry_offset k 7 old) ltac:(lia)) as Ro.
  pose proof (rank_lt_popcount next
                (entry_pos k 7 old + entry_offset k 7 old) ltac:(lia) Hm2)
    as Rs.
  assert (2 ^ k ≤ 2 ^ 64) by (apply Z.pow_le_mono_r; lia).
  assert (2 ^ kOffsetSize ≤ 2 ^ 64) by (apply Z.pow_le_mono_r; lia).
  unfold entry_pos, entry_offset in *. change (7 =? 7) with true in *.
  cbn iota in *.
  rewrite F2, F3. rewrite !wrap64_mod_small by lia. lia.
Qed.

(** X11. On valid tables every entry of the file a table [i] in 2..6 is
    left with refers inside the compacted table below: its [pos] and
    [pos + offset], read after the sort key, are below the new size of
    table [i - 1]. *)
Theorem RunPhase2_sorted_references_in_bounds (fuel : nat) disks table_sizes k
    memory_size nb lnb table_index :
  2 ≤ table_index ≤ 6 →
  valid_tables disks table_sizes k →
  budget_suffices fuel table_sizes k memory_size →
  0 ≤ k < 64 → 0 ≤ kOffsetSize < 64 →
  let entry_size := GetMaxEntrySize k table_index false in
  ∃ new_sizes new_disks disk' new_size size_below,
    RunPhase2 fuel disks table_sizes k memory_size nb lnb
    = Done (new_sizes, new_disks)
    ∧ new_disks !! Z.to_nat table_index = Some disk'
    ∧ new_sizes !! Z.to_nat table_index = Some new_size
    ∧ new_sizes !! Z.to_nat (table_index - 1) = Some size_below
    ∧ ∀ a, 0 ≤ a < new_size →
        let e := disk_entry disk' entry_size a in
        0 ≤ Util.SliceInt64FromBytes e (k + 1) k
        ∧ 0 ≤ Util.SliceInt64FromBytes e (k + 1 + k) kOffsetSize
        ∧ Util.SliceInt64FromBytes e (k + 1) k
          + Util.SliceInt64FromBytes e (k + 1 + k) kOffsetSize < size_below.
Proof.
  intros Hti Hvalid Hbudget Hk Hko entry_size.
  pose proof Hvalid as (Hls & Hld & Hvt & Hes1 & Hd1).
  set (n := Z.to_nat (7 - table_index)).
  assert (table_index = 7 - Z.of_nat n) as Eti by lia.
  assert (0 < n < 6)%nat as Hn by lia.
  destruct (Hvt n ltac:(lia)) as (Hes & Hts & Hps & Hlen & _ & Hassert & Hin).
  rewrite <- Eti in Hes, Hts, Hps, Hlen, Hassert, Hin.
  specialize (Hassert ltac:(lia)). fold entry_size in Hes, Hlen, Hassert, Hin.
  set (cur := current_set disks table_sizes k n) in *.
  set (disk := disk_of disks table_index) in *.
  set (table_size := size_of table_sizes table_index) in *.
  assert (Z.of_nat (length cur) = table_size) as Hlcur.
  { unfold cur, table_size. rewrite Eti. destruct n as [|n']; [lia|].
    apply length_current_set. rewrite <- Eti. exact Hts. }
  destruct (scan1_run k table_index entry_size cur disk table_size
              (size_of table_sizes (table_index - 1)))
    as (next & Hscan & Hlnext & Hmarked & _); [done|done|done|done|].
  assert (next = current_set disks table_sizes k (S n)) as Hnext.
  { cbn [current_set]. rewrite <- Eti. fold entry_size disk table_size cur.
    pose proof (scan1_next_set k table_index entry_size cur disk table_size
                  (size_of table_sizes (table_index - 1)) Hts Hps
                  ltac:(done) Hin) as E.
    rewrite Hscan in E. by injection E. }
  set (E := emitted k table_index entry_size disk next 0
              (kept table_index cur table_size)).
  set (S' := replay (sort_cache_size memory_size entry_size) nb lnb entry_size
               (k + 1) E).
  assert (new_disk disks table_sizes k memory_size nb lnb n = concat S')
    as Hnew.
  { rewrite new_disk_sorted_table by lia. cbn zeta. rewrite <- Eti.
    unfold S', E. by rewrite Hnext. }
  destruct (sorted_perm_emitted (sort_cache_size memory_size entry_size) nb
              lnb k table_index entry_size disk next
              (kept table_index cur table_size) Hes Hassert)
    as [HlenS HallS].
  fold E S' in HlenS, HallS.
  exists (phase_result disks table_sizes k memory_size nb lnb).1,
    (phase_result disks table_sizes k memory_size nb lnb).2,
    (concat S'), (Z.of_nat (length S')), (popcount next).
  split; [rewrite <- surjective_pairing; by apply RunPhase2_valid|].
  split.
  { replace (Z.to_nat table_index) with (7 - n)%nat by lia.
    rewrite phase_result_disks by (done || lia). by rewrite Hnew. }
  split.
  { replace (Z.to_nat table_index) with (7 - n)%nat by lia.
    rewrite phase_result_sizes by lia. unfold new_size.
    rewrite <- Eti. fold cur table_size. by rewrite HlenS. }
  split.
  { rewrite Hnext, Eti. apply phase_result_size_below; [done|lia]. }
  intros a Ha e.
  destruct (lookup_lt_is_Some_2 S' (Z.to_nat a) ltac:(lia)) as [ea Hea].
  assert (e = ea) as ->.
  { unfold e. rewrite <- (Z2Nat.id a) by lia.
    by apply disk_entry_concat. }
  assert (ea ∈ E) as Hin_E.
  { rewrite <- (replay_Permutation (sort_cache_size memory_size entry_size)
                  nb lnb entry_size (k + 1) E).
    by apply list_elem_of_lookup_2 in Hea. }
  apply list_elem_of_lookup_1 in Hin_E as [m Hm].
  apply emitted_lookup_inv in Hm as (j & Hj & ->).
  assert (j ∈ kept table_index cur table_size) as Hjk
    by (by apply list_elem_of_lookup_2 in Hj).
  destruct (Hmarked j Hjk) as [Hm1 Hm2].
  unfold sorted_entry, remapped.
  set (old := disk_entry disk entry_size j) in *.
  pose proof (fields_no_wrap k table_index old Hk Hko) as Hnw.
  pose proof (entry_pos_range k table_index old) as Hpr.
  pose proof (entry_offset_range k table_index old) as Hor.
  rewrite (wrap64_small (entry_pos k table_index old
                         + entry_offset k table_index old)) in * by lia.
  assert (0 ≤ entry_pos k table_index old < 2 ^ k) as Hpb.
  { unfold entry_pos. destruct (_ =? _);
      apply SliceInt64FromBytes_bound; lia. }
  assert (0 ≤ entry_offset k table_index old < 2 ^ kOffsetSize) as Hob.
  { unfold entry_offset. destruct (_ =? _);
      apply SliceInt64FromBytes_bound; lia. }
  set (p := entry_pos k table_index old) in *.
  set (o := entry_offset k table_index old) in *.
  destruct (new_entry_decode k entry_size (0 + Z.of_nat m)
              (bitfield_index.rank next p)
              (bitfield_index.rank next (p + o) - bitfield_index.rank next p)
              ltac:(lia) ltac:(lia) Hes Hassert) as (_ & D2 & D3).
  cbn zeta in D2, D3. rewrite D2, D3.
  pose proof (rank_range next p ltac:(lia)) as Hrp.
  pose proof (rank_diff_range next p (p + o) ltac:(lia)) as Hrd.
  pose proof (rank_lt_popcount next (p + o) ltac:(lia) Hm2) as Rs.
  assert (2 ^ k ≤ 2 ^ 64) by (apply Z.pow_le_mono_r; lia).
  assert (2 ^ kOffsetSize ≤ 2 ^ 64) by (apply Z.pow_le_mono_r; lia).
  rewrite !wrap64_mod_small by lia. lia.
Qed.

(** *** What survives *)

Lemma current_set_reachable disks table_sizes k (n : nat) e :
  valid_tables disks table_sizes k → (n < 6)%nat → 0 ≤ e →
  current_set disks table_sizes k (S n) !! Z.to_nat e = Some true
  ↔ reachable disks table_sizes k (S n) e.
Proof.
  intros Hvalid. pose proof Hvalid as (Hls & Hld & Hvt & _).
  revert e. induction n as [|n IH]; intros e Hn He.
  - destruct (Hvt 0%nat ltac:(lia)) as (Hes & Hts & Hps & Hlen & _ & _ & Hin).
    change (7 - Z.of_nat 0) with 7 in *. cbn [current_set] in Hin.
    destruct (scan1_run k 7 (GetMaxEntrySize k 7 false) [] (disk_of disks 7)
                (size_of table_sizes 7) (size_of table_sizes (7 - 1)))
      as (next & Hscan & _ & _ & Hiff); [done|done|done|done|].
    pose proof (scan1_next_set k 7 (GetMaxEntrySize k 7 false) []
                  (disk_of disks 7) (size_of table_sizes 7)
                  (size_of table_sizes (7 - 1)) Hts Hps ltac:(done) Hin) as E.
    rewrite Hscan in E. injection E as ->.
    cbn [current_set reachable]. change (7 - Z.of_nat 0) with 7.
    rewrite (Hiff e He). split.
    + intros (j & [Hj _]%elem_of_kept_from & Href). exists j.
      split; [lia|]. split; [lia|done].
    + intros (j & _ & Hj & Href). exists j. split; [|done].
      apply elem_of_kept_from. split; [lia|by left].
  - destruct (Hvt (S n) ltac:(lia))
      as (Hes & Hts & Hps & Hlen & _ & _ & Hin).
    set (table_index := 7 - Z.of_nat (S n)) in *.
    set (cur := current_set disks table_sizes k (S n)) in *.
    assert (Z.of_nat (length cur) = size_of table_sizes table_index) as Hlcur
      by (by apply length_current_set).
    destruct (scan1_run k table_index (GetMaxEntrySize k table_index false)
                cur (disk_of disks table_index)
                (size_of table_sizes table_index)
                (size_of table_sizes (table_index - 1)))
      as (next & Hscan & _ & _ & Hiff); [done|done|done|done|].
    pose proof (scan1_next_set k table_index
                  (GetMaxEntrySize k table_index false) cur
                  (disk_of disks table_index)
                  (size_of table_sizes table_index)
                  (size_of table_sizes (table_index - 1)) Hts Hps
                  ltac:(done) Hin) as E.
    rewrite Hscan in E. injection E as ->.
    change (current_set disks table_sizes k (S (S n)))
      with (next_set k table_index (GetMaxEntrySize k table_index false) cur
              (disk_of disks table_index) (size_of table_sizes table_index)
              (size_of table_sizes (table_index - 1))).
    rewrite (Hiff e He).
    change (reachable disks table_sizes k (S (S n)) e)
      with (∃ j, reachable disks table_sizes k (S n) j
                 ∧ 0 ≤ j < size_of table_sizes table_index
                 ∧ references k table_index
                     (GetMaxEntrySize k table_index false)
                     (disk_of disks table_index) j e).
    split.
    + intros (j & [Hj Hr]%elem_of_kept_from & Href). exists j.
      apply retained_not7 in Hr; [|unfold table_index; lia].
      split; [apply IH; [lia|lia|done]|]. split; [lia|done].
    + intros (j & Hreach & Hj & Href). exists j. split; [|done].
      apply elem_of_kept_from. split; [lia|].
      apply retained_not7; [unfold table_index; lia|].
      apply IH; [lia|lia|done].
Qed.

(** X12. On valid tables the Liveness Set the loop over the tables has
    computed when it reaches table [7 - n] (the set of table 1 when it
    ends) marks exactly the entries that are reachable from table 7
    through [pos] and [pos + offset]: the phase keeps these entries and
    no others. *)
Theorem liveness_is_reachability (fuel : nat) disks table_sizes k memory_size
    nb lnb (n : nat) :
  valid_tables disks table_sizes k →
  budget_suffices fuel table_sizes k memory_size →
  (1 ≤ n ≤ 6)%nat →
  ∃ st,
    tables_loop n fuel table_sizes k memory_size nb lnb 7
      (initial_state disks table_sizes) = Done st
    ∧ Z.of_nat (length (current_bitfield st))
      = size_of table_sizes (7 - Z.of_nat n)
    ∧ ∀ e, 0 ≤ e →
        current_bitfield st !! Z.to_nat e = Some true
        ↔ reachable disks table_sizes k n e.
Proof.
  intros Hvalid Hbudget Hn.
  pose proof Hvalid as (Hls & Hld & Hvt & _).
  exists (state_after disks table_sizes k memory_size nb lnb n).
  split; [by apply tables_loop_state_after; [lia|..]|].
  rewrite current_bitfield_state_after.
  destruct n as [|n]; [lia|].
  split.
  - apply length_current_set.
    destruct (Hvt n ltac:(lia)) as (_ & _ & Hps & _).
    by replace (7 - Z.of_nat (S n)) with (7 - Z.of_nat n - 1) by lia.
  - intros e He. apply current_set_reachable; [done|lia|done].
Qed.

(** *** The assertion of line 218 when the width is too small *)

Lemma scan2_assertion_fails k table_index entry_size cur next (n : nat)
    read_index st :
  table_index ≠ 7 → 0 ≤ read_index →
  read_index + Z.of_nat n ≤ Z.of_nat (length cur) →
  entry_size * 8 < (k + 1) + k + kOffsetSize →
  (∀ j, read_index ≤ j < read_index + Z.of_nat n →
     retained table_index cur j →
     marked k table_index entry_size (p2_disk st) next j) →
  (∃ j, read_index ≤ j < read_index + Z.of_nat n
        ∧ retained table_index cur j) →
  scan2 k table_index entry_size cur next n read_index st
  = Fault AssertionFailed.
Proof.
  intros H7 Hri Hcur Hwidth. revert read_index st Hri Hcur.
  induction n as [|n IH];
    intros read_index [buffer d sm wc] Hri Hcur Hmarked (j0 & Hj0 & Hr0);
    cbn [scan2 p2_disk p2_sort_manager p2_write_counter p2_buffer] in *.
  { lia. }
  rewrite pass2_entry_unfold.
  cbn [p2_disk p2_sort_manager p2_write_counter p2_buffer].
  rewrite disk_entry_idemp.
  unfold pass2_fields. destruct (table_index =? 7) eqn:E7; [lia|].
  destruct (lookup_lt_is_Some_2 cur (Z.to_nat read_index)) as [b Hb]; [lia|].
  rewrite (bitfield_get_Done _ _ b) by done. cbn [obind].
  destruct b; cbn [negb obind].
  - assert (retained table_index cur read_index) as Hret by (by right).
    destruct (Hmarked read_index ltac:(lia) Hret) as [Hm1 Hm2].
    unfold entry_pos, entry_offset in Hm1, Hm2. rewrite E7 in Hm1, Hm2.
    rewrite lookup_marked by (done || apply SliceInt64FromBytes_range).
    cbn [obind]. destruct (_ <=? _) eqn:Ea; [lia|]. done.
  - assert (¬ retained table_index cur read_index) as Hret.
    { intros [?|?]; [done|congruence]. }
    apply IH; cbn [p2_disk p2_sort_manager p2_write_counter p2_buffer];
      [lia|lia|intros; apply Hmarked; (lia || done)|].
    exists j0. split; [|done].
    destruct (decide (j0 = read_index)) as [->|]; [done|lia].
Qed.

(** X13. When the entry width of a table [i] in 2..6 does not accommodate
    the [(k + 1) + k + kOffsetSize] bits of a sorted entry and the table
    has a surviving entry, the iteration ends in the failure of the
    assertion of line 218: the first scan returns, and the second stops at
    the first survivor. *)
Theorem backpropagate_table_assertion_fails (fuel : nat) table_sizes k
    memory_size nb lnb table_index st prev_size table_size disk :
  let entry_size := GetMaxEntrySize k table_index false in
  let cur := current_bitfield st in
  2 ≤ table_index ≤ 6 →
  table_sizes !! Z.to_nat (table_index - 1) = Some prev_size →
  table_sizes !! Z.to_nat table_index = Some table_size →
  tmp_1_disks st !! Z.to_nat table_index = Some disk →
  0 < entry_size → entry_size ≤ memory_size / 2 →
  0 ≤ table_size ≤ Z.of_nat fuel → 0 ≤ prev_size →
  table_size * entry_size ≤ Z.of_nat (length disk) →
  Z.of_nat (length cur) = table_size →
  Forall (in_bounds k table_index entry_size disk prev_size)
    (kept table_index cur table_size) →
  entry_size * 8 < (k + 1) + k + kOffsetSize →
  (∃ j, 0 ≤ j < table_size ∧ cur !! Z.to_nat j = Some true) →
  backpropagate_table fuel table_sizes k memory_size nb lnb table_index st
  = Fault AssertionFailed.
Proof.
  intros entry_size cur Hti Hp Ht Hd Hes Hmem Hts Hps Hlen Hlcur Hin Hwidth
    (j0 & Hj0 & Hlive).
  rewrite backpropagate_table_scan; fold entry_size; [|done| |lia].
  2:{ intros ts d Hts' Hd'. rewrite Ht in Hts'. rewrite Hd in Hd'.
      injection Hts' as <-. injection Hd' as <-. split; [done|lia]. }
  unfold backpropagate_scan. fold entry_size.
  rewrite (vector_get_Done _ _ prev_size) by (done || lia). cbn [obind].
  rewrite (vector_get_Done _ _ table_size) by (done || lia). cbn [obind].
  rewrite (proj2 (Z.leb_gt _ _)) by lia.
  rewrite (vector_get_Done _ _ disk) by (done || lia). cbn [obind].
  destruct (scan1_run k table_index entry_size cur disk table_size prev_size)
    as (next & Hscan & _ & Hmarked & _); [lia|done|done|done|].
  fold cur. rewrite Hscan. cbn [obind].
  rewrite scan2_assertion_fails; [done|lia|lia|lia|done| |].
  - cbn [p2_disk]. intros j Hj Hr. apply Hmarked.
    apply elem_of_kept_from. split; [lia|done].
  - exists j0. split; [lia|]. by right.
Qed.

End Phase2.

(** ** The theorems at work on the example tables

    The theorems above, applied to the tables of [Example] with the merge
    sort as sort stage, every hypothesis discharged by evaluation. *)

#[local] Existing Instance merge_sort_stage.

Ltac by_computation := vm_compute; done.

Ltac Forall_by_computation :=
  match goal with
  | |- Forall ?P ?l =>
      let l' := eval vm_compute in l in
      change (Forall P l');
      repeat (constructor; [by_computation|]); constructor
  end.

Ltac table_cases table_index :=
  match goal with
  | H : 2 ≤ table_index ≤ 7 |- _ =>
      assert (table_index = 2 ∨ table_index = 3 ∨ table_index = 4
              ∨ table_index = 5 ∨ table_index = 6 ∨ table_index = 7)
        as [->|[->|[->|[->|[->| ->]]]]] by lia
  end.

Ltac valid_table_by_computation :=
  unfold valid_table; cbv zeta;
  refine (conj _ (conj _ (conj _ (conj _ (conj _ (conj _ _))))));
  [by_computation .. | Forall_by_computation].

Ltac valid_tables_by_computation :=
  unfold valid_tables;
  refine (conj _ (conj _ (conj _ (conj _ _))));
  [reflexivity | reflexivity | | by_computation | by_computation];
  let n := fresh "n" in
  let Hn := fresh "Hn" in
  intros n Hn;
  do 6 (destruct n as [|n]; [valid_table_by_computation|]);
  exfalso; lia.

Lemma C7_rank_order_preserving_witness :
  bitfield_index.rank [true; false; true] 0
  < bitfield_index.rank [true; false; true] 2.
Proof.
  apply C7_rank_order_preserving; [lia | lia | reflexivity | reflexivity].
Defined.

Lemma C1_next_liveness_set_witness :
  let entry_size := Example.GetMaxEntrySize 5 7 false in
  let st := initial_state Example.disks Example.table_sizes in
  let cur := current_bitfield st in
  ∃ next,
    pass1_while Example.kOffsetSize 20 5 7 entry_size cur Example.table7 3
      (read_buffer_size 100 entry_size) 0 0 (replicate (Z.to_nat 6) false)
    = Done next
    ∧ Z.of_nat (length next) = 6
    ∧ (∀ e, 0 ≤ e < 6 →
         next !! Z.to_nat e = Some true ↔
         ∃ j, 0 ≤ j < 3 ∧ retained 7 cur j
              ∧ references Example.kOffsetSize 5 7 entry_size Example.table7
                  j e)
    ∧ (∀ st',
         backpropagate_table Example.kOffsetSize Example.GetMaxEntrySize 20
           Example.table_sizes 5 100 16 4 7 st = Done st' →
         current_bitfield st' = next).
Proof.
  intros entry_size st cur.
  apply (C1_next_liveness_set Example.kOffsetSize Example.GetMaxEntrySize 20
           Example.table_sizes 5 100 16 4 7 st 6 3 Example.table7);
    [lia | reflexivity | reflexivity | reflexivity | by_computation ..
    | Forall_by_computation].
Defined.

Lemma C10_liveness_accesses_in_bounds_witness :
  let entry_size := Example.GetMaxEntrySize 5 6 false in
  let rbs := read_buffer_size 100 entry_size in
  let cur := [true; true; true; true; true; false] in
  let pass1 :=
    pass1_while Example.kOffsetSize 20 5 6 entry_size cur Example.table6 6
      rbs 0 0 (replicate (Z.to_nat 2) false) in
  (Forall (in_bounds Example.kOffsetSize 5 6 entry_size Example.table6 2)
     (kept 6 cur 6) →
   ∃ next p2,
     pass1 = Done next
     ∧ pass2_while Example.kOffsetSize 20 5 6 entry_size cur next 6 rbs 0 0
         (mkPass2 [] Example.table6
            (SortManager.make (100 - rbs) 16 4 entry_size (5 + 1)) 0)
       = Done p2)
  ∧ (¬ Forall (in_bounds Example.kOffsetSize 5 6 entry_size Example.table6 2)
         (kept 6 cur 6) →
     pass1 = Fault OutOfBounds).
Proof.
  intros entry_size rbs cur pass1.
  apply (C10_liveness_accesses_in_bounds Example.kOffsetSize
           Example.GetMaxEntrySize 20 5 100 16 4 6 cur Example.table6 6 2);
    by_computation.
Defined.

Lemma C9_assertion_unreachable_witness :
  let entry_size := Example.GetMaxEntrySize 5 6 false in
  (∀ write_counter entry_pos entry_offset,
     Bits.GetSize
       (new_entry_fields Example.kOffsetSize 5 write_counter entry_pos
          entry_offset)
     ≤ entry_size * 8)
  ∧ (∀ cur next table_size rbs read_index read_cursor p2,
       pass2_while Example.kOffsetSize 20 5 6 entry_size cur next table_size
         rbs read_index read_cursor p2 ≠ Fault AssertionFailed)
  ∧ backpropagate_table Example.kOffsetSize Example.GetMaxEntrySize 20
      Example.table_sizes 5 100 16 4 6
      (initial_state Example.disks Example.table_sizes)
    ≠ Fault AssertionFailed.
Proof.
  intros entry_size.
  apply (C9_assertion_unreachable Example.kOffsetSize Example.GetMaxEntrySize
           20 Example.table_sizes 5 100 16 4 6
           (initial_state Example.disks Example.table_sizes));
    [lia | by_computation].
Defined.

Lemma C8_two_scans_agree_witness :
  let entry_size := Example.GetMaxEntrySize 5 6 false in
  let rbs := read_buffer_size 100 entry_size in
  let cur := [true; true; true; true; true; false] in
  let survivors := kept 6 cur 6 in
  (∀ e, e ∈ survivors ↔ 0 ≤ e < 6 ∧ cur !! Z.to_nat e = Some true)
  ∧ ∃ next p2,
      pass1_while Example.kOffsetSize 20 5 6 entry_size cur Example.table6 6
        rbs 0 0 (replicate (Z.to_nat 2) false) = Done next
      ∧ ofold (mark_references Example.kOffsetSize 5 6 entry_size
                 Example.table6) survivors (replicate (Z.to_nat 2) false)
        = Done next
      ∧ pass2_while Example.kOffsetSize 20 5 6 entry_size cur next 6 rbs 0 0
          (mkPass2 [] Example.table6
             (SortManager.make (100 - rbs) 16 4 entry_size (5 + 1)) 0)
        = Done p2
      ∧ SortManager.cache (p2_sort_manager p2)
        = emitted Example.kOffsetSize 5 6 entry_size Example.table6 next 0
            survivors
      ∧ p2_write_counter p2 = Z.of_nat (length survivors).
Proof.
  intros entry_size rbs cur survivors.
  apply (C8_two_scans_agree Example.kOffsetSize Example.GetMaxEntrySize 20 5
           100 16 4 6 cur Example.table6 6 2);
    [lia | by_computation .. | Forall_by_computation].
Defined.

Lemma C6_table1_compaction_witness :
  ∃ st new_sizes new_disks disk',
    tables_loop Example.kOffsetSize Example.GetMaxEntrySize 6 20
      Example.table_sizes 5 100 16 4 7
      (initial_state Example.disks Example.table_sizes) = Done st
    ∧ RunPhase2 Example.kOffsetSize Example.GetMaxEntrySize 20 Example.disks
        Example.table_sizes 5 100 16 4 = Done (new_sizes, new_disks)
    ∧ let cur := current_bitfield st in
      let entry_size := Example.GetMaxEntrySize 5 1 false in
      let table_size := size_of Example.table_sizes 1 in
      let survivors := kept 1 cur table_size in
      new_sizes !! 1%nat = Some (popcount cur)
      ∧ Z.of_nat (length survivors) = popcount cur
      ∧ (∀ e, e ∈ survivors ↔
              0 ≤ e < table_size ∧ cur !! Z.to_nat e = Some true)
      ∧ StronglySorted Z.lt survivors
      ∧ new_disks !! 1%nat = Some disk'
      ∧ disk'
        = concat (disk_entry (disk_of Example.disks 1) entry_size
                    <$> survivors)
      ∧ Z.of_nat (length disk') = popcount cur * entry_size.
Proof.
  apply (C6_table1_compaction Example.kOffsetSize Example.GetMaxEntrySize 20
           Example.disks Example.table_sizes 5 100 16 4).
  - valid_tables_by_computation.
  - intros table_index Hti. table_cases table_index; by_computation.
Defined.

Lemma C4_table7_rewritten_in_place_witness :
  let entry_size := Example.GetMaxEntrySize 5 7 false in
  let table_size := size_of Example.table_sizes 7 in
  let disk := disk_of Example.disks 7 in
  let field_bytes :=
    Z.to_nat (Util.ByteAlign (5 + 5 + Example.kOffsetSize) / 8) in
  ∃ new_sizes new_disks disk' next,
    RunPhase2 Example.kOffsetSize Example.GetMaxEntrySize 20 Example.disks
      Example.table_sizes 5 100 16 4 = Done (new_sizes, new_disks)
    ∧ Example.table_sizes !! 7%nat = Some table_size
    ∧ new_sizes !! 7%nat = Some table_size
    ∧ new_disks !! 7%nat = Some disk'
    ∧ length disk' = length disk
    ∧ drop (Z.to_nat (table_size * entry_size)) disk'
      = drop (Z.to_nat (table_size * entry_size)) disk
    ∧ pass1_while Example.kOffsetSize 20 5 7 entry_size [] disk table_size
        (read_buffer_size 100 entry_size) 0 0
        (replicate (Z.to_nat (size_of Example.table_sizes 6)) false)
      = Done next
    ∧ ∀ j, 0 ≤ j < table_size →
        let old := disk_entry disk entry_size j in
        let new := disk_entry disk' entry_size j in
        Util.SliceInt64FromBytes new 0 5 = Util.SliceInt64FromBytes old 0 5
        ∧ bitfield_index.lookup next
            (Util.SliceInt64FromBytes old 5 5)
            (Util.SliceInt64FromBytes old (5 + 5) Example.kOffsetSize)
          = Done (Util.SliceInt64FromBytes new 5 5,
                  Util.SliceInt64FromBytes new (5 + 5) Example.kOffsetSize)
        ∧ drop field_bytes new = drop field_bytes old.
Proof.
  intros entry_size table_size disk field_bytes.
  apply (C4_table7_rewritten_in_place Example.kOffsetSize
           Example.GetMaxEntrySize 20 Example.disks Example.table_sizes 5 100
           16 4).
  - valid_tables_by_computation.
  - intros table_index Hti. table_cases table_index; by_computation.
  - lia.
  - by_computation.
  - by_computation.
Defined.



Lemma C2_all_live_keeps_sizes_and_outer_tables_witness :
  ∃ new_sizes new_disks,
    RunPhase2 Example.kOffsetSize Example.GetMaxEntrySize 20
      Example.live_disks Example.live_sizes 5 100 16 4
    = Done (new_sizes, new_disks)
    ∧ (∀ table_index, 1 ≤ table_index ≤ 7 →
         new_sizes !! Z.to_nat table_index
         = Example.live_sizes !! Z.to_nat table_index)
    ∧ new_disks !! 7%nat = Example.live_disks !! 7%nat
    ∧ new_disks !! 1%nat = Example.live_disks !! 1%nat.
Proof.
  apply (C2_all_live_keeps_sizes_and_outer_tables Example.kOffsetSize
           Example.GetMaxEntrySize 20 Example.live_disks Example.live_sizes 5
           100 16 4).
  - valid_tables_by_computation.
  - intros table_index Hti. table_cases table_index; by_computation.
  - lia.
  - by_computation.
  - intros n Hn.
    assert (n = 1 ∨ n = 2 ∨ n = 3 ∨ n = 4 ∨ n = 5 ∨ n = 6)%nat
      as [->|[->|[->|[->|[->| ->]]]]] by lia; vm_compute; reflexivity.
  - intros j Hj. change (size_of Example.live_sizes 7) with 1 in Hj.
    assert (j = 0) as -> by lia.
    exists 1, 0, 1, []. vm_compute. reflexivity.
  - vm_compute. reflexivity.
Defined.

(** C2, as stated, fails.  On the tables of [Example.live_disks] every bit
    of every Liveness Set comes out live and every size is returned as it
    was, yet the file of table 6 is not what it was: its second entry now
    starts with its sort key, 1.  Run on its own output, the phase reads
    that sort key as part of a position and an offset and leaves the
    Liveness Set of table 5. *)
Lemma C2_all_live_run_rewrites_table6 :
  let output : list FileDisk.t :=
    [[]; [x01]; [x00; x00; x00]; [x00; x00; x00]; [x00; x00; x00];
     [x00; x00; x00]; [x00; x00; x00; x04; x00; x00]; [x08; x00; x10]] in
  current_set Example.kOffsetSize Example.GetMaxEntrySize Example.live_disks
    Example.live_sizes 5 <$> [1; 2; 3; 4; 5; 6]%nat
  = [[true; true]; [true]; [true]; [true]; [true]; [true]]
  ∧ RunPhase2 Example.kOffsetSize Example.GetMaxEntrySize 20
      Example.live_disks Example.live_sizes 5 100 16 4
    = Done (Example.live_sizes, output)
  ∧ output !! 6%nat ≠ Example.live_disks !! 6%nat
  ∧ RunPhase2 Example.kOffsetSize Example.GetMaxEntrySize 20 output
      Example.live_sizes 5 100 16 4
    = Fault OutOfBounds.
Proof.
  intros output.
  split; [vm_compute; reflexivity|].
  split; [vm_compute; reflexivity|].
  split; [by_computation|]. vm_compute; reflexivity.
Qed.



(** ** The further properties at work on the example tables *)

Lemma read_buffer_size_largest_multiple_witness :
  let rbs := read_buffer_size 100 3 in
  rbs = 100 / 2 / 3 * 3
  ∧ (∀ n, n * 3 ≤ 100 / 2 → n * 3 ≤ rbs)
  ∧ 0 ≤ rbs ≤ 100 / 2
  ∧ rbs + sort_cache_size 100 3 = 100
  ∧ 100 / 2 ≤ sort_cache_size 100 3.
Proof.
  intros rbs. apply (read_buffer_size_largest_multiple 100 3); lia.
Defined.


Lemma RunPhase2_frame_witness :
  let new_disks : list FileDisk.t :=
    [[]; [x01]; [x00; x00; x00]; [x00; x00; x00]; [x00; x00; x00];
     [x00; x00; x00]; [x00; x00; x00; x04; x00; x00]; [x08; x00; x10]] in
  length Example.live_sizes = 8%nat
  ∧ Example.live_sizes !! 0%nat = Some 0
  ∧ Example.live_sizes !! 7%nat = Example.live_sizes !! 7%nat
  ∧ length new_disks = length Example.live_disks
  ∧ ∀ i : nat, (i = 0 ∨ 8 ≤ i)%nat →
      new_disks !! i = Example.live_disks !! i.
Proof.
  intros new_disks.
  apply (RunPhase2_frame Example.kOffsetSize Example.GetMaxEntrySize 20
           Example.live_disks Example.live_sizes 5 100 16 4 Example.live_sizes
           new_disks).
  vm_compute. reflexivity.
Defined.

Lemma backpropagate_table_empty_witness :
  let table_sizes := [0; 3; 2; 2; 2; 0; 6; 3] in
  let st := initial_state Example.disks table_sizes in
  backpropagate_table Example.kOffsetSize Example.GetMaxEntrySize 0
    table_sizes 5 0 16 4 5 st
  = Done (mkPhase2
            (<[Z.to_nat 5 := if 5 =? 7 then Example.table5 else []]>
               (tmp_1_disks st))
            (if 5 =? 7 then new_table_sizes st
             else <[Z.to_nat 5 := 0]> (new_table_sizes st))
            (replicate (Z.to_nat 2) false)).
Proof.
  intros table_sizes st.
  apply (backpropagate_table_empty Example.kOffsetSize Example.GetMaxEntrySize
           table_sizes 5 5 st 2 Example.table5);
    [reflexivity | reflexivity | reflexivity | by_computation].
Defined.

Lemma RunPhase2_sizes_at_most_double_witness :
  ∃ new_sizes new_disks,
    RunPhase2 Example.kOffsetSize Example.GetMaxEntrySize 20 Example.disks
      Example.table_sizes 5 100 16 4 = Done (new_sizes, new_disks)
    ∧ ∀ table_index, 2 ≤ table_index ≤ 7 →
        ∃ below above,
          new_sizes !! Z.to_nat (table_index - 1) = Some below
          ∧ new_sizes !! Z.to_nat table_index = Some above
          ∧ 0 ≤ below ≤ 2 * above.
Proof.
  apply (RunPhase2_sizes_at_most_double Example.kOffsetSize
           Example.GetMaxEntrySize 20 Example.disks Example.table_sizes 5 100
           16 4).
  - valid_tables_by_computation.
  - intros table_index Hti. table_cases table_index; by_computation.
Defined.

Lemma RunPhase2_sorted_table_content_witness :
  let entry_size := Example.GetMaxEntrySize 5 6 false in
  ∃ st st' new_sizes new_disks disk' entries,
    tables_loop Example.kOffsetSize Example.GetMaxEntrySize
      (Z.to_nat (7 - 6)) 20 Example.table_sizes 5 100 16 4 7
      (initial_state Example.disks Example.table_sizes) = Done st
    ∧ backpropagate_table Example.kOffsetSize Example.GetMaxEntrySize 20
        Example.table_sizes 5 100 16 4 6 st = Done st'
    ∧ RunPhase2 Example.kOffsetSize Example.GetMaxEntrySize 20 Example.disks
        Example.table_sizes 5 100 16 4 = Done (new_sizes, new_disks)
    ∧ new_disks !! Z.to_nat 6 = Some disk'
    ∧ tmp_1_disks st' !! Z.to_nat 6 = Some disk'
    ∧ disk' = concat entries
    ∧ entries
      ≡ₚ emitted Example.kOffsetSize 5 6 entry_size (disk_of Example.disks 6)
           (current_bitfield st') 0
           (kept 6 (current_bitfield st) (size_of Example.table_sizes 6))
    ∧ Forall (λ e, Z.of_nat (length e) = entry_size) entries
    ∧ new_sizes !! Z.to_nat 6 = Some (Z.of_nat (length entries))
    ∧ Z.of_nat (length disk') = Z.of_nat (length entries) * entry_size.
Proof.
  intros entry_size.
  apply (RunPhase2_sorted_table_content Example.kOffsetSize
           Example.GetMaxEntrySize 20 Example.disks Example.table_sizes 5 100
           16 4 6).
  - lia.
  - valid_tables_by_computation.
  - intros table_index Hti. table_cases table_index; by_computation.
Defined.

Lemma RunPhase2_sorted_by_pos_witness :
  let entry_size := Example.GetMaxEntrySize 5 6 false in
  ∃ new_sizes new_disks disk' new_size,
    RunPhase2 Example.kOffsetSize Example.GetMaxEntrySize 20 Example.disks
      Example.table_sizes 5 100 16 4 = Done (new_sizes, new_disks)
    ∧ new_disks !! Z.to_nat 6 = Some disk'
    ∧ new_sizes !! Z.to_nat 6 = Some new_size
    ∧ ∀ a b, 0 ≤ a ≤ b → b < new_size →
        Util.SliceInt64FromBytes (disk_entry disk' entry_size a) (5 + 1) 5
        ≤ Util.SliceInt64FromBytes (disk_entry disk' entry_size b) (5 + 1) 5.
Proof.
  intros entry_size.
  apply (RunPhase2_sorted_by_pos Example.kOffsetSize Example.GetMaxEntrySize
           20 Example.disks Example.table_sizes 5 100 16 4 6).
  - lia.
  - valid_tables_by_computation.
  - intros table_index Hti. table_cases table_index; by_computation.
  - lia.
  - by_computation.
Defined.


Lemma table1_entry_moves_to_its_rank_witness :
  let entry_size := Example.GetMaxEntrySize 5 1 false in
  ∃ st new_sizes new_disks disk',
    tables_loop Example.kOffsetSize Example.GetMaxEntrySize 6 20
      Example.table_sizes 5 100 16 4 7
      (initial_state Example.disks Example.table_sizes) = Done st
    ∧ RunPhase2 Example.kOffsetSize Example.GetMaxEntrySize 20 Example.disks
        Example.table_sizes 5 100 16 4 = Done (new_sizes, new_disks)
    ∧ new_disks !! 1%nat = Some disk'
    ∧ ∀ p, 0 ≤ p < size_of Example.table_sizes 1 →
        current_bitfield st !! Z.to_nat p = Some true →
        disk_entry disk' entry_size
          (bitfield_index.rank (current_bitfield st) p)
        = disk_entry (disk_of Example.disks 1) entry_size p.
Proof.
  intros entry_size.
  apply (table1_entry_moves_to_its_rank Example.kOffsetSize
           Example.GetMaxEntrySize 20 Example.disks Example.table_sizes 5 100
           16 4).
  - valid_tables_by_computation.
  - intros table_index Hti. table_cases table_index; by_computation.
Defined.

Lemma RunPhase2_table7_references_in_bounds_witness :
  let entry_size := Example.GetMaxEntrySize 5 7 false in
  ∃ new_sizes new_disks disk' new_size6,
    RunPhase2 Example.kOffsetSize Example.GetMaxEntrySize 20 Example.disks
      Example.table_sizes 5 100 16 4 = Done (new_sizes, new_disks)
    ∧ new_disks !! 7%nat = Some disk'
    ∧ new_sizes !! 6%nat = Some new_size6
    ∧ ∀ j, 0 ≤ j < size_of Example.table_sizes 7 →
        let new := disk_entry disk' entry_size j in
        0 ≤ Util.SliceInt64FromBytes new 5 5
        ∧ 0 ≤ Util.SliceInt64FromBytes new (5 + 5) Example.kOffsetSize
        ∧ Util.SliceInt64FromBytes new 5 5
          + Util.SliceInt64FromBytes new (5 + 5) Example.kOffsetSize
          < new_size6.
Proof.
  intros entry_size.
  apply (RunPhase2_table7_references_in_bounds Example.kOffsetSize
           Example.GetMaxEntrySize 20 Example.disks Example.table_sizes 5 100
           16 4).
  - valid_tables_by_computation.
  - intros table_index Hti. table_cases table_index; by_computation.
  - lia.
  - by_computation.
Defined.

Lemma RunPhase2_sorted_references_in_bounds_witness :
  let entry_size := Example.GetMaxEntrySize 5 6 false in
  ∃ new_sizes new_disks disk' new_size size_below,
    RunPhase2 Example.kOffsetSize Example.GetMaxEntrySize 20 Example.disks
      Example.table_sizes 5 100 16 4 = Done (new_sizes, new_disks)
    ∧ new_disks !! Z.to_nat 6 = Some disk'
    ∧ new_sizes !! Z.to_nat 6 = Some new_size
    ∧ new_sizes !! Z.to_nat (6 - 1) = Some size_below
    ∧ ∀ a, 0 ≤ a < new_size →
        let e := disk_entry disk' entry_size a in
        0 ≤ Util.SliceInt64FromBytes e (5 + 1) 5
        ∧ 0 ≤ Util.SliceInt64FromBytes e (5 + 1 + 5) Example.kOffsetSize
        ∧ Util.SliceInt64FromBytes e (5 + 1) 5
          + Util.SliceInt64FromBytes e (5 + 1 + 5) Example.kOffsetSize
          < size_below.
Proof.
  intros entry_size.
  apply (RunPhase2_sorted_references_in_bounds Example.kOffsetSize
           Example.GetMaxEntrySize 20 Example.disks Example.table_sizes 5 100
           16 4 6).
  - lia.
  - valid_tables_by_computation.
  - intros table_index Hti. table_cases table_index; by_computation.
  - lia.
  - by_computation.
Defined.

Lemma liveness_is_reachability_witness :
  ∃ st,
    tables_loop Example.kOffsetSize Example.GetMaxEntrySize 6 20
      Example.table_sizes 5 100 16 4 7
      (initial_state Example.disks Example.table_sizes) = Done st
    ∧ Z.of_nat (length (current_bitfield st))
      = size_of Example.table_sizes (7 - Z.of_nat 6)
    ∧ ∀ e, 0 ≤ e →
        current_bitfield st !! Z.to_nat e = Some true
        ↔ reachable Example.kOffsetSize Example.GetMaxEntrySize Example.disks
            Example.table_sizes 5 6 e.
Proof.
  apply (liveness_is_reachability Example.kOffsetSize Example.GetMaxEntrySize
           20 Example.disks Example.table_sizes 5 100 16 4 6).
  - valid_tables_by_computation.
  - intros table_index Hti. table_cases table_index; by_computation.
  - lia.
Defined.

Lemma backpropagate_table_assertion_fails_witness :
  backpropagate_table Example.kOffsetSize NarrowExample.GetMaxEntrySize 5
    NarrowExample.table_sizes 5 100 16 4 6
    (mkPhase2 NarrowExample.disks [0; 0; 0; 0; 0; 0; 0; 0]
       NarrowExample.reaches6)
  = Fault AssertionFailed.
Proof.
  apply (backpropagate_table_assertion_fails Example.kOffsetSize
           NarrowExample.GetMaxEntrySize 5 NarrowExample.table_sizes 5 100 16
           4 6
           (mkPhase2 NarrowExample.disks [0; 0; 0; 0; 0; 0; 0; 0]
              NarrowExample.reaches6) 1 1 [x00; x00]);
    [lia | reflexivity | reflexivity | reflexivity | by_computation ..
    | Forall_by_computation | by_computation
    | exists 0; split; [lia | reflexivity]].
Defined.
